(** * Serial debug terminal: codec, transcript log, write path, auto-send timer

    A shallow embedding of [src/App.tsx] (the React component that owns the
    serial session) and of [analyzeLogs] from the AI service module, together
    with the properties of the session engine that the specification states.

    Conventions of the embedding:
    - a JavaScript string is the list of its UTF-16 code units ([jsstring]);
    - a [Uint8Array] is a list of [byte];
    - a JavaScript [number] that only ever counts things is an [N];
    - React state is the record [SerialState]; [setState (prev => ...)] is a
      function on that record; refs, the port object and the interval table of
      the window live next to it in [World];
    - what the host decides (random ids, the clock, whether a write or a
      signal change is rejected) is passed in as an explicit argument;
    - a session is a list of events, each handled and followed by React's
      commit; an [async] handler whose [await] other events can overtake
      ([handleDisconnect]) is two events, and a callback runs with the render
      state it closed over (interval callbacks, file readers). *)

From Stdlib Require Import NArith ZArith Lia String Ascii Bool.
From Stdlib.Strings Require Import Byte.
From stdpp Require Import base list gmap.

Open Scope N_scope.

(** ** JavaScript strings *)

Module JS.

Definition jsstring : Type := list N.
Definition Uint8Array : Type := list byte.

Definition in_range (lo hi c : N) : bool := (lo <=? c) && (c <=? hi).

(** Source-text literals.  A Rocq string literal holds the UTF-8 bytes of the
    source file; [lit] re-assembles the code points and emits UTF-16. *)
Definition cont (b : N) : N := b mod 64.

Definition utf16_units (cp : N) : jsstring :=
  if cp <? 65536 then [cp]
  else [55296 + (cp - 65536) / 1024; 56320 + (cp - 65536) mod 1024].

Fixpoint utf16_of_utf8 (bs : list N) : jsstring :=
  match bs with
  | [] => []
  | b0 :: r0 =>
    if b0 <? 128 then b0 :: utf16_of_utf8 r0
    else if b0 <? 224 then
      match r0 with
      | b1 :: r1 => (b0 mod 32 * 64 + cont b1) :: utf16_of_utf8 r1
      | _ => [65533]
      end
    else if b0 <? 240 then
      match r0 with
      | b1 :: b2 :: r2 =>
        (b0 mod 16 * 4096 + cont b1 * 64 + cont b2) :: utf16_of_utf8 r2
      | _ => [65533]
      end
    else
      match r0 with
      | b1 :: b2 :: b3 :: r3 =>
        utf16_units (b0 mod 8 * 262144 + cont b1 * 4096 + cont b2 * 64 + cont b3)
          ++ utf16_of_utf8 r3
      | _ => [65533]
      end
  end.

Definition lit (s : string) : jsstring :=
  utf16_of_utf8 (map N_of_ascii (list_ascii_of_string s)).

Definition CR : N := 13.
Definition LF : N := 10.
Definition CRLF : jsstring := [CR; LF].

(** [a.slice(-n)] on arrays and strings: the last [n] elements, everything
    when there are fewer. *)
Definition slice_last {A} (n : nat) (l : list A) : list A :=
  drop (length l - n) l.

(** [s.substring(a, b)]: arguments are swapped when [a > b]; [take] and [drop]
    clamp to the length. *)
Definition substring (s : jsstring) (a b : nat) : jsstring :=
  take (Nat.max a b - Nat.min a b) (drop (Nat.min a b) s).

Fixpoint endsWith_rev (rs rsuffix : jsstring) : bool :=
  match rsuffix, rs with
  | [], _ => true
  | _ :: _, [] => false
  | c :: rsuffix', d :: rs' => (c =? d) && endsWith_rev rs' rsuffix'
  end.

(** [s.endsWith(suffix)] *)
Definition endsWith (s suffix : jsstring) : bool :=
  endsWith_rev (rev s) (rev suffix).

(** [a.join(sep)] *)
Fixpoint join (sep : jsstring) (parts : list jsstring) : jsstring :=
  match parts with
  | [] => []
  | p :: rest =>
    match rest with
    | [] => p
    | _ :: _ => p ++ sep ++ join sep rest
    end
  end.

(** [s.padStart(n, pad)] *)
Definition padStart (s : jsstring) (n : nat) (pad : jsstring) : jsstring :=
  let k := (n - length s)%nat in
  take k (concat (repeat pad k)) ++ s.

(** [s.toUpperCase()] for ASCII text (code units below 128), where it maps
    the letters a-z and nothing else; outside ASCII JavaScript maps more (the
    ligature U+FB00 becomes "FF"), which the definition does not follow.  The
    call sites of the source apply it to ASCII text: two hex digits, the
    entry kind, the signal name. *)
Definition toUpperCase (s : jsstring) : jsstring :=
  map (fun c => if in_range 97 122 c then c - 32 else c) s.

(** [s.replace(/c/g, rep)] for a single-character pattern. *)
Definition replace_all (c : N) (rep : jsstring) (s : jsstring) : jsstring :=
  flat_map (fun x => if x =? c then rep else [x]) s.

(** Digits of [Number.prototype.toString(radix)] and of [parseInt]. *)
Definition digit_char (d : N) : N := if d <? 10 then 48 + d else 87 + d.

Definition digit_value (c : N) : option N :=
  if in_range 48 57 c then Some (c - 48)
  else if in_range 97 122 c then Some (c - 87)
  else if in_range 65 90 c then Some (c - 55)
  else None.

Fixpoint toString_digits (fuel : nat) (radix n : N) (acc : jsstring) : jsstring :=
  match fuel with
  | O => acc
  | S fuel' =>
    let acc' := digit_char (n mod radix) :: acc in
    if n / radix =? 0 then acc' else toString_digits fuel' radix (n / radix) acc'
  end.

(** [n.toString(radix)], and the conversion of a number in a template
    literal for radix 10, for a non-negative integer below 10^21: from there
    on JavaScript prints radix 10 in exponent notation ("1e+21"), which the
    definition does not follow.  A number has no more digits in a radix of at
    least two than it has bits. *)
Definition toString (n radix : N) : jsstring :=
  toString_digits (S (N.to_nat (N.log2 n))) radix n [].

(** [parseInt(s, radix)] on a string that starts with its digits (the source
    passes two hexadecimal digits: no blanks, sign or prefix to skip).
    [None] is [NaN]. *)
Fixpoint parseInt_from (radix : N) (s : jsstring) (acc : option N) : option N :=
  match s with
  | [] => acc
  | c :: rest =>
    match digit_value c with
    | Some d =>
      if d <? radix
      then parseInt_from radix rest (Some (default 0 acc * radix + d))
      else acc
    | None => acc
    end
  end.

Definition parseInt (s : jsstring) (radix : N) : option N :=
  parseInt_from radix s None.

Definition byte_of_N (n : N) : byte :=
  default x00 (Byte.of_N (n mod 256)).

(** Storing a number into a [Uint8Array] slot: [NaN] becomes 0, integers wrap. *)
Definition ToUint8 (v : option N) : byte :=
  match v with
  | None => x00
  | Some n => byte_of_N n
  end.

(** [new TextEncoder().encode(s)]: UTF-8, a lone surrogate becomes U+FFFD. *)
Definition is_high (c : N) : bool := in_range 55296 56319 c.
Definition is_low (c : N) : bool := in_range 56320 57343 c.

Definition utf8_bytes (cp : N) : Uint8Array :=
  if cp <? 128 then [byte_of_N cp]
  else if cp <? 2048 then [byte_of_N (192 + cp / 64); byte_of_N (128 + cp mod 64)]
  else if cp <? 65536 then
    [byte_of_N (224 + cp / 4096); byte_of_N (128 + cp / 64 mod 64);
     byte_of_N (128 + cp mod 64)]
  else
    [byte_of_N (240 + cp / 262144); byte_of_N (128 + cp / 4096 mod 64);
     byte_of_N (128 + cp / 64 mod 64); byte_of_N (128 + cp mod 64)].

Fixpoint encode (s : jsstring) : Uint8Array :=
  match s with
  | [] => []
  | c :: rest =>
    if is_high c then
      match rest with
      | d :: rest' =>
        if is_low d
        then utf8_bytes (65536 + (c - 55296) * 1024 + (d - 56320)) ++ encode rest'
        else utf8_bytes 65533 ++ encode rest
      | [] => utf8_bytes 65533
      end
    else if is_low c then utf8_bytes 65533 ++ encode rest
    else utf8_bytes c ++ encode rest
  end.

End JS.
Export JS.

(** ** Codec helpers of [App.tsx] *)

Definition is_hex_digit (c : N) : bool :=
  in_range 48 57 c || in_range 65 70 c || in_range 97 102 c.

(** [parseHexString]: [str.replace(/[^0-9A-Fa-f]/g, '')], the length test, then
    the loop that fills [bytes[i / 2]] for [i = 0, 2, ...]. *)
Definition parseHexString (str : jsstring) : option Uint8Array :=
  let clean := List.filter is_hex_digit str in
  if (length clean =? 0)%nat || negb (length clean mod 2 =? 0)%nat then None
  else Some (map (fun k => ToUint8 (parseInt (substring clean (2 * k) (2 * k + 2)) 16))
                 (seq 0 (length clean / 2))).

Definition byte_hex (b : byte) : jsstring :=
  toUpperCase (padStart (toString (Byte.to_N b) 16) 2 (lit "0")).

(** [bufferToHex] *)
Definition bufferToHex (buffer : Uint8Array) : jsstring :=
  join (lit " ") (map byte_hex buffer).

(** ** Data model ([types.ts]) *)

Inductive LogType := rx | tx | info | error.

Definition LogType_name (t : LogType) : jsstring :=
  match t with
  | rx => lit "rx"
  | tx => lit "tx"
  | info => lit "info"
  | error => lit "error"
  end.

Record LogEntry := {
  id : jsstring;
  timestamp : N;
  type : LogType;
  data : jsstring;
  hex : jsstring
}.

Inductive Parity := ParityNone | ParityEven | ParityOdd.
Inductive StopBits := StopOne | StopTwo.
Inductive DataBits := DataSeven | DataEight.
Inductive FlowControl := FlowNone | FlowHardware.

Record SerialConfig := {
  baudRate : N;
  dataBits : DataBits;
  stopBits : StopBits;
  parity : Parity;
  bufferSize : N;
  flowControl : FlowControl
}.

(** [repeatInterval] comes from [parseInt] of an input box: [None] is [NaN]. *)
Record SendConfig := {
  isHex : bool;
  addCRLF : bool;
  autoRepeat : bool;
  repeatInterval : option Z
}.

Inductive AIProvider := gemini | deepseek | openai | grok | custom.

Record AIConfig := {
  provider : AIProvider;
  apiKey : jsstring;
  baseUrl : jsstring;
  model : jsstring
}.

(** The session holds at most one port object; [state.port] is a reference
    to it or [null]. *)
Inductive SerialPortRef := ThePort.

Record SerialState := {
  isConnected : bool;
  port : option SerialPortRef;
  config : SerialConfig;
  sendConfig : SendConfig;
  logs : list LogEntry;
  isHexMode : bool;
  autoScroll : bool;
  showTimestamp : bool;
  dtr : bool;
  rts : bool;
  rxCount : N;
  txCount : N;
  aiConfig : AIConfig;
  showAiSettings : bool
}.

#[global] Instance LogType_eq_dec : EqDecision LogType.
Proof. solve_decision. Defined.

(** What [loadInitialState] found in local storage: each part may be
    missing. *)
Record Saved := {
  saved_config : option SerialConfig;
  saved_sendConfig : option SendConfig;
  saved_aiConfig : option AIConfig
}.

Definition nothing_saved : Saved :=
  {| saved_config := None; saved_sendConfig := None; saved_aiConfig := None |}.

(** The initial React state: [savedState.x || default] for the three saved
    parts. *)
Definition initialStateFrom (saved : Saved) : SerialState := {|
  isConnected := false;
  port := None;
  config := default
    {| baudRate := 115200; dataBits := DataEight; stopBits := StopOne;
       parity := ParityNone; bufferSize := 1024; flowControl := FlowNone |}
    (saved_config saved);
  sendConfig := default
    {| isHex := false; addCRLF := false; autoRepeat := false;
       repeatInterval := Some 1000%Z |}
    (saved_sendConfig saved);
  logs := [];
  isHexMode := false;
  autoScroll := true;
  showTimestamp := true;
  dtr := false;
  rts := false;
  rxCount := 0;
  txCount := 0;
  aiConfig := default
    {| provider := gemini; apiKey := []; baseUrl := [];
       model := lit "gemini-2.0-flash" |}
    (saved_aiConfig saved);
  showAiSettings := false
|}.

(** The initial state when nothing was saved. *)
Definition initialState : SerialState := initialStateFrom nothing_saved.

(** ** The transcript log: [addLog] *)

(** What the host contributes to one entry: [Math.random()...] and [new Date()]. *)
Record Stamp := { random_id : jsstring; now : N }.

Definition set_log (l : list LogEntry) (rxc txc : N) (s : SerialState) : SerialState :=
  {| isConnected := isConnected s; port := port s; config := config s;
     sendConfig := sendConfig s; logs := l; isHexMode := isHexMode s;
     autoScroll := autoScroll s; showTimestamp := showTimestamp s;
     dtr := dtr s; rts := rts s; rxCount := rxc; txCount := txc;
     aiConfig := aiConfig s; showAiSettings := showAiSettings s |}.

(** The amount a counter grows by: [rawBytes ? rawBytes.length : data.length].
    A [Uint8Array] is an object, hence truthy even when it is empty. *)
Definition counted_length (data : jsstring) (rawBytes : option Uint8Array) : N :=
  match rawBytes with
  | Some raw => N.of_nat (length raw)
  | None => N.of_nat (length data)
  end.

Definition entry_hex (data : jsstring) (rawBytes : option Uint8Array) : jsstring :=
  match rawBytes with
  | Some raw => bufferToHex raw
  | None => join (lit " ") (map byte_hex (encode data))
  end.

Definition newEntry (st : Stamp) (ty : LogType) (dat : jsstring)
    (rawBytes : option Uint8Array) : LogEntry :=
  {| id := random_id st; timestamp := now st; type := ty;
     data := dat; hex := entry_hex dat rawBytes |}.

Definition addLog (st : Stamp) (ty : LogType) (dat : jsstring)
    (rawBytes : option Uint8Array) (prev : SerialState) : SerialState :=
  set_log (slice_last 2000 (logs prev) ++ [newEntry st ty dat rawBytes])
          (if decide (ty = rx) then rxCount prev + counted_length dat rawBytes
           else rxCount prev)
          (if decide (ty = tx) then txCount prev + counted_length dat rawBytes
           else txCount prev)
          prev.

(** [onClearLogs] *)
Definition clearLogs (prev : SerialState) : SerialState := set_log [] 0 0 prev.

(** One call of [addLog], as data, and a run of calls. *)
Record Append := {
  a_stamp : Stamp;
  a_type : LogType;
  a_data : jsstring;
  a_raw : option Uint8Array
}.

Definition append (a : Append) : SerialState -> SerialState :=
  addLog (a_stamp a) (a_type a) (a_data a) (a_raw a).

Definition appends (l : list Append) (s : SerialState) : SerialState :=
  fold_left (fun acc a => append a acc) l s.

Definition entry_of (a : Append) : LogEntry :=
  newEntry (a_stamp a) (a_type a) (a_data a) (a_raw a).

Definition raw_length (a : Append) : N :=
  match a_raw a with
  | Some raw => N.of_nat (length raw)
  | None => 0
  end.

(** Sum of the raw byte lengths of the appends of kind [k]. *)
Definition raw_total (k : LogType) (l : list Append) : N :=
  fold_right N.add 0 (map raw_length (List.filter (fun a => bool_decide (a_type a = k)) l)).

(** ** The port object, refs and the interval table *)

(** The opened [SerialPort] as the session sees it: whether [port.writable]
    is non-null, which writer (if any) holds the lock of the writable stream,
    the chunks written so far, and the two control lines. *)
Record PortObject := {
  writable : bool;
  writer_lock : option nat;
  next_writer : nat;
  wire : list Uint8Array;
  line_dtr : bool;
  line_rts : bool
}.

(** What an interval callback closes over: the render's [state] (through
    [sendData]) and its [inputBuffer]. *)
Record Callback := {
  cb_state : SerialState;
  cb_input : jsstring;
  cb_period : option Z
}.

(** A handler that has started and not finished, with the render state its
    closure holds: [handleDisconnect] waiting at [await cancel()] or
    [await close()], and the [onload] callback that [handleFileUpload] gave to
    a [FileReader]. *)
Inductive Task :=
| Closing (cl : SerialState)
| Loading (cl : SerialState).

Record World := {
  state : SerialState;
  inputBuffer : jsstring;
  writerRef : option nat;
  autoSendTimerRef : option positive;
  keepReadingRef : bool;
  dev : PortObject;
  intervals : gmap positive Callback;
  next_interval : positive;
  suspended : list Task
}.

Definition closedPort : PortObject :=
  {| writable := false; writer_lock := None; next_writer := 0%nat; wire := [];
     line_dtr := false; line_rts := false |}.

(** The world after the component has mounted: the refs hold their initial
    values, and the first run of the auto-send effect found the session
    closed and set no interval. *)
Definition mount (saved : Saved) : World :=
  {| state := initialStateFrom saved; inputBuffer := []; writerRef := None;
     autoSendTimerRef := None; keepReadingRef := true; dev := closedPort;
     intervals := ∅; next_interval := 1%positive; suspended := [] |}.

Definition initialWorld : World := mount nothing_saved.

Definition with_state (f : SerialState -> SerialState) (w : World) : World :=
  {| state := f (state w); inputBuffer := inputBuffer w; writerRef := writerRef w;
     autoSendTimerRef := autoSendTimerRef w; keepReadingRef := keepReadingRef w;
     dev := dev w; intervals := intervals w; next_interval := next_interval w;
     suspended := suspended w |}.

Definition with_dev (f : PortObject -> PortObject) (w : World) : World :=
  {| state := state w; inputBuffer := inputBuffer w; writerRef := writerRef w;
     autoSendTimerRef := autoSendTimerRef w; keepReadingRef := keepReadingRef w;
     dev := f (dev w); intervals := intervals w; next_interval := next_interval w;
     suspended := suspended w |}.

Definition set_writerRef (r : option nat) (w : World) : World :=
  {| state := state w; inputBuffer := inputBuffer w; writerRef := r;
     autoSendTimerRef := autoSendTimerRef w; keepReadingRef := keepReadingRef w;
     dev := dev w; intervals := intervals w; next_interval := next_interval w;
     suspended := suspended w |}.

Definition set_keepReading (b : bool) (w : World) : World :=
  {| state := state w; inputBuffer := inputBuffer w; writerRef := writerRef w;
     autoSendTimerRef := autoSendTimerRef w; keepReadingRef := b;
     dev := dev w; intervals := intervals w; next_interval := next_interval w;
     suspended := suspended w |}.

Definition set_inputBuffer (s : jsstring) (w : World) : World :=
  {| state := state w; inputBuffer := s; writerRef := writerRef w;
     autoSendTimerRef := autoSendTimerRef w; keepReadingRef := keepReadingRef w;
     dev := dev w; intervals := intervals w; next_interval := next_interval w;
     suspended := suspended w |}.

Definition set_timer (r : option positive) (tbl : gmap positive Callback)
    (nxt : positive) (w : World) : World :=
  {| state := state w; inputBuffer := inputBuffer w; writerRef := writerRef w;
     autoSendTimerRef := r; keepReadingRef := keepReadingRef w;
     dev := dev w; intervals := tbl; next_interval := nxt; suspended := suspended w |}.

Definition set_suspended (l : list Task) (w : World) : World :=
  {| state := state w; inputBuffer := inputBuffer w; writerRef := writerRef w;
     autoSendTimerRef := autoSendTimerRef w; keepReadingRef := keepReadingRef w;
     dev := dev w; intervals := intervals w; next_interval := next_interval w;
     suspended := l |}.

(** A handler suspends, and the [k]-th suspended handler is taken up again. *)
Definition suspend (t : Task) (w : World) : World :=
  set_suspended (suspended w ++ [t]) w.

Definition take_up (k : nat) (w : World) : World :=
  set_suspended (delete k (suspended w)) w.

(** [stream.getWriter()] on an unlocked stream, [writer.releaseLock()],
    [writer.write(chunk)], [port.setSignals(...)], [port.open()], [port.close()]. *)
Definition lock_for (wr : nat) (p : PortObject) : PortObject :=
  {| writable := writable p; writer_lock := Some wr; next_writer := S (next_writer p);
     wire := wire p; line_dtr := line_dtr p; line_rts := line_rts p |}.

Definition releaseLock (wr : nat) (p : PortObject) : PortObject :=
  if decide (writer_lock p = Some wr)
  then {| writable := writable p; writer_lock := None; next_writer := next_writer p;
          wire := wire p; line_dtr := line_dtr p; line_rts := line_rts p |}
  else p.

Definition write (chunk : Uint8Array) (p : PortObject) : PortObject :=
  {| writable := writable p; writer_lock := writer_lock p; next_writer := next_writer p;
     wire := wire p ++ [chunk]; line_dtr := line_dtr p; line_rts := line_rts p |}.

Definition setSignals (d r : bool) (p : PortObject) : PortObject :=
  {| writable := writable p; writer_lock := writer_lock p; next_writer := next_writer p;
     wire := wire p; line_dtr := d; line_rts := r |}.

Definition open_port (p : PortObject) : PortObject :=
  {| writable := true; writer_lock := None; next_writer := next_writer p;
     wire := wire p; line_dtr := line_dtr p; line_rts := line_rts p |}.

Definition close_port (p : PortObject) : PortObject :=
  {| writable := false; writer_lock := None; next_writer := next_writer p;
     wire := wire p; line_dtr := line_dtr p; line_rts := line_rts p |}.

(** The [finally] block of [sendData]: release whatever [writerRef.current]
    holds. *)
Definition release_ref (w : World) : World :=
  match writerRef w with
  | Some wr => with_dev (releaseLock wr) w
  | None => w
  end.

(** ** The write path: [sendData] *)

Inductive Content := Text (s : jsstring) | Binary (b : Uint8Array).

(** The host's part in one call: the stamp of the entry the call appends, the
    message of the [TypeError] if [getWriter] finds the stream locked, and the
    outcome of the awaited [write] ([None] resolves, [Some m] rejects). *)
Record SendEnv := {
  stamp : Stamp;
  lock_error : jsstring;
  write_error : option jsstring
}.

Definition msg_not_connected : jsstring := lit "串口未连接".
Definition msg_hex_format : jsstring := lit "Hex 格式错误 (应为偶数位 0-9 A-F)".
Definition msg_send_error (m : jsstring) : jsstring := lit "发送错误: " ++ m.

(** The text that is encoded in a text-mode send. *)
Definition textToSend (cl : SerialState) (content : jsstring) : jsstring :=
  if addCRLF (sendConfig cl) && negb (endsWith content CRLF)
  then content ++ CRLF
  else content.

(** [dataToSend] and [displayLog], or [None] when the hex text is rejected. *)
Definition prepare (cl : SerialState) (content : Content) (isHexInput : bool)
    : option (Uint8Array * jsstring) :=
  match content with
  | Binary b =>
    Some (b, lit "[FILE] Sent " ++ toString (N.of_nat (length b)) 10 ++ lit " bytes")
  | Text s =>
    if isHexInput then
      match parseHexString s with
      | None => None
      | Some bytes => Some (bytes, lit "[HEX] " ++ bufferToHex bytes)
      end
    else Some (encode (textToSend cl s), textToSend cl s)
  end.

(** [sendData content isHexInput], run by a handler that closed over the
    render state [cl].  [isHexInput = None] takes the default
    [state.sendConfig.isHex]. *)
Definition sendData (cl : SerialState) (content : Content) (isHexInput : option bool)
    (env : SendEnv) (w : World) : World :=
  let hexInput := default (isHex (sendConfig cl)) isHexInput in
  match port cl with
  | None => with_state (addLog (stamp env) error msg_not_connected None) w
  | Some _ =>
    if negb (writable (dev w))
    then with_state (addLog (stamp env) error msg_not_connected None) w
    else
      match writer_lock (dev w) with
      | Some _ =>
        (* getWriter throws: catch, then finally *)
        release_ref
          (with_state (addLog (stamp env) error (msg_send_error (lock_error env)) None) w)
      | None =>
        let wr := next_writer (dev w) in
        let w1 := set_writerRef (Some wr) (with_dev (lock_for wr) w) in
        match prepare cl content hexInput with
        | None =>
          release_ref
            (with_dev (releaseLock wr)
               (with_state (addLog (stamp env) error msg_hex_format None) w1))
        | Some (dataToSend, displayLog) =>
          match write_error env with
          | None =>
            release_ref
              (with_state (addLog (stamp env) tx displayLog (Some dataToSend))
                 (with_dev (write dataToSend) w1))
          | Some m =>
            release_ref
              (with_state (addLog (stamp env) error (msg_send_error m) None) w1)
          end
        end
      end
  end.

(** ** Control signals: [handleSignalChange] *)

Inductive Signal := sig_dtr | sig_rts.

Definition Signal_name (s : Signal) : jsstring :=
  match s with sig_dtr => lit "dtr" | sig_rts => lit "rts" end.

Record SignalEnv := {
  sig_stamp : Stamp;
  sig_error : option jsstring
}.

Definition set_signal (s : Signal) (v : bool) (st : SerialState) : SerialState :=
  {| isConnected := isConnected st; port := port st; config := config st;
     sendConfig := sendConfig st; logs := logs st; isHexMode := isHexMode st;
     autoScroll := autoScroll st; showTimestamp := showTimestamp st;
     dtr := match s with sig_dtr => v | sig_rts => dtr st end;
     rts := match s with sig_rts => v | sig_dtr => rts st end;
     rxCount := rxCount st; txCount := txCount st;
     aiConfig := aiConfig st; showAiSettings := showAiSettings st |}.

Definition handleSignalChange (cl : SerialState) (s : Signal) (value : bool)
    (env : SignalEnv) (w : World) : World :=
  match port cl with
  | None => w
  | Some _ =>
    if negb (isConnected cl) then w
    else
      match sig_error env with
      | None =>
        with_state
          (fun st =>
             addLog (sig_stamp env) info
               (lit "信号设置: " ++ toUpperCase (Signal_name s) ++ lit " = "
                  ++ (if value then lit "ON" else lit "OFF"))
               None (set_signal s value st))
          (with_dev (setSignals (match s with sig_dtr => value | sig_rts => dtr cl end)
                                (match s with sig_rts => value | sig_dtr => rts cl end))
             w)
      | Some m =>
        with_state (addLog (sig_stamp env) error (lit "无法设置信号: " ++ m) None) w
      end
  end.

(** ** Connection lifecycle: [handleConnect], [handleDisconnect] *)

Record ConnectEnv := {
  serial_supported : bool;
  open_error : option jsstring;
  init_signals_error : option jsstring;
  c_stamp : Stamp;
  c_stamp' : Stamp
}.

Record DisconnectEnv := {
  d_stamp : Stamp;
  close_ok : bool
}.

Definition set_connection (c : bool) (p : option SerialPortRef) (st : SerialState)
    : SerialState :=
  {| isConnected := c; port := p; config := config st;
     sendConfig := sendConfig st; logs := logs st; isHexMode := isHexMode st;
     autoScroll := autoScroll st; showTimestamp := showTimestamp st;
     dtr := dtr st; rts := rts st; rxCount := rxCount st; txCount := txCount st;
     aiConfig := aiConfig st; showAiSettings := showAiSettings st |}.

Definition set_sendConfig (c : SendConfig) (st : SerialState) : SerialState :=
  {| isConnected := isConnected st; port := port st; config := config st;
     sendConfig := c; logs := logs st; isHexMode := isHexMode st;
     autoScroll := autoScroll st; showTimestamp := showTimestamp st;
     dtr := dtr st; rts := rts st; rxCount := rxCount st; txCount := txCount st;
     aiConfig := aiConfig st; showAiSettings := showAiSettings st |}.

Definition autoRepeat_off (st : SerialState) : SerialState :=
  set_sendConfig {| isHex := isHex (sendConfig st); addCRLF := addCRLF (sendConfig st);
                    autoRepeat := false;
                    repeatInterval := repeatInterval (sendConfig st) |} st.

Definition msg_open_failed (m : jsstring) : jsstring := lit "打开失败: " ++ m.

(** [handleConnect]; the read loop it starts is represented by
    [keepReadingRef] only, received chunks arrive as events of their own. *)
Definition handleConnect (cl : SerialState) (env : ConnectEnv) (w : World) : World :=
  if negb (serial_supported env) then
    with_state
      (addLog (c_stamp env) error
         (lit "当前浏览器不支持 Web Serial API，请使用 Chrome 或 Edge。") None) w
  else
    match open_error env with
    | Some m => with_state (addLog (c_stamp env) error (msg_open_failed m) None) w
    | None =>
      let w1 :=
        with_state
          (fun st =>
             addLog (c_stamp env) info
               (lit "串口已打开: " ++ toString (baudRate (config cl)) 10 ++ lit " bps")
               None (set_connection true (Some ThePort) st))
          (with_dev open_port w) in
      match init_signals_error env with
      | Some m => with_state (addLog (c_stamp' env) error (msg_open_failed m) None) w1
      | None => set_keepReading true (with_dev (setSignals false false) w1)
      end
    end.

(** [window.clearInterval(h)] followed by the new value of the timer ref. *)
Definition clear_timer (h : positive) (r : option positive) (w : World) : World :=
  set_timer r (delete h (intervals w)) (next_interval w) w.

(** [handleDisconnect] is an [async] function: it runs up to its first
    [await] when it is called, and the rest when the awaited promises have
    settled; other events can be handled in between.

    The part before the first [await]: reading is told to stop, and a timer
    that is set is cleared, its ref reset and the auto-repeat option switched
    off. *)
Definition handleDisconnect_begin (w : World) : World :=
  let w1 := set_keepReading false w in
  match autoSendTimerRef w1 with
  | Some h => with_state autoRepeat_off (clear_timer h None w1)
  | None => w1
  end.

(** The part from the first [await] on, with the render state [cl] of the
    call: cancelling the reader has no effect on the modelled part of the
    world, a failing [close] is swallowed, and the state is set to closed
    whatever happened. *)
Definition handleDisconnect_resume (cl : SerialState) (env : DisconnectEnv) (w : World)
    : World :=
  let w3 :=
    match port cl with
    | Some _ => if close_ok env then with_dev close_port w else w
    | None => w
    end in
  with_state
    (fun st => addLog (d_stamp env) info (lit "串口已关闭") None
                 (set_connection false None st))
    w3.

(** One call of [handleDisconnect] that nothing interrupts. *)
Definition handleDisconnect (cl : SerialState) (env : DisconnectEnv) (w : World) : World :=
  handleDisconnect_resume cl env (handleDisconnect_begin w).

(** ** The auto-send effect *)

Definition armed_condition (w : World) : bool :=
  autoRepeat (sendConfig (state w)) && isConnected (state w)
  && negb (bool_decide (inputBuffer w = [])).

(** [Math.max(10, x)]; [NaN] stays [NaN]. *)
Definition period_of (x : option Z) : option Z :=
  match x with
  | Some z => Some (Z.max 10 z)
  | None => None
  end.

Definition effect_body (w : World) : World :=
  if armed_condition w then
    match autoSendTimerRef w with
    | None =>
      let h := next_interval w in
      set_timer (Some h)
        (<[h := {| cb_state := state w; cb_input := inputBuffer w;
                   cb_period := period_of (repeatInterval (sendConfig (state w))) |}]>
           (intervals w))
        (Pos.succ h) w
    | Some _ => w
    end
  else
    match autoSendTimerRef w with
    | Some h => clear_timer h None w
    | None => w
    end.

(** The function the effect returns: it clears the interval and leaves the
    ref as it is. *)
Definition effect_cleanup (w : World) : World :=
  match autoSendTimerRef w with
  | Some h => clear_timer h (Some h) w
  | None => w
  end.

(** The dependency array of the effect. *)
Definition deps (w : World) : bool * option Z * bool * jsstring * bool * bool :=
  (autoRepeat (sendConfig (state w)), repeatInterval (sendConfig (state w)),
   isConnected (state w), inputBuffer w,
   isHex (sendConfig (state w)), addCRLF (sendConfig (state w))).

(** After a render React re-runs the effect, cleanup first, when a dependency
    differs from the previous render. *)
Definition commit (before after : World) : World :=
  if bool_decide (deps before = deps after) then after
  else effect_body (effect_cleanup after).

(** The window fires interval [h]: the callback runs if the interval is
    still in the table. *)
Definition tick (h : positive) (env : SendEnv) (w : World) : World :=
  match intervals w !! h with
  | Some cb => sendData (cb_state cb) (Text (cb_input cb)) None env w
  | None => w
  end.

(** ** Events of a session *)

(** What can happen to the component: the window fires an interval, the user
    sends (button or Ctrl+Enter, a quick command), chooses a file to send and
    the file reader delivers its bytes, changes a signal, connects, asks to
    disconnect and the disconnect finishes, a device is plugged or removed
    ([ours] says whether it is the session's port), the read loop delivers a
    chunk together with its decoded text, the user edits the input box or a
    send option, or clears the log.

    A handler runs with the state of the current render.  An interval
    callback, the [onload] callback of a file reader and the rest of a
    suspended [handleDisconnect] run with the state of the render in which
    they were created, which they find in the interval table or among the
    suspended handlers; [k] says which suspended handler goes on.  A
    [handleDisconnect] that has nothing to wait for is the run in which its
    second part is the next event.  The handlers of the other events
    ([sendData], [handleConnect], [handleSignalChange]) are taken as a whole:
    what they await has settled before the next event is handled. *)
Inductive Event :=
| TimerTick (h : positive) (env : SendEnv)
| SendInput (env : SendEnv)
| SendQuick (content : jsstring) (hexInput : bool) (env : SendEnv)
| ChooseFile
| FileLoaded (k : nat) (bytes : Uint8Array) (env : SendEnv)
| ChangeSignal (s : Signal) (value : bool) (env : SignalEnv)
| ClickConnect (env : ConnectEnv)
| ClickDisconnect
| DisconnectSettles (k : nat) (env : DisconnectEnv)
| DevicePlugged (st : Stamp)
| DeviceRemoved (st : Stamp) (ours : bool)
| Received (st : Stamp) (text : jsstring) (chunk : Uint8Array)
| EditInput (s : jsstring)
| EditSendConfig (c : SendConfig)
| ClearLogs.

Definition handle (e : Event) (w : World) : World :=
  match e with
  | TimerTick h env => tick h env w
  | SendInput env => sendData (state w) (Text (inputBuffer w)) None env w
  | SendQuick content hexInput env => sendData (state w) (Text content) (Some hexInput) env w
  | ChooseFile => suspend (Loading (state w)) w
  | FileLoaded k bytes env =>
    match suspended w !! k with
    | Some (Loading cl) => sendData cl (Binary bytes) None env (take_up k w)
    | _ => w
    end
  | ChangeSignal s value env => handleSignalChange (state w) s value env w
  | ClickConnect env => handleConnect (state w) env w
  | ClickDisconnect => suspend (Closing (state w)) (handleDisconnect_begin w)
  | DisconnectSettles k env =>
    match suspended w !! k with
    | Some (Closing cl) => handleDisconnect_resume cl env (take_up k w)
    | _ => w
    end
  | DevicePlugged st => with_state (addLog st info (lit "检测到串口设备插入") None) w
  | DeviceRemoved st ours =>
    let w1 := with_state (addLog st info (lit "检测到串口设备移除") None) w in
    match port (state w) with
    | Some _ =>
      if ours then suspend (Closing (state w)) (handleDisconnect_begin w1) else w1
    | None => w1
    end
  | Received st text chunk => with_state (addLog st rx text (Some chunk)) w
  | EditInput s => set_inputBuffer s w
  | EditSendConfig c => with_state (set_sendConfig c) w
  | ClearLogs => with_state clearLogs w
  end.

Definition step (w : World) (e : Event) : World := commit w (handle e w).

Definition run (es : list Event) (w : World) : World := fold_left step es w.

(** The number of [sendData] calls the timer makes along a run. *)
Fixpoint timer_sends (w : World) (es : list Event) : nat :=
  match es with
  | [] => 0%nat
  | e :: es' =>
    (match e with
     | TimerTick h _ =>
       match intervals w !! h with Some _ => 1%nat | None => 0%nat end
     | _ => 0%nat
     end + timer_sends (step w e) es')%nat
  end.

(** Events that disarm the timer, and events that could arm it again: a
    disconnect is asked for (button, or removal of the session's device), a
    suspended disconnect finishes in world [w], the session connects, the
    auto-repeat option is switched off or on, the input box is edited. *)
Definition is_disconnect (e : Event) : bool :=
  match e with
  | ClickDisconnect => true
  | DeviceRemoved _ true => true
  | _ => false
  end.

Definition completes_disconnect (w : World) (e : Event) : bool :=
  match e with
  | DisconnectSettles k _ =>
    match suspended w !! k with
    | Some (Closing _) => true
    | _ => false
    end
  | _ => false
  end.

Definition is_input_edit (e : Event) : bool :=
  match e with EditInput _ => true | _ => false end.

Definition is_file_loaded (e : Event) : bool :=
  match e with FileLoaded _ _ _ => true | _ => false end.

Definition is_connect (e : Event) : bool :=
  match e with ClickConnect _ => true | _ => false end.

Definition is_toggle_off (e : Event) : bool :=
  match e with EditSendConfig c => negb (autoRepeat c) | _ => false end.

Definition is_toggle_on (e : Event) : bool :=
  match e with EditSendConfig c => autoRepeat c | _ => false end.

(** ** The analysis request: [handleAiAnalysis] and [analyzeLogs] *)

Definition entry_line (hexMode : bool) (l : LogEntry) : jsstring :=
  let content :=
    if hexMode then hex l
    else replace_all LF (lit "\n") (replace_all CR (lit "\r") (data l)) in
  toUpperCase (LogType_name (type l)) ++ lit ": " ++ content.

Definition combinedLogs (st : SerialState) : jsstring :=
  join [LF] (map (entry_line (isHexMode st)) (slice_last 100 (logs st))).

Definition prompt_head : jsstring := lit "
    你是一位资深的嵌入式系统工程师和通信协议专家。
    以下是一段串口通信日志（Serial Port Logs）。
    请对日志进行深入分析，重点关注以下几点：
    
    1. **协议识别**：分析通信模式，识别是否使用了标准协议（如 Modbus, AT 指令, NMEA-0183 等）或者是某种自定义帧结构。
    2. **数据解析**：尝试解读数据帧的含义（例如：命令头、数据长度、有效载荷、校验和）。
    3. **异常检测**：指出任何潜在的通信错误、超时、重试或异常的数据模式。
    4. **调试建议**：如果存在问题，请提供具体的排查步骤或建议。

    日志数据 (Log Data):
    ".

Definition prompt_tail : jsstring := lit " 

    请使用专业的中文进行回答，并使用 Markdown 格式优化排版。
  ".

(** The part of the prompt that carries the transcript. *)
Definition prompt_logs (logs : jsstring) : jsstring := slice_last 5000 logs.

Definition analyzeLogs_prompt (logs : jsstring) : jsstring :=
  prompt_head ++ prompt_logs logs ++ prompt_tail.

(** The prompt [analyzeLogs] hands to the provider, [None] when it throws
    before any request is made. *)
Definition analyzeLogs_request (logs : jsstring) (cfg : AIConfig) : option jsstring :=
  match provider cfg with
  | gemini =>
    if bool_decide (apiKey cfg = []) then None else Some (analyzeLogs_prompt logs)
  | _ =>
    if bool_decide (apiKey cfg = []) then None
    else if bool_decide (baseUrl cfg = []) then None
    else Some (analyzeLogs_prompt logs)
  end.

(** The request [handleAiAnalysis] makes, if it makes one. *)
Definition handleAiAnalysis_request (st : SerialState) : option jsstring :=
  if bool_decide (apiKey (aiConfig st) = []) then None
  else if bool_decide (logs st = []) then None
  else analyzeLogs_request (combinedLogs st) (aiConfig st).

(** ** Auxiliary checks used in the proofs *)

(** A byte prints as two hexadecimal digits that read back as the byte. *)
Definition byte_hex_check (b : byte) : bool :=
  match byte_hex b with
  | [hi; lo] =>
    is_hex_digit hi && is_hex_digit lo
    && Byte.eqb (ToUint8 (parseInt [hi; lo] 16)) b
  | _ => false
  end.

(** A sample call [addLog('info', 'x')]. *)
Definition sample_append : Append :=
  {| a_stamp := {| random_id := lit "k3j9x2a"; now := 0 |}; a_type := info;
     a_data := lit "x"; a_raw := None |}.

(** ** Connection state *)

(** The connection is open when the flag is set and the port is held. *)
Definition connection_open (st : SerialState) : Prop :=
  isConnected st = true /\ port st <> None.

(** [handleConnect] and [handleDisconnect] set the flag and the port
    together. *)
Definition consistent (st : SerialState) : Prop :=
  isConnected st = true <-> port st <> None.

(** ** Concrete hosts and worlds for the examples *)

Definition stamp0 : Stamp := {| random_id := lit "k3j9x2a"; now := 1762128000000 |}.

Definition send_ok : SendEnv :=
  {| stamp := stamp0; lock_error := []; write_error := None |}.

Definition connect_ok : ConnectEnv :=
  {| serial_supported := true; open_error := None; init_signals_error := None;
     c_stamp := stamp0; c_stamp' := stamp0 |}.

Definition disconnect_ok : DisconnectEnv := {| d_stamp := stamp0; close_ok := true |}.

(** A disconnect whose [close] is rejected. *)
Definition disconnect_rejected : DisconnectEnv :=
  {| d_stamp := stamp0; close_ok := false |}.

Definition signal_ok : SignalEnv := {| sig_stamp := stamp0; sig_error := None |}.

(** The world after a successful connect with the default line parameters
    (115200 baud, 8 data bits, 1 stop bit, no parity). *)
Definition openWorld : World := run [ClickConnect connect_ok] initialWorld.

(** ** Invariants of the auto-send timer *)

(** Every live interval is the one the ref holds. *)
Definition timer_owned (w : World) : Prop :=
  forall h, is_Some (intervals w !! h) -> autoSendTimerRef w = Some h.

(** The ref is set only while the arming condition of the effect holds. *)
Definition timer_armed (w : World) : Prop :=
  autoSendTimerRef w <> None -> armed_condition w = true.

Definition session_inv (w : World) : Prop :=
  timer_owned w /\ timer_armed w /\ consistent (state w).

(** Conversely, while the arming condition holds the ref is set. *)
Definition armed_has_ref (w : World) : Prop :=
  armed_condition w = true -> autoSendTimerRef w <> None.


(** What a handler may do to the timer: nothing, or clear the interval of the
    ref and reset the ref. *)
Definition timer_step (w w1 : World) : Prop :=
  (autoSendTimerRef w1 = autoSendTimerRef w /\ intervals w1 = intervals w)
  \/ (autoSendTimerRef w1 = None
      /\ exists h, autoSendTimerRef w = Some h /\ intervals w1 = delete h (intervals w)).

(** What a handler that only logs, writes or changes signals leaves alone. *)
Definition frame (w w1 : World) : Prop :=
  autoSendTimerRef w1 = autoSendTimerRef w
  /\ intervals w1 = intervals w
  /\ inputBuffer w1 = inputBuffer w
  /\ isConnected (state w1) = isConnected (state w)
  /\ port (state w1) = port (state w)
  /\ sendConfig (state w1) = sendConfig (state w).

(** [needle] occurs in [hay] as a substring. *)
Definition occurs (needle hay : jsstring) : Prop :=
  exists pre post, hay = pre ++ needle ++ post.

(** A two-entry transcript whose second entry alone fills the 5000
    characters of the prompt, with an API key configured. *)
Definition long_transcript : SerialState :=
  {| isConnected := false; port := None; config := config initialState;
     sendConfig := sendConfig initialState;
     logs := [ newEntry stamp0 rx (lit "Z") (Some [x5a]);
               newEntry stamp0 rx (repeat 66 5000) (Some (repeat x42 5000)) ];
     isHexMode := false; autoScroll := true; showTimestamp := true;
     dtr := false; rts := false; rxCount := 5001; txCount := 0;
     aiConfig := {| provider := gemini; apiKey := lit "key"; baseUrl := [];
                    model := lit "gemini-2.0-flash" |};
     showAiSettings := false |}.

Definition auto_on : SendConfig :=
  {| isHex := false; addCRLF := false; autoRepeat := true;
     repeatInterval := Some 1000%Z |}.

(** A session that connects, types "AT" and switches auto-repeat on. *)
Definition armed_session : list Event :=
  [ClickConnect connect_ok; EditInput (lit "AT"); EditSendConfig auto_on].

(** A session that connects and switches auto-repeat on while the input box
    is still empty. *)
Definition idle_session : list Event :=
  [ClickConnect connect_ok; EditSendConfig auto_on].

(** ** The counters against the channel *)

(** Bytes written to the port so far, bytes delivered by the read loop along
    a run, and whether a run clears the log. *)
Definition wire_bytes (w : World) : N :=
  N.of_nat (length (concat (wire (dev w)))).

Definition received_bytes (es : list Event) : N :=
  fold_right N.add 0
    (map (fun e => match e with
                   | Received _ _ chunk => N.of_nat (length chunk)
                   | _ => 0
                   end) es).

Definition is_clear (e : Event) : bool :=
  match e with ClearLogs => true | _ => false end.

(** A handler step that moves both counters with the channel. *)
Definition counted_step (w w1 : World) (received : N) : Prop :=
  txCount (state w1) + wire_bytes w = txCount (state w) + wire_bytes w1
  /\ rxCount (state w1) = rxCount (state w) + received.

(** ** Proof automation *)

(** Projections of an updated world or state, and nothing else. *)
Ltac world_simpl :=
  cbn [state inputBuffer writerRef autoSendTimerRef keepReadingRef dev intervals
       next_interval suspended with_state with_dev set_writerRef set_keepReading
       set_inputBuffer set_timer clear_timer set_suspended suspend take_up
       writable writer_lock next_writer wire line_dtr line_rts
       lock_for write setSignals open_port close_port
       isConnected port config sendConfig logs isHexMode autoScroll showTimestamp
       dtr rts rxCount txCount aiConfig showAiSettings
       addLog set_log set_signal set_connection set_sendConfig autoRepeat_off clearLogs
       isHex addCRLF autoRepeat repeatInterval
       id timestamp type data hex newEntry] in *.
(** ** Auxiliary definitions for the further properties *)

(** Two code units that are equal or the two cases of one Latin letter, and
    two texts that differ at most in the case of their Latin letters. *)
Definition same_letter (a b : N) : Prop :=
  a = b \/ (65 <= a <= 90 /\ b = a + 32) \/ (65 <= b <= 90 /\ a = b + 32).

Definition same_up_to_case (s t : jsstring) : Prop := Forall2 same_letter s t.

(** The bytes of a digit string taken two digits at a time, as the loop of
    [parseHexString] reads them. *)
Fixpoint decode_pairs (clean : jsstring) : Uint8Array :=
  match clean with
  | a :: b :: rest => ToUint8 (parseInt [a; b] 16) :: decode_pairs rest
  | _ => []
  end.

(** An open world in which the write of an earlier [sendData] is still
    pending: writer 0 holds the lock and sits in [writerRef]. *)
Definition busyWorld : World :=
  set_writerRef (Some 0%nat) (with_dev (lock_for 0%nat) openWorld).

Definition send_fails : SendEnv :=
  {| stamp := stamp0; lock_error := lit "locked"; write_error := Some (lit "lost") |}.

Definition crlf_on : SerialState :=
  set_sendConfig {| isHex := false; addCRLF := true; autoRepeat := false;
                    repeatInterval := Some 1000%Z |} (state openWorld).

Definition signal_fails : SignalEnv :=
  {| sig_stamp := stamp0; sig_error := Some (lit "denied") |}.

Definition connect_refused : ConnectEnv :=
  {| serial_supported := true; open_error := Some (lit "No port selected");
     init_signals_error := None; c_stamp := stamp0; c_stamp' := stamp0 |}.


(** The value the [signal] line is given, the other line keeping what the
    state says. *)
Definition with_signal (s : Signal) (value : bool) (st : SerialState) : bool * bool :=
  match s with
  | sig_dtr => (value, rts st)
  | sig_rts => (dtr st, value)
  end.

(** What the callback of a live interval closed over agrees with the current
    render: the input, the send options, the port, and the period asked
    for. *)
Definition interval_fresh (w : World) : Prop :=
  forall h cb, intervals w !! h = Some cb ->
    cb_input cb = inputBuffer w
    /\ sendConfig (cb_state cb) = sendConfig (state w)
    /\ port (cb_state cb) = port (state w)
    /\ cb_period cb = period_of (repeatInterval (sendConfig (state w))).

(** Edits of the input box or of a send option. *)
Definition is_edit (e : Event) : bool :=
  match e with
  | EditInput _ | EditSendConfig _ => true
  | _ => false
  end.

(** The callback the effect installs in world [w]. *)
Definition callback_of (w : World) : Callback :=
  {| cb_state := state w; cb_input := inputBuffer w;
     cb_period := period_of (repeatInterval (sendConfig (state w))) |}.

(** ** The analysis service: what it answers and what [analyzeLogs] returns *)

(** The Gemini SDK call throws, or resolves with a response whose [text] may
    be missing. *)
Inductive GeminiReply :=
| GeminiThrows (message : jsstring)
| GeminiText (text : option jsstring).

(** [fetch] (or reading the body) throws, the response is not ok, or the body
    parses and [data.choices?.[0]?.message?.content] may be missing. *)
Inductive FetchReply :=
| FetchThrows (message : jsstring)
| FetchNotOk (status : N) (errorText : jsstring)
| FetchOk (content : option jsstring).

Record ServiceHost := {
  gemini_reply : GeminiReply;
  fetch_reply : FetchReply
}.

(** [v || fallback] for a string that may be undefined. *)
Definition or_else (v : option jsstring) (fallback : jsstring) : jsstring :=
  match v with
  | Some (c :: s) => c :: s
  | _ => fallback
  end.

Definition AIProvider_name (p : AIProvider) : jsstring :=
  match p with
  | gemini => lit "gemini"
  | deepseek => lit "deepseek"
  | openai => lit "openai"
  | grok => lit "grok"
  | custom => lit "custom"
  end.

(** The text returned from the [catch] block. *)
Definition error_report (message : jsstring) : jsstring :=
  lit "**AI 分析错误**:" ++ [LF; LF] ++ message ++ [LF; LF]
  ++ lit "请检查配置里的 API Key、模型名称和 Base URL 是否正确。".

(** [analyzeLogs logs config], given what the service answers. *)
Definition analyzeLogs (logs : jsstring) (cfg : AIConfig) (host : ServiceHost) : jsstring :=
  match provider cfg with
  | gemini =>
    if bool_decide (apiKey cfg = []) then error_report (lit "请配置 Gemini API Key")
    else
      match gemini_reply host with
      | GeminiThrows m => error_report m
      | GeminiText t => or_else t (lit "无法生成分析结果。")
      end
  | p =>
    if bool_decide (apiKey cfg = [])
    then error_report (lit "请配置 " ++ AIProvider_name p ++ lit " API Key")
    else if bool_decide (baseUrl cfg = [])
    then error_report (lit "API Base URL 不能为空")
    else
      match fetch_reply host with
      | FetchThrows m => error_report m
      | FetchNotOk status errorText =>
        error_report (lit "请求失败 (" ++ toString status 10 ++ lit "): " ++ errorText)
      | FetchOk content => or_else content (lit "无内容生成")
      end
  end.

Definition set_ai (c : AIConfig) (show : bool) (st : SerialState) : SerialState :=
  {| isConnected := isConnected st; port := port st; config := config st;
     sendConfig := sendConfig st; logs := logs st; isHexMode := isHexMode st;
     autoScroll := autoScroll st; showTimestamp := showTimestamp st;
     dtr := dtr st; rts := rts st; rxCount := rxCount st; txCount := txCount st;
     aiConfig := c; showAiSettings := show |}.

(** [handleAiAnalysis]: the new React state and the new [aiAnalysisResult]. *)
Definition handleAiAnalysis (host : ServiceHost) (st : SerialState)
    (result : option jsstring) : SerialState * option jsstring :=
  if bool_decide (apiKey (aiConfig st) = []) then (set_ai (aiConfig st) true st, result)
  else if bool_decide (logs st = []) then (st, result)
  else (st, Some (analyzeLogs (combinedLogs st) (aiConfig st) host)).

(** ** The settings dialog: [PROVIDERS] and [handleProviderChange] *)

Record ProviderPreset := {
  preset_id : AIProvider;
  preset_name : jsstring;
  defaultUrl : jsstring;
  defaultModel : jsstring
}.

Definition PROVIDERS : list ProviderPreset :=
  [ {| preset_id := gemini; preset_name := lit "Google Gemini";
       defaultUrl := []; defaultModel := lit "gemini-2.0-flash" |};
    {| preset_id := deepseek; preset_name := lit "DeepSeek";
       defaultUrl := lit "https://api.deepseek.com"; defaultModel := lit "deepseek-chat" |};
    {| preset_id := grok; preset_name := lit "xAI Grok";
       defaultUrl := lit "https://api.x.ai/v1"; defaultModel := lit "grok-beta" |};
    {| preset_id := openai; preset_name := lit "OpenAI GPT";
       defaultUrl := lit "https://api.openai.com/v1"; defaultModel := lit "gpt-4o" |};
    {| preset_id := custom; preset_name := lit "自定义 (Custom)";
       defaultUrl := []; defaultModel := [] |} ].

#[global] Instance AIProvider_eq_dec : EqDecision AIProvider.
Proof. solve_decision. Defined.

(** [PROVIDERS.find(p => p.id === provider)] *)
Definition find_preset (p : AIProvider) : option ProviderPreset :=
  List.find (fun preset => bool_decide (preset_id preset = p)) PROVIDERS.

(** [defaults?.field || previous] *)
Definition preset_or (field : option jsstring) (previous : jsstring) : jsstring :=
  or_else field previous.

Definition handleProviderChange (p : AIProvider) (prev : AIConfig) : AIConfig :=
  let defaults := find_preset p in
  {| provider := p;
     apiKey := apiKey prev;
     baseUrl := preset_or (option_map defaultUrl defaults) (baseUrl prev);
     model := preset_or (option_map defaultModel defaults) (model prev) |}.

(** [onSave] of the dialog. *)
Definition saveAiConfig (c : AIConfig) (st : SerialState) : SerialState :=
  set_ai c false st.

(** A DeepSeek configuration as the settings dialog leaves it once a key has
    been typed. *)
Definition deepseek_config : AIConfig :=
  handleProviderChange deepseek
    {| provider := gemini; apiKey := lit "sk-test"; baseUrl := [];
       model := lit "gemini-2.0-flash" |}.

Definition deepseek_answers : ServiceHost :=
  {| gemini_reply := GeminiThrows [];
     fetch_reply := FetchOk (Some (lit "Modbus RTU")) |}.

(** ** [new TextDecoder().decode(value)] *)

(** The UTF-8 decoder of the Encoding standard: the code point under
    construction, the continuation bytes it needs and has seen, and the range
    allowed for the next byte. *)
Record Utf8State := {
  u_code_point : N;
  u_needed : nat;
  u_seen : nat;
  u_lower : N;
  u_upper : N
}.

Definition utf8_idle : Utf8State :=
  {| u_code_point := 0; u_needed := 0; u_seen := 0; u_lower := 128; u_upper := 191 |}.

(** A byte met while no sequence is pending: the code points emitted and the
    next state. *)
Definition utf8_lead (b : N) : list N * Utf8State :=
  if b <=? 127 then ([b], utf8_idle)
  else if in_range 194 223 b then
    ([], {| u_code_point := b mod 32; u_needed := 1; u_seen := 0;
            u_lower := 128; u_upper := 191 |})
  else if in_range 224 239 b then
    ([], {| u_code_point := b mod 16; u_needed := 2; u_seen := 0;
            u_lower := if b =? 224 then 160 else 128;
            u_upper := if b =? 237 then 159 else 191 |})
  else if in_range 240 244 b then
    ([], {| u_code_point := b mod 8; u_needed := 3; u_seen := 0;
            u_lower := if b =? 240 then 144 else 128;
            u_upper := if b =? 244 then 143 else 191 |})
  else ([65533], utf8_idle).

Fixpoint utf8_decode (st : Utf8State) (bs : list N) : list N :=
  match bs with
  | [] => if (u_needed st =? 0)%nat then [] else [65533]
  | b :: rest =>
    if (u_needed st =? 0)%nat then
      let (out, st') := utf8_lead b in out ++ utf8_decode st' rest
    else if in_range (u_lower st) (u_upper st) b then
      let cp := u_code_point st * 64 + b mod 64 in
      if (S (u_seen st) =? u_needed st)%nat then cp :: utf8_decode utf8_idle rest
      else utf8_decode {| u_code_point := cp; u_needed := u_needed st;
                          u_seen := S (u_seen st); u_lower := 128; u_upper := 191 |}
                       rest
    else
      (* the sequence is broken: U+FFFD, and the byte is read again as a
         lead byte *)
      let (out, st') := utf8_lead b in 65533 :: out ++ utf8_decode st' rest
  end.

(** A byte order mark at the start of the input is dropped. *)
Definition strip_bom (cps : list N) : list N :=
  match cps with
  | 65279 :: rest => rest
  | _ => cps
  end.

Definition TextDecoder_decode (value : Uint8Array) : jsstring :=
  flat_map utf16_units (strip_bom (utf8_decode utf8_idle (map Byte.to_N value))).

(** ** The read loop: [readLoop] *)

(** The readable side of the port next to the world: whether [port.readable]
    is non-null, which reader holds the lock of the stream, and
    [readerRef]. *)
Record Reader := {
  rd_world : World;
  rd_readable : bool;
  rd_lock : option nat;
  rd_next : nat;
  readerRef : option nat
}.

(** How an awaited [read()] settles. *)
Inductive ReadResult :=
| ReadChunk (st : Stamp) (value : Uint8Array)
| ReadDone
| ReadThrows (st : Stamp) (message : jsstring).

(** Where the loop is after running up to its next suspension: awaiting a
    read, returned, or stuck in iterations whose [getReader] throws. *)
Inductive LoopStatus := Running | Returned | Spinning.

(** What the host supplies if [getReader] throws at the loop head. *)
Record HeadEnv := { head_stamp : Stamp; head_message : jsstring }.

Definition rd_with_world (f : World -> World) (r : Reader) : Reader :=
  {| rd_world := f (rd_world r); rd_readable := rd_readable r; rd_lock := rd_lock r;
     rd_next := rd_next r; readerRef := readerRef r |}.

(** [readerRef.current = port.readable.getReader()] on an unlocked stream. *)
Definition acquire_reader (r : Reader) : Reader :=
  {| rd_world := rd_world r; rd_readable := rd_readable r;
     rd_lock := Some (rd_next r); rd_next := S (rd_next r);
     readerRef := Some (rd_next r) |}.

(** The [finally] block: [if (readerRef.current) readerRef.current.releaseLock()]. *)
Definition release_reader (r : Reader) : Reader :=
  match readerRef r with
  | Some k =>
    if decide (rd_lock r = Some k)
    then {| rd_world := rd_world r; rd_readable := rd_readable r; rd_lock := None;
            rd_next := rd_next r; readerRef := readerRef r |}
    else r
  | None => r
  end.

Definition msg_read_error (m : jsstring) : jsstring := lit "读取错误: " ++ m.

(** The [catch] block: the error is logged unless the stop flag was raised. *)
Definition catch_read (st : Stamp) (m : jsstring) (r : Reader) : Reader :=
  if keepReadingRef (rd_world r)
  then rd_with_world (with_state (addLog st error (msg_read_error m) None)) r
  else r.

(** From the test of the [while] to the next [await]: the loop returns, or
    gets a reader and awaits a read.  If the stream is locked, [getReader]
    throws, the error is logged and the [finally] block releases the reader
    in [readerRef]; the next iteration follows at once, and succeeds if that
    freed the stream.  If it did not, every further iteration throws in the
    same way. *)
Definition loop_head (env : HeadEnv) (r : Reader) : Reader * LoopStatus :=
  if rd_readable r && keepReadingRef (rd_world r) then
    match rd_lock r with
    | None => (acquire_reader r, Running)
    | Some _ =>
      let r1 := release_reader (catch_read (head_stamp env) (head_message env) r) in
      match rd_lock r1 with
      | None => (acquire_reader r1, Running)
      | Some _ => (r1, Spinning)
      end
    end
  else (r, Returned).

(** [readLoop(port)] up to its first suspension. *)
Definition readLoop_start (env : HeadEnv) (r : Reader) : Reader * LoopStatus :=
  loop_head env (rd_with_world (set_keepReading true) r).

(** The loop from the moment the awaited read settles to its next
    suspension. *)
Definition readLoop_resume (res : ReadResult) (env : HeadEnv) (r : Reader)
    : Reader * LoopStatus :=
  match res with
  | ReadChunk st value =>
    (rd_with_world (with_state (addLog st rx (TextDecoder_decode value) (Some value))) r,
     Running)
  | ReadDone => loop_head env (release_reader r)
  | ReadThrows st m => loop_head env (release_reader (catch_read st m r))
  end.

(** A loop that is awaiting its read is fed a series of chunks. *)
Definition read_chunks (chunks : list (Stamp * Uint8Array)) (env : HeadEnv) (r : Reader)
    : Reader :=
  fold_left (fun acc c => fst (readLoop_resume (ReadChunk (fst c) (snd c)) env acc))
            chunks r.

Definition chunk_append (c : Stamp * Uint8Array) : Append :=
  {| a_stamp := fst c; a_type := rx; a_data := TextDecoder_decode (snd c);
     a_raw := Some (snd c) |}.

(** The reader side of a freshly opened port whose loop awaits its first
    read. *)
Definition readingWorld : Reader :=
  fst (readLoop_start {| head_stamp := stamp0; head_message := [] |}
         {| rd_world := openWorld; rd_readable := true; rd_lock := None;
            rd_next := 0%nat; readerRef := None |}).

Definition head_env0 : HeadEnv := {| head_stamp := stamp0; head_message := [] |}.

(** * Properties *)

(** ** The embedding on sample inputs *)

Example bufferToHex_sample :
  bufferToHex [x01; x03; x00; xab; xff] = lit "01 03 00 AB FF".
Proof. reflexivity. Qed.

Example parseHexString_sample :
  parseHexString (lit "01 03 00 00 00 01") = Some [x01; x03; x00; x00; x00; x01].
Proof. reflexivity. Qed.

Example parseHexString_odd : parseHexString (lit "0 1 2") = None.
Proof. reflexivity. Qed.

Example parseHexString_spaced_pair : parseHexString (lit "0 1") = Some [x01].
Proof. reflexivity. Qed.

Example parseHexString_ignores_other_text :
  parseHexString (lit "0x41, 0x54") = Some [x04; x10; x54].
Proof. reflexivity. Qed.

Example encode_sample :
  encode (lit "AT" ++ CRLF) = [x41; x54; x0d; x0a].
Proof. reflexivity. Qed.

Example encode_cjk : encode (lit "串口") = [xe4; xb8; xb2; xe5; x8f; xa3].
Proof. reflexivity. Qed.

(** ** Codec *)

(** [toString] never runs out of fuel: in any radix from 2 to 36 its digits
    read back, through [parseInt], as the number. *)
Lemma digit_value_char (d : N) : d < 36 -> digit_value (digit_char d) = Some d.
Proof.
  intros Hd. unfold digit_char, digit_value, in_range.
  destruct (N.ltb_spec d 10) as [H10|H10].
  - replace (48 <=? 48 + d) with true by (symmetry; apply N.leb_le; lia).
    replace (48 + d <=? 57) with true by (symmetry; apply N.leb_le; lia).
    cbn [andb]. f_equal. lia.
  - replace (87 + d <=? 57) with false by (symmetry; apply N.leb_gt; lia).
    rewrite andb_false_r.
    replace (97 <=? 87 + d) with true by (symmetry; apply N.leb_le; lia).
    replace (87 + d <=? 122) with true by (symmetry; apply N.leb_le; lia).
    cbn [andb]. f_equal. lia.
Qed.

Lemma parseInt_from_digits (radix : N) (ds : list N) (acc : option N) :
  radix <= 36 -> Forall (fun d => d < radix) ds ->
  parseInt_from radix (map digit_char ds) acc
  = match ds with
    | [] => acc
    | _ :: _ => Some (fold_left (fun a d => a * radix + d) ds (default 0 acc))
    end.
Proof.
  intros Hr Hds. revert acc. induction Hds as [|d ds Hd _ IH]; intros acc; [reflexivity|].
  cbn [map parseInt_from]. rewrite digit_value_char by lia.
  replace (d <? radix) with true by (symmetry; apply N.ltb_lt; exact Hd).
  rewrite IH. destruct ds; reflexivity.
Qed.

Lemma toString_digits_value (radix : N) (fuel : nat) (n : N) (acc : jsstring) :
  2 <= radix -> fuel <> 0%nat -> n < radix ^ N.of_nat fuel ->
  exists ds, toString_digits fuel radix n acc = map digit_char ds ++ acc
             /\ ds <> [] /\ Forall (fun d => d < radix) ds
             /\ fold_left (fun a d => a * radix + d) ds 0 = n.
Proof.
  intros Hr. revert n acc. induction fuel as [|fuel IH]; intros n acc Hf Hn; [congruence|].
  cbn [toString_digits]. destruct (N.eqb_spec (n / radix) 0) as [Hq|Hq].
  - exists [n mod radix]. repeat split.
    + discriminate.
    + constructor; [apply N.mod_lt; lia | constructor].
    + cbn. apply N.mod_small. apply N.div_small_iff in Hq; lia.
  - assert (Hfuel : fuel <> 0%nat).
    { intros ->. apply Hq. apply N.div_small. now rewrite N.pow_1_r in Hn. }
    assert (Hlt : n / radix < radix ^ N.of_nat fuel).
    { apply N.Div0.div_lt_upper_bound.
      rewrite Nat2N.inj_succ, N.pow_succ_r' in Hn. exact Hn. }
    destruct (IH (n / radix) (digit_char (n mod radix) :: acc) Hfuel Hlt)
      as (ds & E & _ & Hds & Hval).
    exists (ds ++ [n mod radix]). repeat split.
    + rewrite E, map_app, <- app_assoc. reflexivity.
    + destruct ds; discriminate.
    + apply Forall_app. split; [exact Hds|].
      constructor; [apply N.mod_lt; lia | constructor].
    + rewrite fold_left_app, Hval. cbn [fold_left].
      rewrite N.mul_comm. symmetry. apply N.div_mod. lia.
Qed.

Lemma parseInt_toString (n radix : N) :
  2 <= radix <= 36 -> parseInt (toString n radix) radix = Some n.
Proof.
  intros [Hlo Hhi]. unfold toString, parseInt.
  destruct (toString_digits_value radix (S (N.to_nat (N.log2 n))) n [] Hlo)
    as (ds & E & Hne & Hds & Hval); [discriminate| |].
  - rewrite Nat2N.inj_succ, N2Nat.id.
    apply N.lt_le_trans with (2 ^ N.succ (N.log2 n)).
    + destruct (N.eq_dec n 0) as [->|Hn0]; [reflexivity|].
      apply N.log2_spec. lia.
    + apply N.pow_le_mono_l. exact Hlo.
  - rewrite E, app_nil_r, parseInt_from_digits by assumption.
    destruct ds; [congruence|]. cbn [default]. now rewrite Hval.
Qed.

Lemma slice_last_length {A} (n : nat) (l : list A) :
  length (slice_last n l) = Nat.min (length l) n.
Proof. unfold slice_last. rewrite length_drop. lia. Qed.

Lemma slice_last_short {A} (n : nat) (l : list A) :
  (length l <= n)%nat -> slice_last n l = l.
Proof.
  intros H. unfold slice_last.
  replace (length l - n)%nat with 0%nat by lia. reflexivity.
Qed.

Lemma slice_last_app {A} (n : nat) (l k : list A) :
  (n <= length k)%nat -> slice_last n (l ++ k) = slice_last n k.
Proof.
  intros H. unfold slice_last. rewrite length_app.
  replace (length l + length k - n)%nat with (length l + (length k - n))%nat by lia.
  apply drop_app_add.
Qed.

Lemma byte_hex_checked (b : byte) : byte_hex_check b = true.
Proof. destruct b; vm_compute; reflexivity. Qed.

Lemma byte_hex_shape (b : byte) :
  exists hi lo, byte_hex b = [hi; lo]
    /\ is_hex_digit hi = true /\ is_hex_digit lo = true
    /\ ToUint8 (parseInt [hi; lo] 16) = b.
Proof.
  pose proof (byte_hex_checked b) as H. unfold byte_hex_check in H.
  destruct (byte_hex b) as [|hi [|lo [|? ?]]]; try discriminate.
  apply andb_prop in H as [H Hb]. apply andb_prop in H as [Hhi Hlo].
  apply Byte.byte_dec_bl in Hb. exists hi, lo. auto.
Qed.

Lemma clean_bufferToHex (bs : Uint8Array) :
  List.filter is_hex_digit (bufferToHex bs) = concat (map byte_hex bs).
Proof.
  unfold bufferToHex. induction bs as [|b bs IH]; [reflexivity|].
  destruct (byte_hex_shape b) as (hi & lo & E & Hhi & Hlo & _).
  cbn [map join concat]. destruct bs as [|b' bs].
  - cbn [map concat]. rewrite E, app_nil_r. cbn. rewrite Hhi, Hlo. reflexivity.
  - cbn [map] in IH |- *. rewrite !List.filter_app, IH, E. cbn. rewrite Hhi, Hlo.
    reflexivity.
Qed.

Lemma length_hex_digits (bs : Uint8Array) :
  length (concat (map byte_hex bs)) = (2 * length bs)%nat.
Proof.
  induction bs as [|b bs IH]; [reflexivity|].
  destruct (byte_hex_shape b) as (hi & lo & E & _).
  cbn [map concat]. rewrite length_app, IH, E. cbn. lia.
Qed.

Lemma substring_skip_pair (hi lo : N) (rest : jsstring) (k : nat) :
  substring (hi :: lo :: rest) (2 * S k) (2 * S k + 2) = substring rest (2 * k) (2 * k + 2).
Proof.
  unfold substring.
  rewrite !Nat.min_l, !Nat.max_r by lia.
  replace (2 * S k)%nat with (S (S (2 * k))) by lia. cbn [drop skipn].
  f_equal; lia.
Qed.

Lemma decode_loop (bs : Uint8Array) :
  map (fun k => ToUint8 (parseInt (substring (concat (map byte_hex bs)) (2 * k) (2 * k + 2)) 16))
      (seq 0 (length bs)) = bs.
Proof.
  induction bs as [|b bs IH]; [reflexivity|].
  destruct (byte_hex_shape b) as (hi & lo & E & _ & _ & Hb).
  cbn [map concat length seq]. rewrite E. cbn [app].
  f_equal.
  - exact Hb.
  - rewrite <- seq_shift, map_map. rewrite <- IH at 2.
    apply map_ext. intros k. now rewrite substring_skip_pair.
Qed.

Lemma parseHexString_bufferToHex (b : Uint8Array) :
  b <> [] -> parseHexString (bufferToHex b) = Some b.
Proof.
  intros Hne. unfold parseHexString. cbv zeta.
  rewrite clean_bufferToHex, length_hex_digits.
  destruct b as [|x b]; [congruence|].
  replace (2 * length (x :: b) / 2)%nat with (length (x :: b))
    by (symmetry; rewrite Nat.mul_comm; apply Nat.div_mul; lia).
  replace (2 * length (x :: b) mod 2)%nat with 0%nat
    by (symmetry; rewrite Nat.mul_comm; apply Nat.Div0.mod_mul).
  replace ((2 * length (x :: b) =? 0)%nat) with false
    by (symmetry; apply Nat.eqb_neq; cbn [length]; lia).
  cbn [Nat.eqb negb orb].
  f_equal. apply decode_loop.
Qed.

(** C2 (as stated, for every byte sequence): fails on the empty sequence,
    whose rendering is the empty text and is rejected. *)
Lemma parseHexString_bufferToHex_empty :
  parseHexString (bufferToHex []) <> Some [].
Proof. vm_compute. discriminate. Qed.

(** C2 (amended): for every non-empty byte sequence [b], [bufferToHex b] is
    the two uppercase hexadecimal digits of each byte separated by single
    spaces, and [parseHexString] recovers [b] from it; the empty sequence
    renders as the empty text, which [parseHexString] rejects. *)
Theorem hex_roundtrip_nonempty (b : Uint8Array) :
  b <> [] ->
  parseHexString (bufferToHex b) = Some b
  /\ bufferToHex b = join [32] (map byte_hex b)
  /\ Forall (fun h => exists hi lo, h = [hi; lo]
                /\ (in_range 48 57 hi || in_range 65 70 hi = true)
                /\ (in_range 48 57 lo || in_range 65 70 lo = true)) (map byte_hex b)
  /\ parseHexString (bufferToHex []) = None.
Proof.
  intros Hne. split; [now apply parseHexString_bufferToHex|].
  split; [reflexivity|]. split; [|reflexivity].
  apply Forall_forall. intros h Hin. apply list_elem_of_In in Hin.
  apply in_map_iff in Hin as (x & <- & _).
  destruct x; vm_compute; eexists _, _; repeat split; reflexivity.
Qed.

Lemma hex_roundtrip_nonempty_witness :
  [x01; xab] <> [] /\ parseHexString (bufferToHex [x01; xab]) = Some [x01; xab].
Proof.
  split; [discriminate|].
  apply (hex_roundtrip_nonempty [x01; xab]). discriminate.
Defined.

(** ** Transcript log *)

Lemma logs_append (a : Append) (s : SerialState) :
  logs (append a s) = slice_last 2000 (logs s) ++ [entry_of a].
Proof. reflexivity. Qed.

Lemma rxCount_append (a : Append) (s : SerialState) :
  rxCount (append a s)
  = if decide (a_type a = rx) then rxCount s + counted_length (a_data a) (a_raw a)
    else rxCount s.
Proof. reflexivity. Qed.

Lemma txCount_append (a : Append) (s : SerialState) :
  txCount (append a s)
  = if decide (a_type a = tx) then txCount s + counted_length (a_data a) (a_raw a)
    else txCount s.
Proof. reflexivity. Qed.

Lemma appends_cons (a : Append) (l : list Append) (s : SerialState) :
  appends (a :: l) s = appends l (append a s).
Proof. reflexivity. Qed.

Lemma appends_snoc (l : list Append) (a : Append) (s : SerialState) :
  appends (l ++ [a]) s = append a (appends l s).
Proof. unfold appends. now rewrite fold_left_app. Qed.

Lemma length_logs_append (a : Append) (s : SerialState) :
  length (logs (append a s)) = S (Nat.min (length (logs s)) 2000).
Proof. rewrite logs_append, length_app, slice_last_length. cbn. lia. Qed.

(** After at least one append the log holds [min (old + new) 2001] entries:
    the slice keeps 2000 old entries and the new one is put behind them. *)
Lemma length_logs_appends (a : Append) (l : list Append) (s : SerialState) :
  length (logs (appends (a :: l) s))
  = Nat.min (length (logs s) + S (length l)) 2001.
Proof.
  revert a s. induction l as [|b l IH]; intros a s.
  - cbn [appends fold_left]. rewrite length_logs_append. cbn [length]. lia.
  - rewrite appends_cons, IH, length_logs_append. cbn [length]. lia.
Qed.

Lemma slice_last_drop_app {A} (n k : nat) (l m : list A) :
  (n <= length (drop k l ++ m))%nat ->
  slice_last n (drop k l ++ m) = slice_last n (l ++ m).
Proof.
  intros H. rewrite <- (take_drop k l) at 2. rewrite <- app_assoc.
  symmetry. now apply slice_last_app.
Qed.

(** The entries kept are the most recent 2001 of everything appended. *)
Lemma logs_appends (l : list Append) (s : SerialState) :
  (length (logs s) <= 2001)%nat ->
  logs (appends l s) = slice_last 2001 (logs s ++ map entry_of l).
Proof.
  revert s. induction l as [|a l IH]; intros s Hs.
  - cbn. rewrite app_nil_r. symmetry. now apply slice_last_short.
  - rewrite appends_cons, IH by (rewrite length_logs_append; lia).
    rewrite logs_append. cbn [map]. rewrite <- app_assoc. cbn [app].
    destruct (Nat.le_gt_cases (length (logs s)) 2000) as [Hle|Hgt].
    + rewrite (slice_last_short 2000 (logs s)) by exact Hle. reflexivity.
    + unfold slice_last at 2. apply slice_last_drop_app.
      rewrite length_app, length_drop. cbn [length]. lia.
Qed.

Lemma logs_appends_fresh (l : list Append) :
  logs (appends l initialState) = slice_last 2001 (map entry_of l).
Proof. rewrite logs_appends; [reflexivity|]. apply Nat.le_0_l. Qed.

(** C1: 2001 appends to the empty log leave 2001 entries in it, one more than
    the retention limit: [addLog] cuts the old log to 2000 entries and then
    adds the new one. *)
Theorem addLog_keeps_2001_entries :
  length (logs (appends (repeat sample_append 2001) initialState)) = 2001%nat
  /\ logs (appends (repeat sample_append 2001) initialState)
     = map entry_of (repeat sample_append 2001).
Proof.
  assert (E : logs (appends (repeat sample_append 2001) initialState)
              = map entry_of (repeat sample_append 2001)).
  { rewrite logs_appends_fresh. apply slice_last_short.
    rewrite length_map, repeat_length. apply Nat.le_refl. }
  split; [|exact E].
  rewrite E, length_map. apply repeat_length.
Qed.

Lemma raw_total_cons (k : LogType) (a : Append) (l : list Append) :
  raw_total k (a :: l)
  = (if decide (a_type a = k) then raw_length a else 0) + raw_total k l.
Proof.
  unfold raw_total. cbn [List.filter].
  destruct (decide (a_type a = k)) as [E|E].
  - rewrite bool_decide_eq_true_2 by exact E. reflexivity.
  - rewrite bool_decide_eq_false_2 by exact E. reflexivity.
Qed.

Lemma counted_length_raw (a : Append) :
  a_raw a <> None -> counted_length (a_data a) (a_raw a) = raw_length a.
Proof. unfold raw_length. destruct (a_raw a); [reflexivity|congruence]. Qed.

Lemma rxCount_append_le (a : Append) (s : SerialState) :
  rxCount s <= rxCount (append a s).
Proof. rewrite rxCount_append. destruct (decide _); lia. Qed.

Lemma txCount_append_le (a : Append) (s : SerialState) :
  txCount s <= txCount (append a s).
Proof. rewrite txCount_append. destruct (decide _); lia. Qed.

Lemma counters_appends_le (l : list Append) (s : SerialState) :
  rxCount s <= rxCount (appends l s) /\ txCount s <= txCount (appends l s).
Proof.
  revert s. induction l as [|a l IH]; intros s; [cbn; lia|].
  rewrite appends_cons. destruct (IH (append a s)) as [Hr Ht].
  pose proof (rxCount_append_le a s). pose proof (txCount_append_le a s). lia.
Qed.

(** C5: over any run of appends in which the received and transmitted ones
    carry their raw bytes, the received total grows by the sum of the raw
    byte lengths of the received appends and the transmitted total by that of
    the transmitted appends; an append of another kind leaves a counter as it
    is, and no append makes a counter smaller. *)
Theorem counters_sum_raw_lengths (l : list Append) (s : SerialState) :
  Forall (fun a => a_type a = rx \/ a_type a = tx -> a_raw a <> None) l ->
  rxCount (appends l s) = rxCount s + raw_total rx l
  /\ txCount (appends l s) = txCount s + raw_total tx l
  /\ (forall a s', a_type a <> rx -> rxCount (append a s') = rxCount s')
  /\ (forall a s', a_type a <> tx -> txCount (append a s') = txCount s')
  /\ (forall a s', rxCount s' <= rxCount (append a s')
                   /\ txCount s' <= txCount (append a s'))
  /\ rxCount s <= rxCount (appends l s) /\ txCount s <= txCount (appends l s).
Proof.
  intros Hraw.
  assert (Hsum : rxCount (appends l s) = rxCount s + raw_total rx l
                 /\ txCount (appends l s) = txCount s + raw_total tx l).
  { revert s. induction Hraw as [|a l Ha _ IH]; intros s.
    - cbn. unfold raw_total. cbn. lia.
    - rewrite appends_cons. destruct (IH (append a s)) as [-> ->].
      rewrite !raw_total_cons, rxCount_append, txCount_append.
      destruct (decide (a_type a = rx)) as [Er|Er];
        destruct (decide (a_type a = tx)) as [Et|Et];
        try rewrite counted_length_raw by auto; try congruence; lia. }
  destruct Hsum as [Hr Ht]. repeat split; try assumption.
  - intros a s' Hk. rewrite rxCount_append. now destruct (decide _).
  - intros a s' Hk. rewrite txCount_append. now destruct (decide _).
  - apply rxCount_append_le.
  - apply txCount_append_le.
  - apply counters_appends_le.
  - apply counters_appends_le.
Qed.

Lemma counters_sum_raw_lengths_witness :
  let st := {| random_id := lit "a"; now := 1 |} in
  let l := [ {| a_stamp := st; a_type := rx; a_data := lit "OK"; a_raw := Some [x4f; x4b] |};
             {| a_stamp := st; a_type := info; a_data := lit "note"; a_raw := None |};
             {| a_stamp := st; a_type := tx; a_data := lit "AT"; a_raw := Some [x41; x54; x0d] |} ] in
  rxCount (appends l initialState) = 2 /\ txCount (appends l initialState) = 3.
Proof.
  intros st l.
  assert (H : Forall (fun a => a_type a = rx \/ a_type a = tx -> a_raw a <> None) l).
  { repeat constructor; cbn; intros [?|?]; congruence. }
  destruct (counters_sum_raw_lengths l initialState H) as (Hr & Ht & _).
  split; [rewrite Hr | rewrite Ht]; reflexivity.
Defined.

(** ** Write path *)


Lemma state_release_ref (w : World) : state (release_ref w) = state w.
Proof. unfold release_ref. now destruct (writerRef w). Qed.

Lemma wire_releaseLock (wr : nat) (p : PortObject) : wire (releaseLock wr p) = wire p.
Proof. unfold releaseLock. now destruct (decide _). Qed.

Lemma releaseLock_own (wr : nat) (p : PortObject) :
  writer_lock p = Some wr -> writer_lock (releaseLock wr p) = None.
Proof. intros H. unfold releaseLock. now rewrite decide_True by exact H. Qed.

Lemma releaseLock_free (wr : nat) (p : PortObject) :
  writer_lock p = None -> writer_lock (releaseLock wr p) = None.
Proof.
  intros H. unfold releaseLock. rewrite decide_False by congruence. exact H.
Qed.

Lemma wire_release_ref (w : World) : wire (dev (release_ref w)) = wire (dev w).
Proof.
  unfold release_ref. destruct (writerRef w); [|reflexivity].
  cbn. apply wire_releaseLock.
Qed.

Lemma timer_release_ref (w : World) :
  autoSendTimerRef (release_ref w) = autoSendTimerRef w
  /\ intervals (release_ref w) = intervals w
  /\ inputBuffer (release_ref w) = inputBuffer w
  /\ next_interval (release_ref w) = next_interval w.
Proof. unfold release_ref. now destruct (writerRef w). Qed.

Lemma is_hex_digit_spec (c : N) :
  is_hex_digit c = true
  <-> (48 <= c <= 57) \/ (65 <= c <= 70) \/ (97 <= c <= 102).
Proof.
  unfold is_hex_digit, in_range.
  rewrite !orb_true_iff, !andb_true_iff, !N.leb_le. tauto.
Qed.

Lemma parseHexString_None (str : jsstring) :
  parseHexString str = None
  <-> length (List.filter is_hex_digit str) = 0%nat
      \/ Nat.Odd (length (List.filter is_hex_digit str)).
Proof.
  unfold parseHexString. cbv zeta.
  set (n := length (List.filter is_hex_digit str)).
  destruct (Nat.eqb_spec n 0) as [E0|E0]; cbn [orb].
  - split; auto.
  - destruct (Nat.eqb_spec (n mod 2) 0) as [E2|E2]; cbn [negb].
    + split; [discriminate|]. intros [H|H]; [contradiction|].
      apply Nat.Odd_div2 in H as Hd. exfalso.
      destruct H as [k Hk]. rewrite Hk in E2.
      rewrite Nat.add_comm, Nat.mul_comm, Nat.Div0.mod_add in E2. discriminate.
    + split; [|reflexivity]. intros _. right.
      destruct (Nat.Even_or_Odd n) as [[k Hk]|H]; [|exact H].
      exfalso. apply E2. rewrite Hk, Nat.mul_comm. apply Nat.Div0.mod_mul.
Qed.

Lemma parseHexString_clean (str : jsstring) :
  parseHexString (List.filter is_hex_digit str) = parseHexString str.
Proof.
  unfold parseHexString. cbv zeta.
  assert (E : List.filter is_hex_digit (List.filter is_hex_digit str)
              = List.filter is_hex_digit str).
  { induction str as [|c str IH]; [reflexivity|]. cbn [List.filter].
    destruct (is_hex_digit c) eqn:Hc; [|exact IH].
    cbn [List.filter]. now rewrite Hc, IH. }
  now rewrite E.
Qed.

(** C3: [parseHexString] works on the text with every character outside
    0-9, A-F, a-f removed, and rejects it exactly when no digit or an odd number
    of digits is left.  A hex-mode send of a rejected text appends one error
    entry and nothing else: no chunk reaches the port and the transmitted
    total stays; when the port was open and its stream free, the entry is the
    format error and the stream is free again afterwards. *)
Theorem hex_format_error_aborts_send (str : jsstring) :
  (forall c, In c (List.filter is_hex_digit str)
             <-> In c str /\ ((48 <= c <= 57) \/ (65 <= c <= 70) \/ (97 <= c <= 102)))
  /\ parseHexString str = parseHexString (List.filter is_hex_digit str)
  /\ (parseHexString str = None
      <-> length (List.filter is_hex_digit str) = 0%nat
          \/ Nat.Odd (length (List.filter is_hex_digit str)))
  /\ (forall cl hexInput env w,
        default (isHex (sendConfig cl)) hexInput = true ->
        parseHexString str = None ->
        let w' := sendData cl (Text str) hexInput env w in
        exists e,
          logs (state w') = slice_last 2000 (logs (state w)) ++ [e]
          /\ type e = error
          /\ wire (dev w') = wire (dev w)
          /\ txCount (state w') = txCount (state w)
          /\ (port cl <> None -> writable (dev w) = true -> writer_lock (dev w) = None ->
              data e = msg_hex_format /\ writer_lock (dev w') = None)).
Proof.
  split; [|split; [|split]].
  - intros c. rewrite List.filter_In, is_hex_digit_spec. tauto.
  - symmetry. apply parseHexString_clean.
  - apply parseHexString_None.
  - intros cl hexInput env w Hhex Hnone w'. subst w'. unfold sendData.
    rewrite Hhex. destruct (port cl) as [p|].
    2:{ exists (newEntry (stamp env) error msg_not_connected None).
        repeat split; try reflexivity; congruence. }
    destruct (writable (dev w)) eqn:Hw; cbn [negb].
    2:{ exists (newEntry (stamp env) error msg_not_connected None).
        repeat split; try reflexivity; congruence. }
    destruct (writer_lock (dev w)) as [holder|] eqn:Hl.
    { exists (newEntry (stamp env) error (msg_send_error (lock_error env)) None).
      rewrite state_release_ref, wire_release_ref.
      repeat split; try reflexivity; congruence. }
    unfold prepare. rewrite Hnone.
    exists (newEntry (stamp env) error msg_hex_format None).
    rewrite state_release_ref, wire_release_ref.
    world_simpl. rewrite wire_releaseLock. world_simpl.
    repeat split; try reflexivity.
    unfold release_ref. world_simpl.
    apply releaseLock_free, releaseLock_own. reflexivity.
Qed.

Lemma hex_format_error_aborts_send_witness :
  parseHexString (lit "0 1 2") = None
  /\ let w' := sendData (state openWorld) (Text (lit "0 1 2")) (Some true) send_ok openWorld in
     exists e,
       logs (state w') = slice_last 2000 (logs (state openWorld)) ++ [e]
       /\ type e = error
       /\ wire (dev w') = wire (dev openWorld)
       /\ txCount (state w') = txCount (state openWorld)
       /\ (port (state openWorld) <> None -> writable (dev openWorld) = true ->
           writer_lock (dev openWorld) = None ->
           data e = msg_hex_format /\ writer_lock (dev w') = None).
Proof.
  split; [reflexivity|].
  apply (proj2 (proj2 (proj2 (hex_format_error_aborts_send (lit "0 1 2"))))
           (state openWorld) (Some true) send_ok openWorld); reflexivity.
Defined.




Lemma endsWith_rev_spec (rsuffix rs : jsstring) :
  endsWith_rev rs rsuffix = true <-> exists q, rs = rsuffix ++ q.
Proof.
  revert rs. induction rsuffix as [|c rsuffix IH]; intros rs.
  - destruct rs; cbn; (split; [intros _; eexists; reflexivity | reflexivity]).
  - destruct rs as [|d rs]; cbn [endsWith_rev].
    + split; [discriminate|]. intros [q Hq]. discriminate Hq.
    + rewrite andb_true_iff, N.eqb_eq, IH. split.
      * intros [-> [q ->]]. now exists q.
      * intros [q Hq]. injection Hq as -> ->. eauto.
Qed.

Lemma endsWith_spec (s suffix : jsstring) :
  endsWith s suffix = true <-> exists p, s = p ++ suffix.
Proof.
  unfold endsWith. rewrite endsWith_rev_spec. split.
  - intros [q Hq]. exists (rev q).
    rewrite <- (rev_involutive s), Hq, rev_app_distr, rev_involutive. reflexivity.
  - intros [p ->]. exists (rev p). apply rev_app_distr.
Qed.

(** A text-mode send on an open port whose stream is free and whose write
    succeeds. *)
Lemma sendData_text_ok (cl : SerialState) (s : jsstring) (hexInput : option bool)
    (env : SendEnv) (w : World) :
  port cl <> None -> writable (dev w) = true -> writer_lock (dev w) = None ->
  write_error env = None -> default (isHex (sendConfig cl)) hexInput = false ->
  let sent := textToSend cl s in
  let w' := sendData cl (Text s) hexInput env w in
  wire (dev w') = wire (dev w) ++ [encode sent]
  /\ state w' = addLog (stamp env) tx sent (Some (encode sent)) (state w)
  /\ writer_lock (dev w') = None.
Proof.
  intros Hp Hw Hl He Hh sent w'. subst sent w'. unfold sendData.
  destruct (port cl) as [p|]; [|congruence].
  rewrite Hw, Hl, Hh, He. cbn [negb prepare].
  rewrite wire_release_ref, state_release_ref. world_simpl.
  repeat split. unfold release_ref. world_simpl.
  apply releaseLock_own. reflexivity.
Qed.

(** C7: in a text-mode send that goes through, the text encoded is the input
    followed by CR LF when the option is on and the input does not end in
    CR LF, and the input itself otherwise; it is written as one chunk, logged
    as one transmitted entry, and the transmitted total grows by the number
    of bytes.  For "AT" CR LF with the option off that is one entry and four
    bytes, also when it is the first send of a freshly opened session. *)
Theorem text_send_appends_terminator (cl : SerialState) (s : jsstring)
    (hexInput : option bool) (env : SendEnv) (w : World) :
  port cl <> None -> writable (dev w) = true -> writer_lock (dev w) = None ->
  write_error env = None -> default (isHex (sendConfig cl)) hexInput = false ->
  let sent := if addCRLF (sendConfig cl) && negb (endsWith s CRLF)
              then s ++ CRLF else s in
  let w' := sendData cl (Text s) hexInput env w in
  (endsWith s CRLF = true <-> exists p, s = p ++ CRLF)
  /\ wire (dev w') = wire (dev w) ++ [encode sent]
  /\ logs (state w')
     = slice_last 2000 (logs (state w))
       ++ [newEntry (stamp env) tx sent (Some (encode sent))]
  /\ txCount (state w') = txCount (state w) + N.of_nat (length (encode sent))
  /\ rxCount (state w') = rxCount (state w)
  /\ (s = lit "AT" ++ CRLF -> addCRLF (sendConfig cl) = false ->
      wire (dev w') = wire (dev w) ++ [[x41; x54; x0d; x0a]]
      /\ txCount (state w') = txCount (state w) + 4
      /\ exists e, logs (state w') = slice_last 2000 (logs (state w)) ++ [e]
                   /\ type e = tx /\ data e = lit "AT" ++ CRLF
                   /\ hex e = lit "41 54 0D 0A")
  /\ (let fresh := run [ClickConnect connect_ok; EditInput (lit "AT" ++ CRLF);
                        SendInput send_ok] initialWorld in
      txCount (state fresh) = 4
      /\ wire (dev fresh) = [[x41; x54; x0d; x0a]]
      /\ length (List.filter (fun e => bool_decide (type e = tx)) (logs (state fresh)))
         = 1%nat).
Proof.
  intros Hp Hw Hl He Hh sent w'.
  destruct (sendData_text_ok cl s hexInput env w Hp Hw Hl He Hh) as (Hwire & Hst & _).
  fold w' in Hwire, Hst. change (textToSend cl s) with sent in Hwire, Hst.
  split; [apply endsWith_spec|].
  split; [exact Hwire|].
  rewrite Hst. split; [reflexivity|]. split; [reflexivity|]. split; [reflexivity|].
  split.
  - intros -> Hoff. subst sent. rewrite Hoff in *. cbn [andb] in *.
    rewrite Hwire. split; [reflexivity|]. split; [reflexivity|].
    eexists. split; [reflexivity|]. repeat split.
  - vm_compute. repeat split.
Qed.

Lemma text_send_appends_terminator_witness :
  let w' := sendData (state openWorld) (Text (lit "AT")) None send_ok openWorld in
  wire (dev w') = wire (dev openWorld) ++ [encode (lit "AT")].
Proof.
  intros w'.
  apply (text_send_appends_terminator (state openWorld) (lit "AT") None send_ok openWorld);
    [discriminate | reflexivity | reflexivity | reflexivity | reflexivity].
Defined.

(** C9: on an open port, an empty text with hex mode and the terminator
    option off is sent like any other: one chunk of zero bytes is written, one
    transmitted entry with empty text (and empty hex view) is appended, and
    the transmitted total does not move. *)
Theorem empty_text_send_goes_through (cl : SerialState) (hexInput : option bool)
    (env : SendEnv) (w : World) :
  port cl <> None -> writable (dev w) = true -> writer_lock (dev w) = None ->
  write_error env = None -> default (isHex (sendConfig cl)) hexInput = false ->
  addCRLF (sendConfig cl) = false ->
  let w' := sendData cl (Text []) hexInput env w in
  wire (dev w') = wire (dev w) ++ [[]]
  /\ concat (wire (dev w')) = concat (wire (dev w))
  /\ logs (state w')
     = slice_last 2000 (logs (state w)) ++ [newEntry (stamp env) tx [] (Some [])]
  /\ type (newEntry (stamp env) tx [] (Some [])) = tx
  /\ data (newEntry (stamp env) tx [] (Some [])) = []
  /\ hex (newEntry (stamp env) tx [] (Some [])) = []
  /\ txCount (state w') = txCount (state w).
Proof.
  intros Hp Hw Hl He Hh Hoff w'.
  destruct (sendData_text_ok cl [] hexInput env w Hp Hw Hl He Hh) as (Hwire & Hst & _).
  fold w' in Hwire, Hst. unfold textToSend in Hwire, Hst.
  rewrite Hoff in Hwire, Hst. cbn [andb encode] in Hwire, Hst.
  rewrite Hwire, Hst. split; [reflexivity|].
  split; [rewrite concat_app; cbn; now rewrite app_nil_r|].
  split; [reflexivity|]. split; [reflexivity|]. split; [reflexivity|].
  split; [reflexivity|]. world_simpl. rewrite decide_True by reflexivity.
  unfold counted_length. cbn [length N.of_nat]. apply N.add_0_r.
Qed.

Lemma empty_text_send_goes_through_witness :
  let w' := sendData (state openWorld) (Text []) None send_ok openWorld in
  length (wire (dev w')) = 1%nat /\ txCount (state w') = 0.
Proof.
  intros w'.
  destruct (empty_text_send_goes_through (state openWorld) None send_ok openWorld)
    as (Hwire & _ & _ & _ & _ & _ & Htx);
    [discriminate | reflexivity | reflexivity | reflexivity | reflexivity | reflexivity |].
  fold w' in Hwire, Htx. rewrite Hwire, Htx. split; reflexivity.
Defined.

(** ** Control signals *)




(** ** Analysis request *)

Lemma occurs_In (needle hay : jsstring) (c : N) :
  occurs needle hay -> In c needle -> In c hay.
Proof.
  intros (pre & post & ->) Hin. apply in_or_app. right. apply in_or_app. now left.
Qed.

Lemma slice_last_suffix {A} (n : nat) (l : list A) :
  exists dropped, l = dropped ++ slice_last n l.
Proof.
  exists (take (length l - n) l). unfold slice_last. symmetry. apply take_drop.
Qed.

Lemma analyzeLogs_request_prompt (text : jsstring) (cfg : AIConfig) (p : jsstring) :
  analyzeLogs_request text cfg = Some p -> p = analyzeLogs_prompt text.
Proof.
  unfold analyzeLogs_request.
  destruct (provider cfg); repeat (destruct (bool_decide _)); congruence.
Qed.

Lemma escape_one_pass (s : jsstring) :
  replace_all LF (lit "\n") (replace_all CR (lit "\r") s)
  = flat_map (fun c => if c =? 13 then [92; 114] else if c =? 10 then [92; 110] else [c]) s.
Proof.
  change (lit "\n") with [92; 110]. change (lit "\r") with [92; 114].
  change CR with 13. change LF with 10.
  unfold replace_all. induction s as [|c s IH]; [reflexivity|].
  cbn [flat_map]. rewrite flat_map_app, IH. f_equal.
  destruct (N.eqb_spec c 13) as [->|Hc]; [reflexivity|].
  cbn [flat_map]. now rewrite app_nil_r.
Qed.

(** C10: the prompt of a request made by [handleAiAnalysis] carries the
    lines "<KIND>: <content>" of the last 100 entries joined by newlines, cut
    down to their last 5000 characters.  <KIND> is RX, TX, INFO or ERROR
    according to the entry's type; <content> is the entry's hex rendering in
    hex mode and, in text mode, its text with every carriage return written
    as backslash-r and every line feed as backslash-n.  The cut keeps a suffix
    of at most 5000 characters, and there is a transcript of two entries
    whose first line is absent from the request. *)
Theorem analysis_request_keeps_last_5000_chars :
  (forall st p,
      handleAiAnalysis_request st = Some p ->
      p = prompt_head
          ++ slice_last 5000
               (join [LF] (map (entry_line (isHexMode st)) (slice_last 100 (logs st))))
          ++ prompt_tail)
  /\ (forall l, entry_line true l = toUpperCase (LogType_name (type l)) ++ lit ": " ++ hex l)
  /\ (forall l,
        entry_line false l
        = toUpperCase (LogType_name (type l)) ++ [58; 32]
          ++ flat_map (fun c => if c =? 13 then [92; 114]
                                else if c =? 10 then [92; 110] else [c])
                      (data l))
  /\ (forall k, toUpperCase (LogType_name k)
                = match k with
                  | rx => [82; 88]
                  | tx => [84; 88]
                  | info => [73; 78; 70; 79]
                  | error => [69; 82; 82; 79; 82]
                  end)
  /\ (forall k, In (toUpperCase (LogType_name k))
                   [lit "RX"; lit "TX"; lit "INFO"; lit "ERROR"])
  /\ (forall text : jsstring,
        length (prompt_logs text) = Nat.min (length text) 5000
        /\ exists dropped, text = dropped ++ prompt_logs text)
  /\ (length (logs long_transcript) <= 100)%nat
  /\ (5000 < length (combinedLogs long_transcript))%nat
  /\ exists p e,
       handleAiAnalysis_request long_transcript = Some p
       /\ In e (logs long_transcript)
       /\ ~ occurs (entry_line (isHexMode long_transcript) e) p.
Proof.
  split; [|split; [|split; [|split; [|split; [|split; [|split; [|split]]]]]]].
  - intros st p. unfold handleAiAnalysis_request.
    destruct (bool_decide (apiKey (aiConfig st) = [])); [discriminate|].
    destruct (bool_decide (logs st = [])); [discriminate|].
    intros H. apply analyzeLogs_request_prompt in H. rewrite H. reflexivity.
  - reflexivity.
  - intros l. unfold entry_line. now rewrite escape_one_pass.
  - intros []; reflexivity.
  - intros []; vm_compute; tauto.
  - intros text. split; [apply slice_last_length | apply slice_last_suffix].
  - vm_compute. lia.
  - vm_compute. lia.
  - destruct (handleAiAnalysis_request long_transcript) as [p|] eqn:E;
      [|vm_compute in E; discriminate].
    exists p, (newEntry stamp0 rx (lit "Z") (Some [x5a])).
    split; [reflexivity|]. split; [left; reflexivity|].
    intros Hocc. apply (occurs_In _ _ 90) in Hocc.
    2:{ vm_compute. tauto. }
    assert (Hfree : forallb (fun c => negb (c =? 90)) p = true).
    { assert (Ep : forallb (fun c => negb (c =? 90))
                     (default [] (handleAiAnalysis_request long_transcript)) = true)
        by (vm_compute; reflexivity).
      rewrite E in Ep. exact Ep. }
    rewrite forallb_forall in Hfree. specialize (Hfree 90 Hocc).
    discriminate Hfree.
Qed.

Lemma analysis_request_keeps_last_5000_chars_witness :
  exists p, handleAiAnalysis_request long_transcript = Some p
            /\ p = prompt_head
                   ++ slice_last 5000
                        (join [LF] (map (entry_line (isHexMode long_transcript))
                                        (slice_last 100 (logs long_transcript))))
                   ++ prompt_tail.
Proof.
  destruct (handleAiAnalysis_request long_transcript) as [p|] eqn:E;
    [|vm_compute in E; discriminate].
  exists p. split; [reflexivity|].
  apply (proj1 analysis_request_keeps_last_5000_chars long_transcript p E).
Defined.

(** ** Auto-send timer *)

Lemma frame_refl (w : World) : frame w w.
Proof. repeat split. Qed.

Lemma frame_trans (w1 w2 w3 : World) : frame w1 w2 -> frame w2 w3 -> frame w1 w3.
Proof.
  unfold frame. intros (A1 & A2 & A3 & A4 & A5 & A6) (B1 & B2 & B3 & B4 & B5 & B6).
  repeat split; congruence.
Qed.

Lemma frame_addLog (st : Stamp) (ty : LogType) (dat : jsstring)
    (raw : option Uint8Array) (w : World) :
  frame w (with_state (addLog st ty dat raw) w).
Proof. repeat split. Qed.

Lemma frame_with_dev (f : PortObject -> PortObject) (w : World) : frame w (with_dev f w).
Proof. repeat split. Qed.

Lemma frame_set_writerRef (r : option nat) (w : World) : frame w (set_writerRef r w).
Proof. repeat split. Qed.

Lemma frame_release_ref (w : World) : frame w (release_ref w).
Proof. unfold release_ref. destruct (writerRef w); repeat split. Qed.

Lemma frame_sendData (cl : SerialState) (content : Content) (hexInput : option bool)
    (env : SendEnv) (w : World) :
  frame w (sendData cl content hexInput env w).
Proof.
  unfold sendData.
  destruct (port cl); [|apply frame_addLog].
  destruct (negb (writable (dev w))); [apply frame_addLog|].
  destruct (writer_lock (dev w)).
  { eapply frame_trans; [apply frame_addLog | apply frame_release_ref]. }
  assert (Hacq : frame w (set_writerRef (Some (next_writer (dev w)))
                            (with_dev (lock_for (next_writer (dev w))) w)))
    by (repeat split).
  destruct (prepare cl content _) as [[dataToSend displayLog]|].
  - destruct (write_error env);
      (eapply frame_trans; [|apply frame_release_ref]);
      (eapply frame_trans; [|apply frame_addLog]);
      [exact Hacq | eapply frame_trans; [exact Hacq | apply frame_with_dev]].
  - eapply frame_trans; [|apply frame_release_ref].
    eapply frame_trans; [|apply frame_with_dev].
    eapply frame_trans; [exact Hacq | apply frame_addLog].
Qed.

Lemma frame_tick (h : positive) (env : SendEnv) (w : World) : frame w (tick h env w).
Proof.
  unfold tick. destruct (intervals w !! h); [apply frame_sendData | apply frame_refl].
Qed.

Lemma frame_handleSignalChange (cl : SerialState) (s : Signal) (v : bool)
    (env : SignalEnv) (w : World) :
  frame w (handleSignalChange cl s v env w).
Proof.
  unfold handleSignalChange.
  destruct (port cl); [|apply frame_refl].
  destruct (negb (isConnected cl)); [apply frame_refl|].
  destruct (sig_error env); repeat split.
Qed.

Lemma consistent_frame (w w1 : World) :
  frame w w1 -> consistent (state w) -> consistent (state w1).
Proof.
  unfold frame, consistent. intros (_ & _ & _ & Hc & Hp & _). now rewrite Hc, Hp.
Qed.

Lemma timer_step_frame (w w1 : World) : frame w w1 -> timer_step w w1.
Proof. intros (H1 & H2 & _). left. split; assumption. Qed.

(** [handleConnect] leaves the timer alone and sets flag and port together. *)
Lemma handleConnect_effect (cl : SerialState) (env : ConnectEnv) (w : World) :
  let w1 := handleConnect cl env w in
  autoSendTimerRef w1 = autoSendTimerRef w
  /\ intervals w1 = intervals w
  /\ inputBuffer w1 = inputBuffer w
  /\ sendConfig (state w1) = sendConfig (state w)
  /\ (consistent (state w) -> consistent (state w1)).
Proof.
  intros w1. subst w1. unfold handleConnect.
  assert (Hlog : forall st ty dat raw,
             let w1 := with_state (addLog st ty dat raw) w in
             autoSendTimerRef w1 = autoSendTimerRef w
             /\ intervals w1 = intervals w
             /\ inputBuffer w1 = inputBuffer w
             /\ sendConfig (state w1) = sendConfig (state w)
             /\ (consistent (state w) -> consistent (state w1))).
  { intros st ty dat raw w1. do 4 (split; [reflexivity|]).
    apply consistent_frame, frame_addLog. }
  destruct (negb (serial_supported env)); [apply Hlog|].
  destruct (open_error env); [apply Hlog|].
  destruct (init_signals_error env); world_simpl;
    (do 4 (split; [reflexivity|]); intros _; unfold consistent; world_simpl;
     split; intros _; [discriminate | reflexivity]).
Qed.

Lemma frame_suspend (t : Task) (w : World) : frame w (suspend t w).
Proof. repeat split. Qed.

Lemma frame_take_up (k : nat) (w : World) : frame w (take_up k w).
Proof. repeat split. Qed.

Lemma frame_file_loaded (k : nat) (bytes : Uint8Array) (env : SendEnv) (w : World) :
  frame w (handle (FileLoaded k bytes env) w).
Proof.
  cbn [handle]. destruct (suspended w !! k) as [[cl|cl]|]; try apply frame_refl.
  eapply frame_trans; [apply frame_take_up | apply frame_sendData].
Qed.

(** The first part of [handleDisconnect] clears the interval of the ref,
    resets the ref and, if the ref was set, switches auto-repeat off; it
    leaves flag and port as they are. *)
Lemma handleDisconnect_begin_effect (w : World) :
  let w1 := handleDisconnect_begin w in
  timer_step w w1
  /\ autoSendTimerRef w1 = None
  /\ inputBuffer w1 = inputBuffer w
  /\ isConnected (state w1) = isConnected (state w)
  /\ port (state w1) = port (state w)
  /\ (autoRepeat (sendConfig (state w)) = false ->
      autoRepeat (sendConfig (state w1)) = false)
  /\ (autoSendTimerRef w <> None -> autoRepeat (sendConfig (state w1)) = false)
  /\ (autoSendTimerRef w = None -> state w1 = state w /\ intervals w1 = intervals w).
Proof.
  intros w1. subst w1. unfold handleDisconnect_begin. world_simpl.
  destruct (autoSendTimerRef w) as [h|] eqn:Eref; world_simpl.
  - split; [right; split; [reflexivity|]; exists h; now split|].
    repeat split; try reflexivity; intros; congruence.
  - split; [left; now split|].
    split; [exact Eref|]. repeat split; try reflexivity; intros; congruence.
Qed.

(** The second part leaves the timer alone and sets flag and port to
    closed. *)
Lemma handleDisconnect_resume_effect (cl : SerialState) (env : DisconnectEnv) (w : World) :
  let w1 := handleDisconnect_resume cl env w in
  autoSendTimerRef w1 = autoSendTimerRef w
  /\ intervals w1 = intervals w
  /\ inputBuffer w1 = inputBuffer w
  /\ sendConfig (state w1) = sendConfig (state w)
  /\ isConnected (state w1) = false
  /\ port (state w1) = None.
Proof.
  intros w1. subst w1. unfold handleDisconnect_resume.
  destruct (port cl); [destruct (close_ok env)|]; world_simpl; now repeat split.
Qed.

Lemma owned_no_ref (w : World) :
  timer_owned w -> autoSendTimerRef w = None -> forall h, intervals w !! h = None.
Proof.
  intros Ho Hr h. destruct (intervals w !! h) eqn:E; [|reflexivity].
  assert (Hs : is_Some (intervals w !! h)) by (rewrite E; eauto).
  apply Ho in Hs. congruence.
Qed.

Lemma owned_delete (w : World) (h : positive) :
  timer_owned w -> autoSendTimerRef w = Some h ->
  forall h', delete h (intervals w) !! h' = None.
Proof.
  intros Ho Hr h'. destruct (decide (h = h')) as [->|Hne].
  - apply lookup_delete_eq.
  - rewrite lookup_delete_ne by exact Hne.
    destruct (intervals w !! h') eqn:E; [|reflexivity].
    assert (Hs : is_Some (intervals w !! h')) by (rewrite E; eauto).
    apply Ho in Hs. congruence.
Qed.

Lemma timer_step_owned (w w1 : World) :
  timer_step w w1 -> timer_owned w -> timer_owned w1.
Proof.
  intros [[Hr Hi]|[Hr (h & Hh & Hi)]] Ho h' Hs.
  - rewrite Hr. apply Ho. now rewrite <- Hi.
  - rewrite Hi, (owned_delete w h Ho Hh) in Hs. now destruct Hs.
Qed.

Lemma timer_step_ref (w w1 : World) :
  timer_step w w1 ->
  autoSendTimerRef w1 = autoSendTimerRef w \/ autoSendTimerRef w1 = None.
Proof. intros [[Hr _]|[Hr _]]; auto. Qed.

Lemma timer_step_from (w0 w w1 : World) :
  autoSendTimerRef w0 = autoSendTimerRef w -> intervals w0 = intervals w ->
  timer_step w0 w1 -> timer_step w w1.
Proof. unfold timer_step. intros -> ->. auto. Qed.

Lemma armed_condition_deps (w w1 : World) :
  deps w = deps w1 -> armed_condition w1 = armed_condition w.
Proof.
  unfold deps, armed_condition. intros H. injection H as H1 _ H3 H4 _ _.
  now rewrite H1, H3, H4.
Qed.

Lemma effect_rerun_inv (w : World) :
  timer_owned w ->
  let w' := effect_body (effect_cleanup w) in
  timer_owned w' /\ timer_armed w' /\ state w' = state w /\ inputBuffer w' = inputBuffer w.
Proof.
  intros Ho w'. subst w'. unfold effect_cleanup.
  destruct (autoSendTimerRef w) as [h|] eqn:Er.
  - pose proof (owned_delete w h Ho Er) as Hd.
    unfold effect_body, armed_condition. world_simpl.
    fold (armed_condition w). destruct (armed_condition w) eqn:Ec; world_simpl.
    + repeat split.
      * intros h' Hs. world_simpl. rewrite Hd in Hs. now destruct Hs.
      * intros _. exact Ec.
    + repeat split.
      * intros h' Hs. world_simpl.
        destruct (decide (h = h')) as [->|Hne].
        -- rewrite lookup_delete_eq in Hs. now destruct Hs.
        -- rewrite lookup_delete_ne, Hd in Hs by exact Hne. now destruct Hs.
      * intros Hr. now contradiction Hr.
  - pose proof (owned_no_ref w Ho Er) as Hn.
    unfold effect_body. destruct (armed_condition w) eqn:Ec; rewrite Er.
    + repeat split.
      * intros h' Hs. world_simpl.
        destruct (decide (next_interval w = h')) as [->|Hne]; [reflexivity|].
        rewrite lookup_insert_ne, Hn in Hs by exact Hne. now destruct Hs.
      * intros _. exact Ec.
    + repeat split; [exact Ho|]. intros Hr. congruence.
Qed.

Lemma commit_inv (w w1 : World) :
  timer_owned w1 -> timer_armed w ->
  (autoSendTimerRef w1 = autoSendTimerRef w \/ autoSendTimerRef w1 = None) ->
  timer_owned (commit w w1) /\ timer_armed (commit w w1)
  /\ state (commit w w1) = state w1 /\ inputBuffer (commit w w1) = inputBuffer w1.
Proof.
  intros Ho Ha Hr. unfold commit.
  destruct (bool_decide (deps w = deps w1)) eqn:Ed.
  - apply bool_decide_eq_true in Ed. repeat split; [exact Ho|].
    intros Hne. rewrite (armed_condition_deps w w1 Ed). apply Ha.
    destruct Hr as [Hr|Hr]; congruence.
  - apply effect_rerun_inv, Ho.
Qed.

(** The shapes a handler can have: it leaves timer, input, connection and
    send options alone; it is [handleConnect]; it is the first part of
    [handleDisconnect], after at most a log entry; it is the second part; or
    it edits the input box or the send options. *)
Lemma handle_cases (e : Event) (w : World) :
  frame w (handle e w)
  \/ (exists env, e = ClickConnect env)
  \/ (is_disconnect e = true
      /\ exists w1 t, frame w w1 /\ handle e w = suspend t (handleDisconnect_begin w1))
  \/ (completes_disconnect w e = true
      /\ exists cl env k, handle e w = handleDisconnect_resume cl env (take_up k w))
  \/ (exists s, e = EditInput s)
  \/ (exists c, e = EditSendConfig c).
Proof.
  destruct e.
  - left. apply frame_tick.
  - left. apply frame_sendData.
  - left. apply frame_sendData.
  - left. apply frame_suspend.
  - left. apply frame_file_loaded.
  - left. apply frame_handleSignalChange.
  - right. left. now exists env.
  - right. right. left. split; [reflexivity|].
    exists w, (Closing (state w)). split; [apply frame_refl | reflexivity].
  - cbn [handle completes_disconnect].
    destruct (suspended w !! k) as [[cl|cl]|]; try (left; apply frame_refl).
    right. right. right. left. split; [reflexivity|]. now exists cl, env, k.
  - left. apply frame_addLog.
  - cbn [handle is_disconnect].
    destruct (port (state w)); [destruct ours|]; try (left; apply frame_addLog).
    right. right. left. split; [reflexivity|].
    eexists _, _. split; [apply frame_addLog | reflexivity].
  - left. apply frame_addLog.
  - right. right. right. right. left. now exists s.
  - right. right. right. right. right. now exists c.
  - left. repeat split.
Qed.

Lemma handle_timer_step (e : Event) (w : World) : timer_step w (handle e w).
Proof.
  destruct (handle_cases e w)
    as [Hf|[(env & ->)|[(_ & w1 & t & Hf & ->)|[(_ & cl & env & k & ->)|[(s & ->)|(c & ->)]]]]].
  - now apply timer_step_frame.
  - left. cbn [handle]. split; apply handleConnect_effect.
  - destruct Hf as (Hr & Hi & _).
    eapply (timer_step_from w1); [exact Hr | exact Hi |].
    apply (handleDisconnect_begin_effect w1).
  - left. split; apply (handleDisconnect_resume_effect cl env (take_up k w)).
  - left. now split.
  - left. now split.
Qed.

Lemma consistent_closed (st : SerialState) :
  isConnected st = false -> port st = None -> consistent st.
Proof.
  intros H1 H2. unfold consistent. rewrite H1, H2. split; [discriminate|].
  intros H. now contradiction H.
Qed.

Lemma handle_consistent (e : Event) (w : World) :
  consistent (state w) -> consistent (state (handle e w)).
Proof.
  intros Hc.
  destruct (handle_cases e w)
    as [Hf|[(env & ->)|[(_ & w1 & t & Hf & ->)|[(_ & cl & env & k & ->)|[(s & ->)|(c & ->)]]]]].
  - exact (consistent_frame w _ Hf Hc).
  - cbn [handle]. now apply handleConnect_effect.
  - pose proof (consistent_frame w w1 Hf Hc) as Hc1.
    destruct (handleDisconnect_begin_effect w1) as (_ & _ & _ & Hi & Hp & _).
    unfold consistent in *. world_simpl. now rewrite Hi, Hp.
  - apply consistent_closed; apply (handleDisconnect_resume_effect cl env (take_up k w)).
  - exact Hc.
  - exact Hc.
Qed.

Lemma handle_autoRepeat_off (e : Event) (w : World) :
  is_toggle_on e = false -> autoRepeat (sendConfig (state w)) = false ->
  autoRepeat (sendConfig (state (handle e w))) = false.
Proof.
  intros He Hoff.
  destruct (handle_cases e w)
    as [Hf|[(env & ->)|[(_ & w1 & t & Hf & ->)|[(_ & cl & env & k & ->)|[(s & ->)|(c & ->)]]]]].
  - destruct Hf as (_ & _ & _ & _ & _ & Hs). now rewrite Hs.
  - destruct (handleConnect_effect (state w) env w) as (_ & _ & _ & Hs & _).
    cbn [handle]. now rewrite Hs.
  - destruct Hf as (_ & _ & _ & _ & _ & Hs).
    destruct (handleDisconnect_begin_effect w1) as (_ & _ & _ & _ & _ & Hk & _).
    apply Hk. rewrite Hs. exact Hoff.
  - destruct (handleDisconnect_resume_effect cl env (take_up k w)) as (_ & _ & _ & Hs & _).
    now rewrite Hs.
  - exact Hoff.
  - exact He.
Qed.

Lemma handle_stays_closed (e : Event) (w : World) :
  is_connect e = false -> isConnected (state w) = false ->
  isConnected (state (handle e w)) = false.
Proof.
  intros He Hoff.
  destruct (handle_cases e w)
    as [Hf|[(env & ->)|[(_ & w1 & t & Hf & ->)|[(_ & cl & env & k & ->)|[(s & ->)|(c & ->)]]]]].
  - destruct Hf as (_ & _ & _ & Hs & _). now rewrite Hs.
  - discriminate He.
  - destruct Hf as (_ & _ & _ & Hs & _).
    destruct (handleDisconnect_begin_effect w1) as (_ & _ & _ & Hi & _).
    world_simpl. now rewrite Hi, Hs.
  - apply (handleDisconnect_resume_effect cl env (take_up k w)).
  - exact Hoff.
  - exact Hoff.
Qed.

Lemma handle_completes_closes (e : Event) (w : World) :
  completes_disconnect w e = true -> isConnected (state (handle e w)) = false.
Proof.
  destruct e; cbn [handle completes_disconnect]; try discriminate.
  destruct (suspended w !! k) as [[cl|cl]|]; try discriminate. intros _.
  apply (handleDisconnect_resume_effect cl env (take_up k w)).
Qed.

Lemma handle_toggle_off (e : Event) (w : World) :
  is_toggle_off e = true -> autoRepeat (sendConfig (state (handle e w))) = false.
Proof.
  destruct e; cbn [handle is_toggle_off]; try discriminate.
  world_simpl. now destruct (autoRepeat c).
Qed.

Lemma step_inv (w : World) (e : Event) :
  session_inv w ->
  session_inv (step w e)
  /\ state (step w e) = state (handle e w)
  /\ inputBuffer (step w e) = inputBuffer (handle e w).
Proof.
  intros (Ho & Ha & Hc). unfold step.
  pose proof (handle_timer_step e w) as Hstep.
  destruct (commit_inv w (handle e w)
              (timer_step_owned _ _ Hstep Ho) Ha (timer_step_ref _ _ Hstep))
    as (Ho' & Ha' & Hs & Hi).
  repeat split; try assumption.
  - rewrite Hs. apply (handle_consistent e w Hc).
  - rewrite Hs. apply (handle_consistent e w Hc).
Qed.

Lemma mount_inv (saved : Saved) : session_inv (mount saved).
Proof.
  repeat split.
  - intros h Hs. cbn [mount intervals] in Hs. rewrite lookup_empty in Hs.
    now destruct Hs.
  - intros H. now contradiction H.
  - discriminate.
  - intros H. now contradiction H.
Qed.

Lemma run_app (es es' : list Event) (w : World) :
  run (es ++ es') w = run es' (run es w).
Proof. unfold run. apply fold_left_app. Qed.

Lemma run_inv (es : list Event) (w : World) : session_inv w -> session_inv (run es w).
Proof.
  revert w. induction es as [|e es IH]; intros w Hw; [exact Hw|].
  cbn [run fold_left]. apply IH. now apply step_inv.
Qed.

(** Every state a session can reach keeps flag and port together. *)
Lemma reachable_consistent (saved : Saved) (es : list Event) :
  consistent (state (run es (mount saved))).
Proof. apply (run_inv es (mount saved) (mount_inv saved)). Qed.

(** When the arming condition is off, no interval is alive and the ref is
    empty. *)
Lemma unarmed_released (w : World) :
  session_inv w -> armed_condition w = false ->
  autoSendTimerRef w = None /\ intervals w = ∅.
Proof.
  intros (Ho & Ha & _) Hc.
  assert (Hr : autoSendTimerRef w = None).
  { destruct (autoSendTimerRef w) eqn:E; [|reflexivity].
    assert (armed_condition w = true) by (apply Ha; congruence). congruence. }
  split; [exact Hr|]. apply map_empty. now apply owned_no_ref.
Qed.

Lemma unarmed_off (w : World) :
  autoRepeat (sendConfig (state w)) = false -> armed_condition w = false.
Proof. unfold armed_condition. now intros ->. Qed.

Lemma unarmed_closed (w : World) :
  isConnected (state w) = false -> armed_condition w = false.
Proof. unfold armed_condition. intros ->. now rewrite andb_false_r. Qed.

(** Along a run in which a property that keeps the effect unarmed is
    maintained, the timer never calls [sendData]. *)
Lemma silent_run (keeps : World -> Prop) (allowed : Event -> bool) :
  (forall w, keeps w -> armed_condition w = false) ->
  (forall w e, session_inv w -> keeps w -> allowed e = true -> keeps (step w e)) ->
  forall post w,
    session_inv w -> keeps w -> forallb allowed post = true ->
    timer_sends w post = 0%nat
    /\ autoSendTimerRef (run post w) = None /\ intervals (run post w) = ∅.
Proof.
  intros Hun Hkeep post. induction post as [|e post IH]; intros w Hw Hk Hall.
  - split; [reflexivity|]. apply (unarmed_released w Hw), Hun, Hk.
  - cbn [forallb] in Hall. apply andb_prop in Hall as [He Hall].
    destruct (unarmed_released w Hw (Hun w Hk)) as [_ Hempty].
    destruct (IH (step w e)) as (Hs & Hr & Hi);
      [now apply step_inv | now apply Hkeep | exact Hall |].
    cbn [timer_sends run fold_left]. fold (run post (step w e)).
    rewrite Hs. split; [|now split].
    destruct e; try reflexivity. now rewrite Hempty, lookup_empty.
Qed.

Lemma armed_step (w : World) (e : Event) :
  session_inv w -> armed_condition (step w e) = armed_condition (handle e w).
Proof.
  intros Hw. destruct (step_inv w e Hw) as (_ & Es & Ei).
  unfold armed_condition. now rewrite Es, Ei.
Qed.

Lemma armed_frame (w w1 : World) : frame w w1 -> armed_condition w1 = armed_condition w.
Proof.
  intros (_ & _ & Hi & Hc & _ & Hs). unfold armed_condition. now rewrite Hi, Hc, Hs.
Qed.

(** A handler resets the ref only together with the auto-repeat option. *)
Lemma handle_clear_off (e : Event) (w : World) :
  autoSendTimerRef w <> None -> autoSendTimerRef (handle e w) = None ->
  autoRepeat (sendConfig (state (handle e w))) = false.
Proof.
  intros Hset.
  destruct (handle_cases e w)
    as [Hf|[(env & ->)|[(_ & w1 & t & Hf & ->)|[(_ & cl & env & k & ->)|[(s & ->)|(c & ->)]]]]];
    intros Hnone.
  - destruct Hf as (Hr & _). congruence.
  - destruct (handleConnect_effect (state w) env w) as (Hr & _).
    cbn [handle] in Hnone. congruence.
  - destruct Hf as (Hr & _).
    destruct (handleDisconnect_begin_effect w1) as (_ & _ & _ & _ & _ & _ & Hk & _).
    apply Hk. congruence.
  - destruct (handleDisconnect_resume_effect cl env (take_up k w)) as (Hr & _).
    rewrite Hr in Hnone. world_simpl. congruence.
  - cbn [handle] in Hnone. world_simpl. congruence.
  - cbn [handle] in Hnone. world_simpl. congruence.
Qed.

Lemma effect_rerun_ref (w : World) :
  armed_condition w = true -> autoSendTimerRef (effect_body (effect_cleanup w)) <> None.
Proof.
  intros Hc. unfold effect_cleanup.
  destruct (autoSendTimerRef w) as [h|] eqn:Er.
  - unfold effect_body, armed_condition. world_simpl. fold (armed_condition w).
    now rewrite Hc.
  - unfold effect_body. now rewrite Hc, Er.
Qed.

Lemma step_armed_has_ref (w : World) (e : Event) :
  session_inv w -> armed_has_ref w -> armed_has_ref (step w e).
Proof.
  intros Hw Hh Harmed. rewrite (armed_step w e Hw) in Harmed.
  unfold step, commit. destruct (bool_decide (deps w = deps (handle e w))) eqn:Ed.
  - apply bool_decide_eq_true in Ed.
    pose proof (armed_condition_deps _ _ Ed) as Ea. rewrite Harmed in Ea.
    pose proof (Hh (eq_sym Ea)) as Hset.
    destruct (autoSendTimerRef (handle e w)) eqn:Er; [discriminate|].
    pose proof (handle_clear_off e w Hset Er) as Hoff.
    unfold armed_condition in Harmed. rewrite Hoff in Harmed. discriminate.
  - now apply effect_rerun_ref.
Qed.

Lemma reachable_armed_has_ref (saved : Saved) (es : list Event) :
  armed_has_ref (run es (mount saved)).
Proof.
  induction es as [|e es IH] using rev_ind.
  - intros H. cbn [run fold_left] in H.
    rewrite unarmed_closed in H by reflexivity. discriminate H.
  - rewrite run_app. apply step_armed_has_ref; [apply run_inv, mount_inv | exact IH].
Qed.

(** Asking for a disconnect leaves the arming condition off. *)
Lemma disconnect_request_unarms (w : World) (d : Event) :
  session_inv w -> armed_has_ref w -> is_disconnect d = true ->
  armed_condition (handle d w) = false.
Proof.
  intros (_ & _ & Hc) Hh Hd.
  assert (Hbegin : forall w1 t, frame w w1 ->
             armed_condition (suspend t (handleDisconnect_begin w1)) = false).
  { intros w1 t Hf.
    destruct (handleDisconnect_begin_effect w1) as (_ & _ & Hi & _ & _ & _ & Hk & Hn).
    destruct (autoSendTimerRef w1) as [h|] eqn:Er.
    - unfold armed_condition. world_simpl. rewrite Hk by discriminate. reflexivity.
    - destruct (Hn eq_refl) as [Es _].
      assert (Ea : armed_condition (suspend t (handleDisconnect_begin w1))
                   = armed_condition w1).
      { unfold armed_condition. world_simpl. now rewrite Es, Hi. }
      rewrite Ea, (armed_frame w w1 Hf).
      destruct (armed_condition w) eqn:Ew; [|reflexivity].
      destruct Hf as (Hr & _). exfalso. apply (Hh Ew). congruence. }
  destruct d; try discriminate; cbn [handle].
  - apply Hbegin, frame_refl.
  - destruct ours; [|discriminate].
    destruct (port (state w)) eqn:Ep; [apply Hbegin, frame_addLog|].
    rewrite (armed_frame w _ (frame_addLog _ _ _ _ w)).
    apply unarmed_closed. destruct (isConnected (state w)) eqn:Ei; [|reflexivity].
    apply Hc in Ei. congruence.
Qed.

(** Without a connect, a switch-on or an edit of the input box the arming
    condition stays off. *)
Lemma handle_stays_unarmed (e : Event) (w : World) :
  (is_connect e || is_toggle_on e || is_input_edit e) = false ->
  armed_condition w = false -> armed_condition (handle e w) = false.
Proof.
  intros He Hoff.
  destruct (handle_cases e w)
    as [Hf|[(env & ->)|[(_ & w1 & t & Hf & ->)|[(_ & cl & env & k & ->)|[(s & ->)|(c & ->)]]]]].
  - now rewrite (armed_frame w _ Hf).
  - discriminate He.
  - destruct (handleDisconnect_begin_effect w1) as (_ & _ & Hi & _ & _ & _ & Hk & Hn).
    destruct (autoSendTimerRef w1) as [h|] eqn:Er.
    + unfold armed_condition. world_simpl. rewrite Hk by discriminate. reflexivity.
    + destruct (Hn eq_refl) as [Es _]. rewrite <- Hoff, <- (armed_frame w w1 Hf).
      unfold armed_condition. world_simpl. now rewrite Es, Hi.
  - apply unarmed_closed. apply (handleDisconnect_resume_effect cl env (take_up k w)).
  - discriminate He.
  - cbn [is_connect is_toggle_on is_input_edit orb] in He.
    rewrite orb_false_r in He.
    unfold armed_condition. cbn [handle]. world_simpl. now rewrite He.
Qed.

(** C8 (as stated): fails while a disconnect is still closing the port and
    the state still says connected.  After a disconnect request that has
    cleared interval 1 and reset the ref, switching auto-repeat back on
    starts interval 2, whose tick calls [sendData] and writes the input to
    the port, although no connect has happened; so does typing into the
    empty input box of a session whose option was on. *)
Lemma timer_rearmed_while_closing :
  let w := run (armed_session ++ [ClickDisconnect]) initialWorld in
  let post := [EditSendConfig auto_on; TimerTick 2 send_ok] in
  let w' := run (idle_session ++ [ClickDisconnect]) initialWorld in
  let post' := [EditInput (lit "AT"); TimerTick 1 send_ok] in
  autoSendTimerRef (run armed_session initialWorld) = Some 1%positive
  /\ autoSendTimerRef w = None
  /\ isConnected (state w) = true
  /\ forallb (fun e => negb (is_connect e)) post = true
  /\ timer_sends w post = 1%nat
  /\ wire (dev (run post w)) = [encode (lit "AT")]
  /\ forallb (fun e => negb (is_connect e)) post' = true
  /\ timer_sends w' post' = 1%nat
  /\ wire (dev (run post' w')) = [encode (lit "AT")].
Proof. vm_compute. repeat split. Qed.

(** C8 (amended): in a session started from any saved configuration, once
    the timer is disarmed the timer ref is empty, no interval is left in the
    window's table, and the timer calls [sendData] zero times, however often
    it would fire, until it is armed again.  After a disconnect has finished (the
    second part of [handleDisconnect] has run) this lasts until the session
    is connected again; after a switch-off of the auto-repeat option, until
    the option is switched on again; after a disconnect has been asked for
    (button or removal of the session's device), until the option is
    switched on, the input box edited or the session connected again. *)
Theorem timer_disarmed_stays_silent (saved : Saved) (pre post : list Event) (d : Event) :
  (completes_disconnect (run pre (mount saved)) d = true
   /\ forallb (fun e => negb (is_connect e)) post = true)
  \/ (is_toggle_off d = true /\ forallb (fun e => negb (is_toggle_on e)) post = true)
  \/ (is_disconnect d = true
      /\ forallb (fun e => negb (is_connect e || is_toggle_on e || is_input_edit e)) post
         = true) ->
  let w := run (pre ++ [d]) (mount saved) in
  autoSendTimerRef w = None
  /\ intervals w = ∅
  /\ timer_sends w post = 0%nat
  /\ autoSendTimerRef (run post w) = None
  /\ intervals (run post w) = ∅.
Proof.
  intros Hd w.
  assert (Hpre : session_inv (run pre (mount saved))) by apply run_inv, mount_inv.
  assert (Hw : session_inv w) by apply run_inv, mount_inv.
  assert (Ew : w = step (run pre (mount saved)) d).
  { subst w. now rewrite run_app. }
  destruct (step_inv (run pre (mount saved)) d Hpre) as (_ & Est & _).
  rewrite <- Ew in Est.
  destruct Hd as [[Hdis Hpost]|[[Hoff Hpost]|[Hreq Hpost]]].
  - assert (Hclosed : isConnected (state w) = false).
    { rewrite Est. now apply handle_completes_closes. }
    destruct (unarmed_released w Hw (unarmed_closed w Hclosed)) as [Hr Hi].
    split; [exact Hr|]. split; [exact Hi|].
    apply (silent_run (fun w => isConnected (state w) = false)
             (fun e => negb (is_connect e))); try assumption.
    + apply unarmed_closed.
    + intros w0 e Hw0 Hk He. destruct (step_inv w0 e Hw0) as (_ & -> & _).
      apply handle_stays_closed; [|exact Hk]. now apply negb_true_iff.
  - assert (Hopt : autoRepeat (sendConfig (state w)) = false).
    { rewrite Est. now apply handle_toggle_off. }
    destruct (unarmed_released w Hw (unarmed_off w Hopt)) as [Hr Hi].
    split; [exact Hr|]. split; [exact Hi|].
    apply (silent_run (fun w => autoRepeat (sendConfig (state w)) = false)
             (fun e => negb (is_toggle_on e))); try assumption.
    + apply unarmed_off.
    + intros w0 e Hw0 Hk He. destruct (step_inv w0 e Hw0) as (_ & -> & _).
      apply handle_autoRepeat_off; [|exact Hk]. now apply negb_true_iff.
  - assert (Hun : armed_condition w = false).
    { rewrite Ew, (armed_step _ d Hpre).
      apply disconnect_request_unarms;
        [exact Hpre | apply reachable_armed_has_ref | exact Hreq]. }
    destruct (unarmed_released w Hw Hun) as [Hr Hi].
    split; [exact Hr|]. split; [exact Hi|].
    apply (silent_run (fun w => armed_condition w = false)
             (fun e => negb (is_connect e || is_toggle_on e || is_input_edit e)));
      try assumption.
    + auto.
    + intros w0 e Hw0 Hk He. rewrite (armed_step w0 e Hw0).
      apply handle_stays_unarmed; [|exact Hk]. now apply negb_true_iff.
Qed.

Lemma timer_disarmed_stays_silent_witness :
  timer_sends
    (run (armed_session ++ [ClickDisconnect; DisconnectSettles 0 disconnect_ok]) initialWorld)
    [EditSendConfig auto_on; TimerTick 2 send_ok; TimerTick 1 send_ok] = 0%nat.
Proof.
  apply (timer_disarmed_stays_silent nothing_saved (armed_session ++ [ClickDisconnect])
           [EditSendConfig auto_on; TimerTick 2 send_ok; TimerTick 1 send_ok]
           (DisconnectSettles 0 disconnect_ok)).
  left. split; reflexivity.
Defined.

(** While armed, ticks do call [sendData]. *)
Example timer_fires_while_armed :
  timer_sends (run armed_session initialWorld)
    [TimerTick 1 send_ok; TimerTick 1 send_ok] = 2%nat.
Proof. vm_compute. reflexivity. Qed.

(** ** A disconnect that nothing interrupts *)

Lemma commit_idle (w0 w : World) :
  autoSendTimerRef w = None -> armed_condition w = false -> commit w0 w = w.
Proof.
  intros Hr Ha. unfold commit. destruct (bool_decide _); [reflexivity|].
  unfold effect_cleanup. rewrite Hr. unfold effect_body. now rewrite Ha, Hr.
Qed.

Lemma step_disconnect_request (w : World) :
  step w ClickDisconnect = suspend (Closing (state w)) (handleDisconnect_begin w).
Proof.
  unfold step. cbn [handle].
  destruct (handleDisconnect_begin_effect w) as (_ & Hr & Hi & _ & _ & _ & Hk & Hn).
  destruct (autoSendTimerRef w) as [h|] eqn:Er.
  - apply commit_idle; [exact Hr|].
    unfold armed_condition. world_simpl. now rewrite Hk.
  - destruct (Hn eq_refl) as [Es _]. unfold commit.
    rewrite bool_decide_eq_true_2; [reflexivity|].
    unfold deps. world_simpl. now rewrite Es, Hi.
Qed.

(** When the second part of [handleDisconnect] is the very next event, the
    two steps of the session do what the one call [handleDisconnect] does. *)
Lemma uninterrupted_disconnect (env : DisconnectEnv) (w : World) :
  run [ClickDisconnect; DisconnectSettles (length (suspended w)) env] w
  = handleDisconnect (state w) env w.
Proof.
  assert (Es : suspended (handleDisconnect_begin w) = suspended w).
  { unfold handleDisconnect_begin. world_simpl. now destruct (autoSendTimerRef w). }
  cbn [run fold_left]. rewrite step_disconnect_request. unfold step. cbn [handle].
  world_simpl. rewrite Es, list_lookup_middle by reflexivity.
  assert (E : take_up (length (suspended w))
                (suspend (Closing (state w)) (handleDisconnect_begin w))
              = handleDisconnect_begin w).
  { unfold take_up, suspend. world_simpl. rewrite Es.
    rewrite (delete_middle (suspended w) [] (Closing (state w))), app_nil_r.
    unfold handleDisconnect_begin. destruct w as [? ? ? [h|] ? ? ? ? ?]; reflexivity. }
  rewrite E. fold (handleDisconnect (state w) env w).
  apply commit_idle; unfold handleDisconnect.
  - destruct (handleDisconnect_resume_effect (state w) env (handleDisconnect_begin w))
      as (-> & _).
    apply handleDisconnect_begin_effect.
  - apply unarmed_closed.
    apply (handleDisconnect_resume_effect (state w) env (handleDisconnect_begin w)).
Qed.

(** ** Counters and channel along a session *)

Lemma counted_step_log (st : Stamp) (ty : LogType) (dat : jsstring) (w : World) :
  ty = info \/ ty = error ->
  counted_step w (with_state (addLog st ty dat None) w) 0.
Proof.
  intros Hty. unfold counted_step, wire_bytes. world_simpl.
  rewrite decide_False, decide_False by (destruct Hty; congruence).
  split; [reflexivity | now rewrite N.add_0_r].
Qed.

Lemma counted_step_release (w w1 : World) (n : N) :
  counted_step w w1 n -> counted_step w (release_ref w1) n.
Proof.
  unfold counted_step, wire_bytes.
  now rewrite state_release_ref, wire_release_ref.
Qed.

Lemma counted_step_sendData (cl : SerialState) (content : Content)
    (hexInput : option bool) (env : SendEnv) (w : World) :
  counted_step w (sendData cl content hexInput env w) 0.
Proof.
  unfold sendData.
  destruct (port cl); [|apply counted_step_log; auto].
  destruct (negb (writable (dev w))); [apply counted_step_log; auto|].
  destruct (writer_lock (dev w)).
  { apply counted_step_release, counted_step_log. auto. }
  destruct (prepare cl content _) as [[dataToSend displayLog]|].
  - destruct (write_error env); apply counted_step_release.
    + unfold counted_step, wire_bytes. world_simpl.
      split; [reflexivity | now rewrite N.add_0_r].
    + unfold counted_step, wire_bytes. world_simpl.
      rewrite decide_True by reflexivity. unfold counted_length.
      rewrite concat_app, length_app. cbn [concat length].
      rewrite app_nil_r. split; [lia | now rewrite N.add_0_r].
  - apply counted_step_release. unfold counted_step, wire_bytes. world_simpl.
    rewrite wire_releaseLock. world_simpl.
    split; [reflexivity | now rewrite N.add_0_r].
Qed.

Lemma counted_step_begin (w w1 : World) (t : Task) (n : N) :
  counted_step w w1 n -> counted_step w (suspend t (handleDisconnect_begin w1)) n.
Proof.
  unfold handleDisconnect_begin, counted_step, wire_bytes. world_simpl.
  now destruct (autoSendTimerRef w1).
Qed.

Lemma counted_step_resume (cl : SerialState) (env : DisconnectEnv) (w : World) :
  counted_step w (handleDisconnect_resume cl env w) 0.
Proof.
  unfold handleDisconnect_resume, counted_step, wire_bytes.
  destruct (port cl); [destruct (close_ok env)|];
    world_simpl; (split; [reflexivity | now rewrite N.add_0_r]).
Qed.

Lemma counted_step_refl (w : World) : counted_step w w 0.
Proof. split; [reflexivity | now rewrite N.add_0_r]. Qed.

Lemma counted_step_handle (e : Event) (w : World) :
  is_clear e = false -> counted_step w (handle e w) (received_bytes [e]).
Proof.
  intros He. unfold received_bytes. cbn [map fold_right].
  destruct e; cbn [handle]; try discriminate; rewrite ?N.add_0_r.
  - unfold tick. destruct (intervals w !! h);
      [apply counted_step_sendData | apply counted_step_refl].
  - apply counted_step_sendData.
  - apply counted_step_sendData.
  - exact (counted_step_refl w).
  - destruct (suspended w !! k) as [[cl|cl]|]; try apply counted_step_refl.
    exact (counted_step_sendData cl (Binary bytes) None env (take_up k w)).
  - unfold handleSignalChange.
    destruct (port (state w)); [destruct (negb (isConnected (state w)));
                                [|destruct (sig_error env)]|];
      unfold counted_step, wire_bytes; world_simpl;
      (split; [reflexivity | now rewrite N.add_0_r]).
  - unfold handleConnect.
    destruct (negb (serial_supported env)); [apply counted_step_log; auto|].
    destruct (open_error env); [apply counted_step_log; auto|].
    destruct (init_signals_error env); unfold counted_step, wire_bytes; world_simpl;
      (split; [reflexivity | now rewrite N.add_0_r]).
  - apply (counted_step_begin w w _ 0), counted_step_refl.
  - destruct (suspended w !! k) as [[cl|cl]|]; try apply counted_step_refl.
    exact (counted_step_resume cl env (take_up k w)).
  - apply counted_step_log; auto.
  - assert (Hlog : counted_step w
                     (with_state (addLog st info (lit "检测到串口设备移除") None) w) 0)
      by (apply counted_step_log; auto).
    destruct (port (state w)); [destruct ours|]; try exact Hlog.
    apply (counted_step_begin w _ _ 0 Hlog).
  - unfold counted_step, wire_bytes. world_simpl. split; reflexivity.
  - exact (counted_step_refl w).
  - exact (counted_step_refl w).
Qed.

Lemma commit_keeps (w w1 : World) :
  state (commit w w1) = state w1 /\ dev (commit w w1) = dev w1.
Proof.
  unfold commit. destruct (bool_decide _); [now split|].
  unfold effect_body, effect_cleanup.
  destruct (autoSendTimerRef w1) eqn:Er; world_simpl;
    match goal with |- context [armed_condition ?x] => destruct (armed_condition x) end;
    world_simpl; rewrite ?Er; now split.
Qed.

(** Along any run that does not clear the log, the transmitted total moves
    with the bytes written to the port and the received total with the bytes
    the read loop delivered. *)
Lemma counters_match_channel (es : list Event) (w : World) :
  forallb (fun e => negb (is_clear e)) es = true ->
  txCount (state (run es w)) + wire_bytes w = txCount (state w) + wire_bytes (run es w)
  /\ rxCount (state (run es w)) = rxCount (state w) + received_bytes es.
Proof.
  revert w. induction es as [|e es IH]; intros w Hall.
  - cbn. split; [reflexivity | now rewrite N.add_0_r].
  - cbn [forallb] in Hall. apply andb_prop in Hall as [He Hall].
    apply negb_true_iff in He.
    cbn [run fold_left]. fold (run es (step w e)).
    destruct (IH (step w e) Hall) as [Ht Hr].
    destruct (counted_step_handle e w He) as [Ht1 Hr1].
    destruct (commit_keeps w (handle e w)) as [Es Ed].
    assert (Eb : wire_bytes (step w e) = wire_bytes (handle e w)).
    { unfold wire_bytes, step. now rewrite Ed. }
    unfold step in Ht, Hr. rewrite Es in Ht, Hr. fold (step w e) in Ht, Hr.
    rewrite Eb in Ht.
    assert (Erb : received_bytes (e :: es) = received_bytes [e] + received_bytes es)
      by (unfold received_bytes; cbn [map fold_right]; lia).
    rewrite Erb. lia.
Qed.

(** * Further properties of the session engine *)

(** ** Codec *)

Lemma pair_induction (P : jsstring -> Prop) :
  P [] -> (forall a, P [a]) ->
  (forall a b rest, P rest -> P (b :: rest) -> P (a :: b :: rest)) ->
  forall l, P l.
Proof.
  intros H0 H1 H2 l.
  assert (H : P l /\ forall a, P (a :: l)).
  { induction l as [|x l [IH1 IH2]]; split; auto. }
  apply H.
Qed.

Lemma half_length_cons2 {A} (a b : A) (rest : list A) :
  (length (a :: b :: rest) / 2 = S (length rest / 2))%nat.
Proof.
  cbn [length]. replace (S (S (length rest))) with (1 * 2 + length rest)%nat by lia.
  rewrite Nat.div_add_l by lia. reflexivity.
Qed.

Lemma parse_loop_pairs (clean : jsstring) :
  map (fun k => ToUint8 (parseInt (substring clean (2 * k) (2 * k + 2)) 16))
      (seq 0 (length clean / 2))
  = decode_pairs clean.
Proof.
  induction clean as [|a|a b rest IH _] using pair_induction; [reflexivity..|].
  rewrite half_length_cons2. cbn [seq map decode_pairs]. f_equal.
  rewrite <- seq_shift, map_map, <- IH. apply map_ext. intros k.
  now rewrite substring_skip_pair.
Qed.

Lemma length_decode_pairs (clean : jsstring) :
  length (decode_pairs clean) = (length clean / 2)%nat.
Proof.
  induction clean as [|a|a b rest IH _] using pair_induction; [reflexivity..|].
  rewrite half_length_cons2. cbn [decode_pairs length]. now rewrite IH.
Qed.

Lemma parseHexString_pairs (str : jsstring) (bytes : Uint8Array) :
  parseHexString str = Some bytes ->
  bytes = decode_pairs (List.filter is_hex_digit str)
  /\ (length (List.filter is_hex_digit str) = 2 * length bytes)%nat
  /\ bytes <> [].
Proof.
  unfold parseHexString. cbv zeta.
  set (clean := List.filter is_hex_digit str).
  destruct (Nat.eqb_spec (length clean) 0) as [E0|E0]; [discriminate|].
  destruct (Nat.eqb_spec (length clean mod 2) 0) as [E2|E2]; [|discriminate].
  cbn [negb orb]. rewrite parse_loop_pairs. intros [= <-].
  assert (El : length clean = (2 * length (decode_pairs clean))%nat).
  { rewrite length_decode_pairs.
    pose proof (Nat.div_mod_eq (length clean) 2). lia. }
  repeat split; [exact El|].
  intros Hnil. rewrite Hnil in El. cbn in El. lia.
Qed.

(** X1: whatever text [parseHexString] accepts, the bytes it returns are one
    per two digits (so at least one), and rendering them with [bufferToHex]
    gives a text that [parseHexString] reads back as the same bytes. *)
Theorem accepted_hex_is_normalised (str : jsstring) (bytes : Uint8Array) :
  parseHexString str = Some bytes ->
  (length (List.filter is_hex_digit str) = 2 * length bytes)%nat
  /\ (1 <= length bytes)%nat
  /\ parseHexString (bufferToHex bytes) = Some bytes.
Proof.
  intros H. destruct (parseHexString_pairs str bytes H) as (_ & Hl & Hne).
  split; [exact Hl|]. split.
  - destruct bytes; [congruence | cbn; lia].
  - now apply parseHexString_bufferToHex.
Qed.

Lemma accepted_hex_is_normalised_witness :
  parseHexString (lit "de:ad:BE:ef") = Some [xde; xad; xbe; xef]
  /\ parseHexString (bufferToHex [xde; xad; xbe; xef]) = Some [xde; xad; xbe; xef].
Proof.
  split; [reflexivity|].
  apply (accepted_hex_is_normalised (lit "de:ad:BE:ef") [xde; xad; xbe; xef]).
  reflexivity.
Defined.

Lemma upper_char_cases (c : N) :
  (if in_range 97 122 c then c - 32 else c) = c /\ ~ (97 <= c <= 122)
  \/ (if in_range 97 122 c then c - 32 else c) = c - 32 /\ 97 <= c <= 122.
Proof.
  unfold in_range.
  destruct (N.leb_spec 97 c), (N.leb_spec c 122); cbn [andb]; [right|left..];
    split; try reflexivity; lia.
Qed.

Lemma is_hex_digit_upper (c : N) :
  is_hex_digit (if in_range 97 122 c then c - 32 else c) = is_hex_digit c.
Proof.
  destruct (upper_char_cases c) as [[-> _]|[-> Hr]]; [reflexivity|].
  apply eq_true_iff_eq. rewrite !is_hex_digit_spec. lia.
Qed.

Lemma digit_value_upper (c : N) :
  digit_value (if in_range 97 122 c then c - 32 else c) = digit_value c.
Proof.
  destruct (upper_char_cases c) as [[-> _]|[-> Hr]]; [reflexivity|].
  unfold digit_value, in_range.
  replace (48 <=? c - 32) with true by (symmetry; apply N.leb_le; lia).
  replace (c - 32 <=? 57) with false by (symmetry; apply N.leb_gt; lia).
  replace (c <=? 57) with false by (symmetry; apply N.leb_gt; lia).
  rewrite !andb_false_r.
  replace (97 <=? c - 32) with false by (symmetry; apply N.leb_gt; lia).
  replace (65 <=? c - 32) with true by (symmetry; apply N.leb_le; lia).
  replace (c - 32 <=? 90) with true by (symmetry; apply N.leb_le; lia).
  replace (97 <=? c) with true by (symmetry; apply N.leb_le; lia).
  replace (c <=? 122) with true by (symmetry; apply N.leb_le; lia).
  cbn [andb]. f_equal. lia.
Qed.

Lemma filter_hex_upper (s : jsstring) :
  List.filter is_hex_digit (toUpperCase s) = toUpperCase (List.filter is_hex_digit s).
Proof.
  unfold toUpperCase. induction s as [|c s IH]; [reflexivity|].
  cbn [map List.filter]. rewrite is_hex_digit_upper.
  destruct (is_hex_digit c); cbn [map]; now rewrite IH.
Qed.

Lemma decode_pairs_upper (clean : jsstring) :
  decode_pairs (toUpperCase clean) = decode_pairs clean.
Proof.
  unfold toUpperCase.
  induction clean as [|a|a b rest IH _] using pair_induction; [reflexivity..|].
  cbn [map decode_pairs]. rewrite IH. f_equal.
  unfold parseInt. cbn [parseInt_from]. rewrite !digit_value_upper. reflexivity.
Qed.

Lemma parseHexString_upper (str : jsstring) :
  parseHexString (toUpperCase str) = parseHexString str.
Proof.
  unfold parseHexString. cbv zeta. rewrite !parse_loop_pairs, filter_hex_upper.
  rewrite decode_pairs_upper. unfold toUpperCase. now rewrite length_map.
Qed.

Lemma same_letter_upper (a b : N) :
  same_letter a b ->
  (if in_range 97 122 a then a - 32 else a) = (if in_range 97 122 b then b - 32 else b).
Proof.
  intros H.
  destruct (upper_char_cases a) as [[-> Ha]|[-> Ha]],
           (upper_char_cases b) as [[-> Hb]|[-> Hb]];
    destruct H as [->|[[Hr ->]|[Hr ->]]]; lia.
Qed.

Lemma same_up_to_case_upper (s t : jsstring) :
  same_up_to_case s t -> toUpperCase s = toUpperCase t.
Proof.
  unfold same_up_to_case, toUpperCase. induction 1 as [|a b s t Hab _ IH]; [reflexivity|].
  cbn [map]. now rewrite IH, (same_letter_upper a b Hab).
Qed.

(** X2: the case of the letters does not matter to [parseHexString]: two
    texts that differ at most in the case of their Latin letters are both
    rejected or give the same bytes. *)
Theorem parseHexString_ignores_case (s t : jsstring) :
  same_up_to_case s t -> parseHexString s = parseHexString t.
Proof.
  intros H. rewrite <- (parseHexString_upper s), <- (parseHexString_upper t).
  now rewrite (same_up_to_case_upper s t H).
Qed.

Lemma parseHexString_ignores_case_witness :
  parseHexString (lit "de:AD be") = parseHexString (lit "DE:ad BE").
Proof.
  apply (parseHexString_ignores_case (lit "de:AD be") (lit "DE:ad BE")).
  change (lit "de:AD be") with [100; 101; 58; 65; 68; 32; 98; 101].
  change (lit "DE:ad BE") with [68; 69; 58; 97; 100; 32; 66; 69].
  unfold same_up_to_case, same_letter.
  repeat (constructor; [lia|]). constructor.
Defined.

Lemma join_app (sep : jsstring) (xs ys : list jsstring) :
  xs <> [] -> ys <> [] -> join sep (xs ++ ys) = join sep xs ++ sep ++ join sep ys.
Proof.
  intros Hx Hy. induction xs as [|x xs IH]; [congruence|].
  destruct xs as [|x' xs].
  - cbn [app join]. destruct ys; [congruence|reflexivity].
  - change ((x :: x' :: xs) ++ ys) with (x :: (x' :: xs) ++ ys).
    cbn [join]. cbn [app]. cbn [app] in IH. rewrite IH by discriminate.
    now rewrite <- !app_assoc.
Qed.

Lemma join_cons2 (sep p q : jsstring) (rest : list jsstring) :
  join sep (p :: q :: rest) = p ++ sep ++ join sep (q :: rest).
Proof. reflexivity. Qed.

Lemma length_bufferToHex_cons (x : byte) (b : Uint8Array) :
  length (bufferToHex (x :: b)) = (3 * length b + 2)%nat.
Proof.
  unfold bufferToHex. revert x. induction b as [|y b IH]; intros x.
  - cbn [map join]. destruct (byte_hex_shape x) as (hi & lo & -> & _). reflexivity.
  - change (map byte_hex (x :: y :: b))
      with (byte_hex x :: byte_hex y :: map byte_hex b).
    rewrite join_cons2, !length_app.
    change (byte_hex y :: map byte_hex b) with (map byte_hex (y :: b)).
    rewrite IH. destruct (byte_hex_shape x) as (hi & lo & -> & _).
    cbn [length]. change (length (lit " ")) with 1%nat. lia.
Qed.

(** The hex view of a buffer cut in two non-empty chunks is the hex views
    of the chunks with one space between them, and a buffer of [n >= 1] bytes
    renders to [3 * n - 1] characters. *)
Lemma bufferToHex_of_chunks (a b : Uint8Array) :
  a <> [] -> b <> [] ->
  bufferToHex (a ++ b) = bufferToHex a ++ [32] ++ bufferToHex b
  /\ length (bufferToHex a) = (3 * length a - 1)%nat.
Proof.
  intros Ha Hb. split.
  - unfold bufferToHex. rewrite map_app. apply join_app.
    + destruct a; [congruence|discriminate].
    + destruct b; [congruence|discriminate].
  - destruct a as [|x a]; [congruence|].
    rewrite length_bufferToHex_cons. cbn [length]. lia.
Qed.

(** ** Transcript log *)

Lemma length_logs_addLog (st : Stamp) (ty : LogType) (dat : jsstring)
    (raw : option Uint8Array) (prev : SerialState) :
  (length (logs (addLog st ty dat raw prev)) <= 2001)%nat.
Proof.
  world_simpl. rewrite length_app, slice_last_length. cbn [length]. lia.
Qed.

(** X3: appends keep the order of the entries and drop only from the front:
    after any run of appends to a log of at most 2001 entries, the log is the
    last 2001 entries of the old log followed by the new entries, so it is a
    suffix of that sequence and never longer than 2001. *)
Theorem appends_evict_oldest_first (l : list Append) (s : SerialState) :
  (length (logs s) <= 2001)%nat ->
  logs (appends l s) = slice_last 2001 (logs s ++ map entry_of l)
  /\ (exists dropped, logs s ++ map entry_of l = dropped ++ logs (appends l s))
  /\ (length (logs (appends l s)) <= 2001)%nat.
Proof.
  intros Hs. rewrite (logs_appends l s Hs). split; [reflexivity|]. split.
  - apply slice_last_suffix.
  - rewrite slice_last_length. lia.
Qed.

Lemma appends_evict_oldest_first_witness :
  logs (appends [sample_append; sample_append] initialState)
  = slice_last 2001 (logs initialState ++ map entry_of [sample_append; sample_append]).
Proof.
  apply (appends_evict_oldest_first [sample_append; sample_append] initialState).
  apply Nat.le_0_l.
Defined.

(** ** Write path *)

(** Every path through [sendData]: one entry is added, either an error with
    nothing written or a transmitted entry with exactly one chunk written. *)
Lemma sendData_outcome (cl : SerialState) (content : Content) (hexInput : option bool)
    (env : SendEnv) (w : World) :
  let w' := sendData cl content hexInput env w in
  (exists m, state w' = addLog (stamp env) error m None (state w)
             /\ wire (dev w') = wire (dev w))
  \/ (exists chunk display,
        state w' = addLog (stamp env) tx display (Some chunk) (state w)
        /\ wire (dev w') = wire (dev w) ++ [chunk]
        /\ prepare cl content (default (isHex (sendConfig cl)) hexInput)
           = Some (chunk, display)).
Proof.
  intros w'. subst w'. unfold sendData.
  destruct (port cl); [|left; eexists; now split].
  destruct (negb (writable (dev w))); [left; eexists; now split|].
  destruct (writer_lock (dev w)).
  { left. eexists. rewrite state_release_ref, wire_release_ref. now split. }
  destruct (prepare cl content _) as [[dataToSend displayLog]|].
  - destruct (write_error env).
    + left. eexists. rewrite state_release_ref, wire_release_ref. now split.
    + right. exists dataToSend, displayLog.
      rewrite state_release_ref, wire_release_ref. now repeat split.
  - left. eexists. rewrite state_release_ref, wire_release_ref. world_simpl.
    rewrite wire_releaseLock. now split.
Qed.

(** X4: every call of [sendData], whatever its arguments and the state of
    the port, appends exactly one entry, stamped by the host.  Either the
    entry is an error, nothing is written and both totals stay; or it is a
    transmitted entry, exactly one chunk is written, the hex view of the
    entry is the hex rendering of that chunk and the transmitted total grows
    by the length of the chunk.  The received total never changes. *)
Theorem sendData_logs_once (cl : SerialState) (content : Content)
    (hexInput : option bool) (env : SendEnv) (w : World) :
  let w' := sendData cl content hexInput env w in
  exists e,
    logs (state w') = slice_last 2000 (logs (state w)) ++ [e]
    /\ id e = random_id (stamp env) /\ timestamp e = now (stamp env)
    /\ rxCount (state w') = rxCount (state w)
    /\ ((type e = error /\ wire (dev w') = wire (dev w)
         /\ txCount (state w') = txCount (state w))
        \/ (type e = tx
            /\ exists chunk, wire (dev w') = wire (dev w) ++ [chunk]
                 /\ hex e = bufferToHex chunk
                 /\ txCount (state w') = txCount (state w) + N.of_nat (length chunk))).
Proof.
  intros w'.
  destruct (sendData_outcome cl content hexInput env w)
    as [(m & Hs & Hw)|(chunk & display & Hs & Hw & _)]; fold w' in Hs, Hw.
  - exists (newEntry (stamp env) error m None). rewrite Hs.
    repeat split. left. repeat split. exact Hw.
  - exists (newEntry (stamp env) tx display (Some chunk)). rewrite Hs.
    repeat split. right. split; [reflexivity|]. exists chunk. now repeat split.
Qed.

Lemma writer_lock_release_ref_set (wr : nat) (w : World) :
  writerRef w = Some wr -> writer_lock (dev w) = Some wr \/ writer_lock (dev w) = None ->
  writer_lock (dev (release_ref w)) = None.
Proof.
  intros Hr Hl. unfold release_ref. rewrite Hr. world_simpl.
  destruct Hl as [Hl|Hl]; [now apply releaseLock_own | now apply releaseLock_free].
Qed.

(** X5: a call of [sendData] that finds the writable stream unlocked leaves
    it unlocked, on every path: rejected hex text, failed write, successful
    write, or no connection at all. *)
Theorem sendData_releases_lock (cl : SerialState) (content : Content)
    (hexInput : option bool) (env : SendEnv) (w : World) :
  writer_lock (dev w) = None ->
  writer_lock (dev (sendData cl content hexInput env w)) = None.
Proof.
  intros Hl. unfold sendData.
  destruct (port cl); [|exact Hl].
  destruct (negb (writable (dev w))); [exact Hl|].
  rewrite Hl.
  destruct (prepare cl content _) as [[dataToSend displayLog]|].
  - destruct (write_error env);
      (apply (writer_lock_release_ref_set (next_writer (dev w))); [reflexivity|now left]).
  - apply (writer_lock_release_ref_set (next_writer (dev w))); [reflexivity|].
    right. world_simpl. now apply releaseLock_own.
Qed.

Lemma sendData_releases_lock_witness :
  writer_lock (dev openWorld) = None
  /\ writer_lock (dev (sendData (state openWorld) (Text (lit "zz")) (Some true)
                         send_ok openWorld)) = None.
Proof.
  split; [reflexivity|].
  apply (sendData_releases_lock (state openWorld) (Text (lit "zz")) (Some true)
           send_ok openWorld).
  reflexivity.
Defined.

(** X6: a call of [sendData] that finds the stream locked (a write of an
    earlier call is still pending) logs a send error and writes nothing; its
    [finally] block then releases the writer held in [writerRef], so the lock
    of the earlier call is given up when that is the holder, and stays
    otherwise. *)
Theorem sendData_on_locked_stream (cl : SerialState) (content : Content)
    (hexInput : option bool) (env : SendEnv) (w : World) (holder : nat) :
  port cl <> None -> writable (dev w) = true -> writer_lock (dev w) = Some holder ->
  let w' := sendData cl content hexInput env w in
  state w' = addLog (stamp env) error (msg_send_error (lock_error env)) None (state w)
  /\ wire (dev w') = wire (dev w)
  /\ writerRef w' = writerRef w
  /\ (writerRef w = Some holder -> writer_lock (dev w') = None)
  /\ (writerRef w <> Some holder -> writer_lock (dev w') = Some holder).
Proof.
  intros Hp Hw Hl w'. subst w'. unfold sendData.
  destruct (port cl); [|congruence]. rewrite Hw, Hl. cbn [negb].
  rewrite state_release_ref, wire_release_ref.
  split; [reflexivity|]. split; [reflexivity|].
  unfold release_ref. world_simpl.
  destruct (writerRef w) as [r|] eqn:Er; world_simpl.
  - split; [exact Er|]. split.
    + intros [= ->]. now apply releaseLock_own.
    + intros Hne. unfold releaseLock. rewrite decide_False by congruence. exact Hl.
  - split; [exact Er|]. split; [discriminate | intros _; exact Hl].
Qed.

Lemma sendData_on_locked_stream_witness :
  let w' := sendData (state busyWorld) (Text (lit "AT")) None send_fails busyWorld in
  wire (dev w') = wire (dev busyWorld) /\ writer_lock (dev w') = None.
Proof.
  intros w'.
  destruct (sendData_on_locked_stream (state busyWorld) (Text (lit "AT")) None
              send_fails busyWorld 0%nat)
    as (_ & Hw & _ & Hsteal & _); [discriminate | reflexivity | reflexivity |].
  split; [exact Hw | apply Hsteal; reflexivity].
Defined.

(** A send that gets as far as the write, on an open port with a free
    stream. *)
Lemma sendData_prepared (cl : SerialState) (content : Content) (hexInput : option bool)
    (env : SendEnv) (w : World) (chunk : Uint8Array) (display : jsstring) :
  port cl <> None -> writable (dev w) = true -> writer_lock (dev w) = None ->
  prepare cl content (default (isHex (sendConfig cl)) hexInput) = Some (chunk, display) ->
  let w' := sendData cl content hexInput env w in
  writer_lock (dev w') = None
  /\ match write_error env with
     | None => state w' = addLog (stamp env) tx display (Some chunk) (state w)
               /\ wire (dev w') = wire (dev w) ++ [chunk]
     | Some m => state w' = addLog (stamp env) error (msg_send_error m) None (state w)
                 /\ wire (dev w') = wire (dev w)
     end.
Proof.
  intros Hp Hw Hl Hprep w'.
  subst w'. unfold sendData. destruct (port cl); [|congruence].
  rewrite Hw, Hl, Hprep. cbn [negb].
  destruct (write_error env);
    (split; [apply (writer_lock_release_ref_set (next_writer (dev w)));
             [reflexivity | now left]|]);
    rewrite state_release_ref, wire_release_ref; now split.
Qed.

(** X7: a hex-mode send of an accepted text, on an open port with a free
    stream and a write that succeeds, writes exactly the decoded bytes as one
    chunk (no terminator is added, whatever the CRLF option says), logs them
    as "[HEX] " followed by their normalised rendering, and adds their number,
    half the number of digits typed, to the transmitted total. *)
Theorem hex_send_writes_decoded_bytes (cl : SerialState) (str : jsstring)
    (hexInput : option bool) (env : SendEnv) (w : World) (bytes : Uint8Array) :
  port cl <> None -> writable (dev w) = true -> writer_lock (dev w) = None ->
  write_error env = None -> default (isHex (sendConfig cl)) hexInput = true ->
  parseHexString str = Some bytes ->
  let w' := sendData cl (Text str) hexInput env w in
  wire (dev w') = wire (dev w) ++ [bytes]
  /\ logs (state w')
     = slice_last 2000 (logs (state w))
       ++ [newEntry (stamp env) tx (lit "[HEX] " ++ bufferToHex bytes) (Some bytes)]
  /\ txCount (state w') = txCount (state w) + N.of_nat (length bytes)
  /\ (2 * length bytes = length (List.filter is_hex_digit str))%nat.
Proof.
  intros Hp Hw Hl He Hh Hparse w'.
  destruct (sendData_prepared cl (Text str) hexInput env w bytes
              (lit "[HEX] " ++ bufferToHex bytes) Hp Hw Hl) as [_ H].
  { cbn [prepare]. now rewrite Hh, Hparse. }
  rewrite He in H. destruct H as [Hs Hwire]. fold w' in Hs, Hwire.
  rewrite Hs. split; [exact Hwire|]. split; [reflexivity|]. split.
  - world_simpl. now rewrite decide_True by reflexivity.
  - symmetry. apply (parseHexString_pairs str bytes Hparse).
Qed.

Lemma hex_send_writes_decoded_bytes_witness :
  let w' := sendData (state openWorld) (Text (lit "01 03 00 00 00 01")) (Some true)
              send_ok openWorld in
  wire (dev w') = wire (dev openWorld) ++ [[x01; x03; x00; x00; x00; x01]].
Proof.
  intros w'.
  apply (hex_send_writes_decoded_bytes (state openWorld) (lit "01 03 00 00 00 01")
           (Some true) send_ok openWorld [x01; x03; x00; x00; x00; x01]);
    [discriminate | reflexivity..].
Defined.

(** X8: a file send passes the bytes through untouched: on an open port with
    a free stream and a write that succeeds, the file content is written as
    one chunk whatever the hex and CRLF options say and also when the file is
    empty; the entry reads "[FILE] Sent n bytes" with [n] the decimal length,
    and the transmitted total grows by the length. *)
Theorem file_send_passes_bytes_through (cl : SerialState) (b : Uint8Array)
    (hexInput : option bool) (env : SendEnv) (w : World) :
  port cl <> None -> writable (dev w) = true -> writer_lock (dev w) = None ->
  write_error env = None ->
  let w' := sendData cl (Binary b) hexInput env w in
  let n := N.of_nat (length b) in
  wire (dev w') = wire (dev w) ++ [b]
  /\ logs (state w')
     = slice_last 2000 (logs (state w))
       ++ [newEntry (stamp env) tx (lit "[FILE] Sent " ++ toString n 10 ++ lit " bytes")
             (Some b)]
  /\ parseInt (toString n 10) 10 = Some n
  /\ txCount (state w') = txCount (state w) + n.
Proof.
  intros Hp Hw Hl He w' n.
  destruct (sendData_prepared cl (Binary b) hexInput env w b
              (lit "[FILE] Sent " ++ toString n 10 ++ lit " bytes") Hp Hw Hl eq_refl)
    as [_ H].
  rewrite He in H. destruct H as [Hs Hwire]. fold w' in Hs, Hwire.
  rewrite Hs. split; [exact Hwire|]. split; [reflexivity|]. split.
  - apply parseInt_toString. lia.
  - world_simpl. now rewrite decide_True by reflexivity.
Qed.

Lemma file_send_passes_bytes_through_witness :
  let w' := sendData (state openWorld) (Binary []) (Some true) send_ok openWorld in
  wire (dev w') = wire (dev openWorld) ++ [[]].
Proof.
  intros w'.
  apply (file_send_passes_bytes_through (state openWorld) [] (Some true) send_ok
           openWorld); [discriminate | reflexivity..].
Defined.

(** X9: when the awaited write is rejected, the send appends the error
    entry "send error: <message>" with the message of the rejection, counts
    nothing, records no chunk as written and gives the stream lock back. *)
Theorem failed_write_is_reported (cl : SerialState) (content : Content)
    (hexInput : option bool) (env : SendEnv) (w : World)
    (chunk : Uint8Array) (display m : jsstring) :
  port cl <> None -> writable (dev w) = true -> writer_lock (dev w) = None ->
  prepare cl content (default (isHex (sendConfig cl)) hexInput) = Some (chunk, display) ->
  write_error env = Some m ->
  let w' := sendData cl content hexInput env w in
  logs (state w')
  = slice_last 2000 (logs (state w))
    ++ [newEntry (stamp env) error (lit "发送错误: " ++ m) None]
  /\ wire (dev w') = wire (dev w)
  /\ txCount (state w') = txCount (state w)
  /\ rxCount (state w') = rxCount (state w)
  /\ writer_lock (dev w') = None.
Proof.
  intros Hp Hw Hl Hprep He w'.
  destruct (sendData_prepared cl content hexInput env w chunk display Hp Hw Hl Hprep)
    as [Hlock H].
  rewrite He in H. destruct H as [Hs Hwire]. fold w' in Hs, Hwire, Hlock.
  rewrite Hs. repeat split; assumption.
Qed.

Lemma failed_write_is_reported_witness :
  let w' := sendData (state openWorld) (Text (lit "AT")) None send_fails openWorld in
  wire (dev w') = wire (dev openWorld) /\ txCount (state w') = txCount (state openWorld).
Proof.
  intros w'.
  destruct (failed_write_is_reported (state openWorld) (Text (lit "AT")) None send_fails
              openWorld (encode (lit "AT")) (lit "AT") (lit "lost"))
    as (_ & Hw & Ht & _); [discriminate | reflexivity..|].
  split; assumption.
Defined.

Lemma encode_cons2 (a b : N) (rest : jsstring) :
  encode (a :: b :: rest)
  = if is_high a then
      if is_low b
      then utf8_bytes (65536 + (a - 55296) * 1024 + (b - 56320)) ++ encode rest
      else utf8_bytes 65533 ++ encode (b :: rest)
    else if is_low a then utf8_bytes 65533 ++ encode (b :: rest)
    else utf8_bytes a ++ encode (b :: rest).
Proof. reflexivity. Qed.

Lemma encode_app_CRLF (s : jsstring) : encode (s ++ CRLF) = encode s ++ [x0d; x0a].
Proof.
  induction s as [|a|a b rest IH IH'] using pair_induction.
  - reflexivity.
  - change ([a] ++ CRLF) with (a :: CR :: [LF]). rewrite encode_cons2.
    change (encode [a])
      with (if is_high a then utf8_bytes 65533
            else if is_low a then utf8_bytes 65533 ++ [] else utf8_bytes a ++ []).
    change (is_low CR) with false. change (encode [CR; LF]) with [x0d; x0a].
    destruct (is_high a); [reflexivity|].
    destruct (is_low a); now rewrite <- app_assoc.
  - change ((a :: b :: rest) ++ CRLF) with (a :: b :: rest ++ CRLF).
    rewrite !encode_cons2. change (b :: rest ++ CRLF) with ((b :: rest) ++ CRLF).
    rewrite IH, IH'.
    destruct (is_high a); [destruct (is_low b)|destruct (is_low a)];
      now rewrite <- app_assoc.
Qed.

Lemma endsWith_app (p suffix : jsstring) : endsWith (p ++ suffix) suffix = true.
Proof. apply endsWith_spec. now exists p. Qed.

(** X10: the terminator option never doubles the terminator and never fails
    to add it: applying it twice is the same as applying it once; with the
    option on, the text sent always ends in CR LF and its encoding in the
    bytes 0D 0A; with the option off the text is sent as typed. *)
Theorem terminator_added_at_most_once (cl : SerialState) (s : jsstring) :
  textToSend cl (textToSend cl s) = textToSend cl s
  /\ (addCRLF (sendConfig cl) = true ->
      endsWith (textToSend cl s) CRLF = true
      /\ exists p, encode (textToSend cl s) = p ++ [x0d; x0a])
  /\ (addCRLF (sendConfig cl) = false -> textToSend cl s = s).
Proof.
  unfold textToSend. destruct (addCRLF (sendConfig cl)); cbn [andb].
  - destruct (endsWith s CRLF) eqn:E; cbn [negb].
    + rewrite E. cbn [negb]. split; [reflexivity|]. split; [|discriminate].
      intros _. split; [reflexivity|].
      apply endsWith_spec in E as [p ->]. exists (encode p). apply encode_app_CRLF.
    + rewrite endsWith_app. cbn [negb]. split; [reflexivity|]. split; [|discriminate].
      intros _. split; [reflexivity|]. exists (encode s). apply encode_app_CRLF.
  - split; [reflexivity|]. split; [discriminate|reflexivity].
Qed.

Lemma terminator_added_at_most_once_witness :
  addCRLF (sendConfig crlf_on) = true
  /\ endsWith (textToSend crlf_on (lit "AT")) CRLF = true.
Proof.
  split; [reflexivity|].
  apply (terminator_added_at_most_once crlf_on (lit "AT")). reflexivity.
Defined.

(** ** Control signals *)

(** X11: on an open connection a signal change drives the chosen line to the
    requested value and the other line to the value the state shows for it.
    When the port accepts, the state afterwards shows exactly the two values
    the port was given, and one informational entry "DTR = ON" (and the like)
    is appended; when the port refuses, lines and state stay as they were and
    one error entry carries the message. *)
Theorem signal_change_on_open_port (s : Signal) (value : bool) (env : SignalEnv)
    (w : World) :
  connection_open (state w) ->
  let w' := handleSignalChange (state w) s value env w in
  match sig_error env with
  | None =>
    (line_dtr (dev w'), line_rts (dev w')) = with_signal s value (state w)
    /\ (dtr (state w'), rts (state w')) = with_signal s value (state w)
    /\ logs (state w')
       = slice_last 2000 (logs (state w))
         ++ [newEntry (sig_stamp env) info
               (lit "信号设置: " ++ (match s with sig_dtr => lit "DTR" | sig_rts => lit "RTS" end)
                  ++ lit " = " ++ (if value then lit "ON" else lit "OFF")) None]
  | Some m =>
    dev w' = dev w
    /\ (dtr (state w'), rts (state w')) = (dtr (state w), rts (state w))
    /\ logs (state w')
       = slice_last 2000 (logs (state w))
         ++ [newEntry (sig_stamp env) error (lit "无法设置信号: " ++ m) None]
  end
  /\ wire (dev w') = wire (dev w)
  /\ rxCount (state w') = rxCount (state w)
  /\ txCount (state w') = txCount (state w).
Proof.
  intros [Hc Hp] w'. subst w'. unfold handleSignalChange.
  destruct (port (state w)); [|congruence]. rewrite Hc. cbn [negb].
  destruct (sig_error env); world_simpl.
  - repeat split.
  - destruct s; repeat split.
Qed.

Lemma signal_change_on_open_port_witness :
  connection_open (state openWorld)
  /\ wire (dev (handleSignalChange (state openWorld) sig_rts true signal_ok openWorld))
     = wire (dev openWorld).
Proof.
  assert (Ho : connection_open (state openWorld)) by (split; [reflexivity|discriminate]).
  split; [exact Ho|].
  apply (signal_change_on_open_port sig_rts true signal_ok openWorld Ho).
Defined.

(** ** Connection lifecycle *)

(** X12: a connect attempt that fails before the port is open (no Web Serial
    support, or the request or the open is rejected) changes nothing but the
    log: it appends one error entry and leaves the connection flag, the port,
    the port object, the refs and the timer as they were. *)
Theorem failed_connect_keeps_state (cl : SerialState) (env : ConnectEnv) (w : World) :
  serial_supported env = false \/ open_error env <> None ->
  let w' := handleConnect cl env w in
  (exists m, w' = with_state (addLog (c_stamp env) error m None) w)
  /\ isConnected (state w') = isConnected (state w)
  /\ port (state w') = port (state w)
  /\ dev w' = dev w
  /\ keepReadingRef w' = keepReadingRef w
  /\ autoSendTimerRef w' = autoSendTimerRef w
  /\ intervals w' = intervals w.
Proof.
  intros H w'. subst w'. unfold handleConnect.
  destruct (serial_supported env); cbn [negb].
  - destruct (open_error env) as [m|]; [|destruct H; congruence].
    split; [eexists; reflexivity|]. repeat split.
  - split; [eexists; reflexivity|]. repeat split.
Qed.

Lemma failed_connect_keeps_state_witness :
  dev (handleConnect initialState connect_refused initialWorld) = dev initialWorld
  /\ isConnected (state (handleConnect initialState connect_refused initialWorld)) = false.
Proof.
  destruct (failed_connect_keeps_state initialState connect_refused initialWorld)
    as (_ & Hc & _ & Hd & _); [right; discriminate|].
  split; [exact Hd | exact Hc].
Defined.



Lemma handleDisconnect_log_wire (cl : SerialState) (env : DisconnectEnv) (w : World) :
  let w' := handleDisconnect cl env w in
  logs (state w')
  = slice_last 2000 (logs (state w))
    ++ [newEntry (d_stamp env) info (lit "串口已关闭") None]
  /\ wire (dev w') = wire (dev w)
  /\ keepReadingRef w' = false
  /\ isConnected (state w') = false.
Proof.
  intros w'. subst w'. unfold handleDisconnect, handleDisconnect_resume, handleDisconnect_begin. world_simpl.
  destruct (autoSendTimerRef w); (destruct (port cl); [destruct (close_ok env)|]);
    world_simpl; now repeat split.
Qed.

(** X14: [handleDisconnect] always ends closed, whatever the port does: the
    flag is off, the port reference dropped, reading stopped and the timer
    ref cleared, with one entry "port closed" appended and counters and
    written chunks untouched.  The port object itself is closed only if the
    handler held a port and the close succeeded.  The auto-repeat option is
    switched off exactly when a timer was set; otherwise the send options
    stay as they were. *)
Theorem disconnect_always_closes (cl : SerialState) (env : DisconnectEnv) (w : World) :
  let w' := handleDisconnect cl env w in
  isConnected (state w') = false /\ port (state w') = None
  /\ keepReadingRef w' = false /\ autoSendTimerRef w' = None
  /\ logs (state w')
     = slice_last 2000 (logs (state w))
       ++ [newEntry (d_stamp env) info (lit "串口已关闭") None]
  /\ rxCount (state w') = rxCount (state w) /\ txCount (state w') = txCount (state w)
  /\ wire (dev w') = wire (dev w)
  /\ (port cl <> None -> close_ok env = true ->
      writable (dev w') = false /\ writer_lock (dev w') = None)
  /\ (port cl = None \/ close_ok env = false -> dev w' = dev w)
  /\ (autoSendTimerRef w <> None ->
      autoRepeat (sendConfig (state w')) = false
      /\ isHex (sendConfig (state w')) = isHex (sendConfig (state w))
      /\ addCRLF (sendConfig (state w')) = addCRLF (sendConfig (state w)))
  /\ (autoSendTimerRef w = None -> sendConfig (state w') = sendConfig (state w)).
Proof.
  intros w'. subst w'. unfold handleDisconnect, handleDisconnect_resume, handleDisconnect_begin. world_simpl.
  destruct (autoSendTimerRef w) as [h|] eqn:Er;
    (destruct (port cl); [destruct (close_ok env)|]);
    world_simpl; rewrite ?Er;
    repeat match goal with |- _ /\ _ => split end;
    try reflexivity; intros; try congruence;
    try match goal with H : _ \/ _ |- _ => destruct H; congruence end;
    repeat split.
Qed.

Lemma disconnect_always_closes_witness :
  writable (dev (handleDisconnect (state openWorld) disconnect_ok openWorld)) = false
  /\ isConnected (state (handleDisconnect (state openWorld) disconnect_ok openWorld))
     = false.
Proof.
  destruct (disconnect_always_closes (state openWorld) disconnect_ok openWorld)
    as (Hc & _ & _ & _ & _ & _ & _ & _ & Hclose & _).
  split; [|exact Hc]. apply Hclose; [discriminate | reflexivity].
Defined.

(** ** Sessions: what holds in every reachable world *)

Lemma reachable_inv (saved : Saved) (es : list Event) :
  session_inv (run es (mount saved)).
Proof. apply run_inv, mount_inv. Qed.

Lemma run_snoc (es : list Event) (e : Event) (w : World) :
  run (es ++ [e]) w = step (run es w) e.
Proof. now rewrite run_app. Qed.

Lemma closed_no_port (w : World) :
  session_inv w -> isConnected (state w) = false -> port (state w) = None.
Proof.
  intros (_ & _ & Hc) Hi. destruct (port (state w)) eqn:E; [|reflexivity].
  assert (isConnected (state w) = true) by (apply Hc; rewrite E; discriminate).
  congruence.
Qed.

Lemma sendData_closed_dev (cl : SerialState) (content : Content)
    (hexInput : option bool) (env : SendEnv) (w : World) :
  writable (dev w) = false \/ port cl = None ->
  dev (sendData cl content hexInput env w) = dev w.
Proof.
  intros H. unfold sendData. destruct (port cl); [|reflexivity].
  destruct H as [->|H]; [reflexivity | discriminate H].
Qed.

Lemma closed_step_dev (w : World) (e : Event) :
  session_inv w -> isConnected (state w) = false -> is_connect e = false ->
  writable (dev w) = false \/ is_file_loaded e = false ->
  wire (dev (step w e)) = wire (dev w)
  /\ (writable (dev w) = false -> writable (dev (step w e)) = false).
Proof.
  intros Hw Hi He Hfile. unfold step.
  destruct (commit_keeps w (handle e w)) as [_ ->].
  pose proof (closed_no_port w Hw Hi) as Hp.
  destruct (unarmed_released w Hw (unarmed_closed w Hi)) as [_ Hempty].
  assert (Hsame : forall w1, dev w1 = dev w ->
             wire (dev w1) = wire (dev w)
             /\ (writable (dev w) = false -> writable (dev w1) = false)).
  { intros w1 ->. now split. }
  destruct e; cbn [handle is_connect] in *; try discriminate;
    try (apply Hsame; reflexivity).
  - unfold tick. rewrite Hempty, lookup_empty. now apply Hsame.
  - apply Hsame, sendData_closed_dev. now right.
  - apply Hsame, sendData_closed_dev. now right.
  - destruct (suspended w !! k) as [[cl|cl]|]; try (apply Hsame; reflexivity).
    destruct Hfile as [Hwr|Hfile]; [|discriminate Hfile].
    apply Hsame. now rewrite sendData_closed_dev by (left; exact Hwr).
  - unfold handleSignalChange. rewrite Hp. now apply Hsame.
  - apply Hsame. unfold handleDisconnect_begin. world_simpl.
    now destruct (autoSendTimerRef w).
  - destruct (suspended w !! k) as [[cl|cl]|]; try (apply Hsame; reflexivity).
    unfold handleDisconnect_resume.
    destruct (port cl); [destruct (close_ok env)|]; world_simpl; now split.
  - rewrite Hp. now apply Hsame.
Qed.

(** X15: after a disconnect has finished nothing more is written to the port
    until the next connect, whatever the user sends from the screen and
    whatever timer fires: the session stays closed and the list of written
    chunks stays as it was.  This covers the files chosen earlier and loaded
    only now if the port is in fact closed, which it is when the finished
    [handleDisconnect] held a port whose [close] succeeded. *)
Theorem nothing_written_after_disconnect (saved : Saved) (pre post : list Event)
    (d : Event) :
  completes_disconnect (run pre (mount saved)) d = true ->
  forallb (fun e => negb (is_connect e)) post = true ->
  let w := run (pre ++ [d]) (mount saved) in
  isConnected (state (run post w)) = false
  /\ (forall k env cl,
        d = DisconnectSettles k env ->
        suspended (run pre (mount saved)) !! k = Some (Closing cl) ->
        port cl <> None -> close_ok env = true ->
        writable (dev w) = false)
  /\ (writable (dev w) = false
      \/ forallb (fun e => negb (is_file_loaded e)) post = true ->
      wire (dev (run post w)) = wire (dev w)).
Proof.
  intros Hd Hpost w.
  assert (Hw : session_inv w) by apply reachable_inv.
  assert (Ew : w = step (run pre (mount saved)) d) by (subst w; apply run_snoc).
  assert (Hclosed : isConnected (state w) = false).
  { rewrite Ew.
    destruct (step_inv (run pre (mount saved)) d (reachable_inv saved pre))
      as (_ & -> & _).
    now apply handle_completes_closes. }
  split; [|split].
  - clear Ew. clearbody w. revert w Hw Hclosed.
    induction post as [|e post IH]; intros w Hw Hclosed; [exact Hclosed|].
    cbn [forallb] in Hpost. apply andb_prop in Hpost as [He Hpost].
    apply negb_true_iff in He. cbn [run fold_left]. fold (run post (step w e)).
    destruct (step_inv w e Hw) as (Hw' & Es & _).
    apply (IH Hpost (step w e) Hw'). rewrite Es. now apply handle_stays_closed.
  - intros k env cl -> Hk Hport Hok. rewrite Ew. unfold step.
    destruct (commit_keeps (run pre (mount saved))
                (handle (DisconnectSettles k env) (run pre (mount saved)))) as [_ ->].
    cbn [handle]. rewrite Hk. unfold handleDisconnect_resume. rewrite Hok.
    destruct (port cl); [reflexivity | now contradiction Hport].
  - clear Ew Hd. clearbody w. revert w Hw Hclosed.
    induction post as [|e post IH]; intros w Hw Hclosed Hfile; [reflexivity|].
    cbn [forallb] in Hpost. apply andb_prop in Hpost as [He Hpost].
    apply negb_true_iff in He. cbn [run fold_left]. fold (run post (step w e)).
    destruct (step_inv w e Hw) as (Hw' & Es & _).
    assert (Hclosed' : isConnected (state (step w e)) = false).
    { rewrite Es. now apply handle_stays_closed. }
    assert (Hfile1 : writable (dev w) = false \/ is_file_loaded e = false).
    { destruct Hfile as [H|H]; [now left|right].
      cbn [forallb] in H. apply andb_prop in H as [H _]. now apply negb_true_iff. }
    destruct (closed_step_dev w e Hw Hclosed He Hfile1) as [Hwire Hwr].
    rewrite (IH Hpost (step w e) Hw' Hclosed'); [exact Hwire|].
    destruct Hfile as [H|H]; [left; now apply Hwr | right].
    cbn [forallb] in H. now apply andb_prop in H as [_ H].
Qed.

Lemma nothing_written_after_disconnect_witness :
  let pre := [ClickConnect connect_ok; ChooseFile; ClickDisconnect] in
  let post := [SendInput send_ok; FileLoaded 0 [x41] send_ok] in
  let w := run (pre ++ [DisconnectSettles 1 disconnect_ok]) initialWorld in
  wire (dev (run post w)) = wire (dev w).
Proof.
  intros pre post w.
  destruct (nothing_written_after_disconnect nothing_saved pre post
              (DisconnectSettles 1 disconnect_ok)) as (_ & Hclose & Hwire);
    [reflexivity | reflexivity |].
  apply Hwire. left.
  apply (Hclose 1%nat disconnect_ok (state openWorld));
    [reflexivity | reflexivity | discriminate | reflexivity].
Defined.

(** When the [close] was rejected the port object stays writable, and the
    file reader of a file chosen before the disconnect still finds the open
    port in its closure: its bytes are written although the session is
    closed. *)
Example file_written_after_rejected_close :
  let pre := [ClickConnect connect_ok; ChooseFile; ClickDisconnect] in
  let w := run (pre ++ [DisconnectSettles 1 disconnect_rejected]) initialWorld in
  isConnected (state w) = false
  /\ wire (dev w) = []
  /\ wire (dev (run [FileLoaded 0 [x41] send_ok] w)) = [[x41]].
Proof. vm_compute. repeat split. Qed.

(** X16: in every world a session can reach there is at most one live
    interval, and it is the one whose handle sits in the timer ref. *)
Theorem at_most_one_interval (saved : Saved) (es : list Event) (h h' : positive) :
  let w := run es (mount saved) in
  is_Some (intervals w !! h) -> is_Some (intervals w !! h') ->
  h = h' /\ autoSendTimerRef w = Some h.
Proof.
  intros w Hh Hh'. destruct (reachable_inv saved es) as (Ho & _).
  fold w in Ho. pose proof (Ho h Hh) as E. pose proof (Ho h' Hh') as E'.
  split; [congruence | exact E].
Qed.

Lemma at_most_one_interval_witness :
  autoSendTimerRef (run armed_session initialWorld) = Some 1%positive.
Proof.
  assert (H : is_Some (intervals (run armed_session initialWorld) !! 1%positive)).
  { vm_compute. eauto. }
  apply (at_most_one_interval nothing_saved armed_session 1 1 H H).
Defined.

Lemma handle_log_bound (e : Event) (w : World) :
  (length (logs (state w)) <= 2001)%nat ->
  (length (logs (state (handle e w))) <= 2001)%nat.
Proof.
  intros Hb.
  assert (Hsend : forall cl content hexInput env w0,
             (length (logs (state (sendData cl content hexInput env w0))) <= 2001)%nat).
  { intros cl content hexInput env w0.
    destruct (sendData_outcome cl content hexInput env w0)
      as [(m & -> & _)|(chunk & display & -> & _)]; apply length_logs_addLog. }
  assert (Hbegin : forall w0 t,
             (length (logs (state w0)) <= 2001)%nat ->
             (length (logs (state (suspend t (handleDisconnect_begin w0)))) <= 2001)%nat).
  { intros w0 t H0. unfold handleDisconnect_begin. world_simpl.
    now destruct (autoSendTimerRef w0). }
  assert (Hresume : forall cl env w0,
             (length (logs (state (handleDisconnect_resume cl env w0))) <= 2001)%nat).
  { intros cl env w0. unfold handleDisconnect_resume.
    destruct (port cl); [destruct (close_ok env)|]; apply length_logs_addLog. }
  destruct e; cbn [handle].
  - unfold tick. destruct (intervals w !! h); [apply Hsend | exact Hb].
  - apply Hsend.
  - apply Hsend.
  - exact Hb.
  - destruct (suspended w !! k) as [[cl|cl]|]; try exact Hb. apply Hsend.
  - unfold handleSignalChange.
    destruct (port (state w)); [destruct (negb (isConnected (state w)));
                                [|destruct (sig_error env)]|];
      try exact Hb; apply length_logs_addLog.
  - unfold handleConnect.
    destruct (negb (serial_supported env)); [apply length_logs_addLog|].
    destruct (open_error env); [apply length_logs_addLog|].
    destruct (init_signals_error env); apply length_logs_addLog.
  - now apply Hbegin.
  - destruct (suspended w !! k) as [[cl|cl]|]; try exact Hb. apply Hresume.
  - apply length_logs_addLog.
  - destruct (port (state w)); [destruct ours|];
      try apply Hbegin; apply length_logs_addLog.
  - apply length_logs_addLog.
  - exact Hb.
  - exact Hb.
  - cbn. lia.
Qed.

(** X17: in every world a session can reach the transcript holds at most
    2001 entries, whatever was sent, received or reported. *)
Theorem session_log_is_bounded (saved : Saved) (es : list Event) :
  (length (logs (state (run es (mount saved)))) <= 2001)%nat.
Proof.
  induction es as [|e es IH] using rev_ind; [cbn; lia|].
  rewrite run_snoc. destruct (step_inv (run es (mount saved)) e (reachable_inv saved es))
    as (_ & -> & _).
  now apply handle_log_bound.
Qed.

Lemma totals_bounded_step (w : World) (e : Event) (received : N) :
  txCount (state w) <= wire_bytes w -> rxCount (state w) <= received ->
  txCount (state (step w e)) <= wire_bytes (step w e)
  /\ rxCount (state (step w e)) <= received + received_bytes [e].
Proof.
  intros Ht Hr. unfold step.
  destruct (commit_keeps w (handle e w)) as [Es Ed].
  assert (Eb : wire_bytes (commit w (handle e w)) = wire_bytes (handle e w)).
  { unfold wire_bytes. now rewrite Ed. }
  rewrite Es, Eb. destruct (is_clear e) eqn:Ec.
  - destruct e; try discriminate. cbn [handle]. world_simpl. lia.
  - destruct (counted_step_handle e w Ec) as [Ht1 Hr1]. lia.
Qed.

(** X18: in every session the transmitted total is at most the number of
    bytes written to the port and the received total at most the number of
    bytes the read loop delivered; as long as the log is not cleared they are
    equal. *)
Theorem totals_follow_the_channel (saved : Saved) (es : list Event) :
  let w := run es (mount saved) in
  txCount (state w) <= wire_bytes w
  /\ rxCount (state w) <= received_bytes es
  /\ (forallb (fun e => negb (is_clear e)) es = true ->
      txCount (state w) = wire_bytes w /\ rxCount (state w) = received_bytes es).
Proof.
  intros w. subst w. split; [|split].
  - induction es as [|e es IH] using rev_ind; [cbn; lia|].
    rewrite run_snoc.
    apply (totals_bounded_step (run es (mount saved)) e (rxCount (state (run es (mount saved))))
             IH (N.le_refl _)).
  - induction es as [|e es IH] using rev_ind; [cbn; lia|].
    rewrite run_snoc.
    assert (Ht : txCount (state (run es (mount saved))) <= wire_bytes (run es (mount saved))).
    { clear IH. induction es as [|e' es IH'] using rev_ind; [cbn; lia|].
      rewrite run_snoc.
      apply (totals_bounded_step (run es (mount saved)) e'
               (rxCount (state (run es (mount saved)))) IH' (N.le_refl _)). }
    destruct (totals_bounded_step (run es (mount saved)) e (received_bytes es) Ht IH)
      as [_ H].
    assert (E : received_bytes (es ++ [e]) = received_bytes es + received_bytes [e]).
    { unfold received_bytes. rewrite map_app, fold_right_app. cbn [map fold_right].
      generalize (map (fun e0 => match e0 with
                                 | Received _ _ chunk => N.of_nat (length chunk)
                                 | _ => 0
                                 end) es).
      intros l. induction l as [|x l IHl]; cbn [fold_right]; lia. }
    now rewrite E.
  - intros Hall. destruct (counters_match_channel es (mount saved) Hall) as [Ht Hr].
    change (wire_bytes (mount saved)) with 0 in Ht.
    change (txCount (state (mount saved))) with 0 in Ht.
    change (rxCount (state (mount saved))) with 0 in Hr.
    rewrite N.add_0_r in Ht. split; [exact Ht | exact Hr].
Qed.

Lemma totals_follow_the_channel_witness :
  let es := [ClickConnect connect_ok; EditInput (lit "AT"); SendInput send_ok;
             Received stamp0 (lit "OK") [x4f; x4b]] in
  txCount (state (run es initialWorld)) = wire_bytes (run es initialWorld)
  /\ rxCount (state (run es initialWorld)) = 2.
Proof.
  intros es.
  destruct (totals_follow_the_channel nothing_saved es) as (_ & _ & H).
  destruct (H eq_refl) as [Ht Hr]. split; [exact Ht | exact (eq_trans Hr eq_refl)].
Defined.

(** ** Auto-send timer: arming, closures and edits *)

Lemma handle_intervals_sub (e : Event) (w : World) (h : positive) (cb : Callback) :
  intervals (handle e w) !! h = Some cb -> intervals w !! h = Some cb.
Proof.
  destruct (handle_timer_step e w) as [[_ ->]|[_ (h0 & _ & ->)]]; [auto|].
  intros H. apply lookup_delete_Some in H. apply H.
Qed.

Lemma deps_eq_parts (w w1 : World) :
  deps w = deps w1 ->
  sendConfig (state w) = sendConfig (state w1)
  /\ inputBuffer w = inputBuffer w1
  /\ isConnected (state w) = isConnected (state w1).
Proof.
  unfold deps. intros H. injection H as H1 H2 H3 H4 H5 H6.
  repeat split; try assumption.
  destruct (sendConfig (state w)), (sendConfig (state w1)). cbn in *. congruence.
Qed.

Lemma port_eq_of_consistent (st st' : SerialState) :
  consistent st -> consistent st' -> isConnected st = isConnected st' ->
  port st = port st'.
Proof.
  unfold consistent. intros Hc Hc' E.
  destruct (port st) as [[]|] eqn:Ep, (port st') as [[]|] eqn:Ep'; try reflexivity.
  - assert (H : isConnected st = true) by (apply Hc; discriminate).
    rewrite E in H. apply Hc' in H. congruence.
  - assert (H : isConnected st' = true) by (apply Hc'; discriminate).
    rewrite <- E in H. apply Hc in H. congruence.
Qed.

Lemma effect_rerun_lookup (w : World) (h : positive) (cb : Callback) :
  timer_owned w ->
  intervals (effect_body (effect_cleanup w)) !! h = Some cb ->
  cb = callback_of w /\ h = next_interval w
  /\ armed_condition w = true /\ autoSendTimerRef w = None.
Proof.
  intros Ho. unfold effect_cleanup.
  destruct (autoSendTimerRef w) as [h0|] eqn:Er.
  - pose proof (owned_delete w h0 Ho Er) as Hd.
    unfold effect_body, armed_condition. world_simpl.
    fold (armed_condition w). destruct (armed_condition w); world_simpl.
    + rewrite Hd. discriminate.
    + intros H. apply lookup_delete_Some in H as [_ H]. rewrite Hd in H. discriminate.
  - pose proof (owned_no_ref w Ho Er) as Hn.
    unfold effect_body. destruct (armed_condition w); rewrite Er; world_simpl.
    + intros H. apply lookup_insert_Some in H as [[<- <-]|[_ H]]; [now repeat split|].
      rewrite Hn in H. discriminate.
    + rewrite Hn. discriminate.
Qed.

Lemma step_fresh (w : World) (e : Event) :
  session_inv w -> interval_fresh w -> interval_fresh (step w e).
Proof.
  intros Hw Hf h cb. destruct (step_inv w e Hw) as ((_ & _ & Hc') & Es & Ei).
  rewrite Es, Ei. clear Es Ei. unfold step, commit.
  destruct (bool_decide (deps w = deps (handle e w))) eqn:Ed.
  - apply bool_decide_eq_true in Ed.
    destruct (deps_eq_parts _ _ Ed) as (Hs & Hi & Hcn).
    intros Hl. apply handle_intervals_sub in Hl.
    destruct (Hf h cb Hl) as (F1 & F2 & F3 & F4).
    rewrite <- Hs, <- Hi. repeat split; try assumption.
    rewrite F3. apply port_eq_of_consistent; [apply Hw | | exact Hcn].
    apply handle_consistent, Hw.
  - intros Hl. apply effect_rerun_lookup in Hl as (-> & _).
    + now repeat split.
    + eapply timer_step_owned; [apply handle_timer_step | apply Hw].
Qed.

Lemma reachable_fresh (saved : Saved) (es : list Event) :
  interval_fresh (run es (mount saved)).
Proof.
  induction es as [|e es IH] using rev_ind.
  - intros h cb H. cbn [run fold_left mount intervals] in H.
    rewrite lookup_empty in H. discriminate.
  - rewrite run_snoc. apply step_fresh; [apply reachable_inv | exact IH].
Qed.

Lemma sendData_same_view (cl cl' : SerialState) (content : Content)
    (hexInput : option bool) (env : SendEnv) (w : World) :
  port cl = port cl' -> sendConfig cl = sendConfig cl' ->
  sendData cl content hexInput env w = sendData cl' content hexInput env w.
Proof.
  intros Hp Hs. unfold sendData, prepare, textToSend. now rewrite Hp, Hs.
Qed.

Lemma tick_is_send (saved : Saved) (es : list Event) (h : positive) (cb : Callback)
    (env : SendEnv) :
  let w := run es (mount saved) in
  intervals w !! h = Some cb ->
  handle (TimerTick h env) w = handle (SendInput env) w.
Proof.
  intros w Hl. destruct (reachable_fresh saved es h cb Hl) as (F1 & F2 & F3 & _).
  fold w in F1, F2, F3. cbn [handle]. unfold tick. rewrite Hl, F1.
  now apply sendData_same_view.
Qed.

(** X19: in every world a session can reach, a live interval is up to date:
    its callback holds the text now in the input box and the send options and
    port of the current state, so a tick does exactly what pressing Send would
    do; its period is the configured interval raised to at least 10 ms (or
    NaN when the interval box holds no number). *)
Theorem live_interval_is_current (saved : Saved) (es : list Event) (h : positive)
    (cb : Callback) :
  let w := run es (mount saved) in
  intervals w !! h = Some cb ->
  cb_input cb = inputBuffer w
  /\ sendConfig (cb_state cb) = sendConfig (state w)
  /\ port (cb_state cb) = port (state w)
  /\ (forall env, handle (TimerTick h env) w = handle (SendInput env) w)
  /\ match repeatInterval (sendConfig (state w)) with
     | Some z => cb_period cb = Some (Z.max 10 z) /\ (10 <= Z.max 10 z)%Z
     | None => cb_period cb = None
     end.
Proof.
  intros w Hl. destruct (reachable_fresh saved es h cb Hl) as (F1 & F2 & F3 & F4).
  fold w in F1, F2, F3, F4. repeat split; try assumption.
  - intros env. now apply (tick_is_send saved es h cb).
  - rewrite F4. destruct (repeatInterval (sendConfig (state w))); cbn [period_of];
      [split; [reflexivity|lia] | reflexivity].
Qed.

Lemma live_interval_is_current_witness :
  exists cb, intervals (run armed_session initialWorld) !! 1%positive = Some cb
             /\ cb_input cb = lit "AT" /\ cb_period cb = Some 1000%Z.
Proof.
  destruct (intervals (run armed_session initialWorld) !! 1%positive) as [cb|] eqn:E;
    [|vm_compute in E; discriminate].
  exists cb. split; [reflexivity|].
  destruct (live_interval_is_current nothing_saved armed_session 1 cb E)
    as (Hin & _ & _ & _ & Hper).
  split; [rewrite Hin; vm_compute; reflexivity|].
  vm_compute in Hper. apply Hper.
Defined.

(** X20: editing the input box or a send option while the timer is set stops
    the repetition: if the edit changes a dependency of the effect, no
    interval is left afterwards and no tick sends anything; yet when the
    arming condition still holds the timer ref keeps its handle, so the
    effect does not start a new interval. *)
Theorem edit_while_armed_stops_timer (saved : Saved) (es : list Event) (e : Event) :
  let w := run es (mount saved) in
  is_edit e = true -> deps (handle e w) <> deps w -> autoSendTimerRef w <> None ->
  let w' := step w e in
  intervals w' = ∅
  /\ (forall h env, handle (TimerTick h env) w' = w')
  /\ (armed_condition w' = true -> autoSendTimerRef w' = autoSendTimerRef w)
  /\ (armed_condition w' = false -> autoSendTimerRef w' = None).
Proof.
  intros w He Hdeps Href w'.
  destruct (reachable_inv saved es) as (Ho & _). fold w in Ho.
  assert (Hsame : autoSendTimerRef (handle e w) = autoSendTimerRef w
                  /\ intervals (handle e w) = intervals w).
  { destruct e; try discriminate; now split. }
  destruct Hsame as [Er Ei].
  destruct (autoSendTimerRef w) as [h0|] eqn:Ew; [|congruence].
  assert (Hd : forall h, delete h0 (intervals (handle e w)) !! h = None).
  { intros h. rewrite Ei. now apply owned_delete. }
  assert (Hempty : intervals w' = ∅
                   /\ (armed_condition w' = true -> autoSendTimerRef w' = Some h0)
                   /\ (armed_condition w' = false -> autoSendTimerRef w' = None)).
  { subst w'. unfold step, commit.
    rewrite bool_decide_eq_false_2 by congruence.
    unfold effect_cleanup. rewrite Er.
    unfold effect_body, armed_condition. world_simpl.
    fold (armed_condition (handle e w)).
    destruct (armed_condition (handle e w)) eqn:Ec; world_simpl.
    - split; [now apply map_empty|]. unfold armed_condition. world_simpl.
      fold (armed_condition (handle e w)). rewrite Ec. split; [reflexivity|discriminate].
    - split.
      + apply map_empty. intros h. destruct (decide (h0 = h)) as [->|Hne].
        * apply lookup_delete_eq.
        * rewrite lookup_delete_ne by exact Hne. apply Hd.
      + unfold armed_condition. world_simpl.
        fold (armed_condition (handle e w)). rewrite Ec.
        split; [discriminate|reflexivity]. }
  destruct Hempty as (H1 & H2 & H3). repeat split; try assumption.
  intros h env. cbn [handle]. unfold tick. now rewrite H1, lookup_empty.
Qed.

Lemma edit_while_armed_stops_timer_witness :
  let w' := step (run armed_session initialWorld) (EditInput (lit "ATZ")) in
  intervals w' = ∅ /\ autoSendTimerRef w' = Some 1%positive.
Proof.
  intros w'.
  destruct (edit_while_armed_stops_timer nothing_saved armed_session
              (EditInput (lit "ATZ")))
    as (Hi & _ & Hr & _); [reflexivity | discriminate | discriminate |].
  split; [exact Hi|]. apply Hr. reflexivity.
Defined.

(** X21: when an event makes the arming condition true (the option on, the
    session connected, the input box not empty) in a session where it was
    not, the effect starts exactly one interval: its handle goes into the
    timer ref, and its callback closes over the state and input of that
    moment, with the configured period raised to at least 10 ms. *)
Theorem arming_starts_one_interval (saved : Saved) (es : list Event) (e : Event) :
  let w := run es (mount saved) in
  armed_condition w = false -> armed_condition (handle e w) = true ->
  let w' := step w e in
  let h := next_interval (handle e w) in
  intervals w' = {[ h := callback_of (handle e w) ]}
  /\ autoSendTimerRef w' = Some h
  /\ (forall env, handle (TimerTick h env) w' = handle (SendInput env) w').
Proof.
  intros w Hoff Hon w' h.
  pose proof (reachable_inv saved es) as Hw. fold w in Hw.
  destruct (unarmed_released w Hw Hoff) as [Hr Hi].
  assert (Hr1 : autoSendTimerRef (handle e w) = None).
  { destruct (timer_step_ref w (handle e w) (handle_timer_step e w)) as [E|E];
      [now rewrite E | exact E]. }
  assert (Hi1 : intervals (handle e w) = ∅).
  { destruct (handle_timer_step e w) as [[_ E]|[_ (h0 & E & _)]]; [|congruence].
    now rewrite E. }
  assert (Hdeps : deps w <> deps (handle e w)).
  { intros E. apply armed_condition_deps in E. congruence. }
  assert (E1 : intervals w' = {[ h := callback_of (handle e w) ]}
               /\ autoSendTimerRef w' = Some h).
  { subst w' h. unfold step, commit. rewrite bool_decide_eq_false_2 by exact Hdeps.
    unfold effect_cleanup. rewrite Hr1. unfold effect_body. rewrite Hon, Hr1.
    world_simpl. rewrite Hi1. split; reflexivity. }
  destruct E1 as [E1 E2]. split; [exact E1|]. split; [exact E2|].
  intros env.
  assert (Hl : intervals w' !! h = Some (callback_of (handle e w))).
  { rewrite E1. apply lookup_singleton_eq. }
  change w' with (run [e] w) in Hl |- *. subst w.
  rewrite <- run_app in Hl |- *.
  now apply (tick_is_send saved (es ++ [e]) h (callback_of (handle e (run es (mount saved))))).
Qed.

Lemma arming_starts_one_interval_witness :
  let w := run [ClickConnect connect_ok; EditInput (lit "AT")] initialWorld in
  autoSendTimerRef (step w (EditSendConfig auto_on)) = Some 1%positive.
Proof.
  intros w.
  apply (arming_starts_one_interval nothing_saved
           [ClickConnect connect_ok; EditInput (lit "AT")] (EditSendConfig auto_on));
    reflexivity.
Defined.

(** ** Analysis request and service *)

(** X22: [handleAiAnalysis] makes a request exactly when an API key is
    configured, the transcript is not empty and, for every provider other
    than Gemini, a base URL is configured. *)
Theorem analysis_request_is_made_iff (st : SerialState) :
  (exists p, handleAiAnalysis_request st = Some p)
  <-> apiKey (aiConfig st) <> [] /\ logs st <> []
      /\ (provider (aiConfig st) = gemini \/ baseUrl (aiConfig st) <> []).
Proof.
  unfold handleAiAnalysis_request, analyzeLogs_request.
  destruct (decide (apiKey (aiConfig st) = [])) as [Ek|Ek].
  { rewrite bool_decide_eq_true_2 by exact Ek.
    split; [intros [p H]; discriminate | intros [H _]; contradiction]. }
  rewrite bool_decide_eq_false_2 by exact Ek.
  destruct (decide (logs st = [])) as [El|El].
  { rewrite bool_decide_eq_true_2 by exact El.
    split; [intros [p H]; discriminate | intros (_ & H & _); contradiction]. }
  rewrite bool_decide_eq_false_2 by exact El.
  destruct (decide (baseUrl (aiConfig st) = [])) as [Eb|Eb].
  - rewrite (bool_decide_eq_true_2 _ Eb).
    destruct (provider (aiConfig st)) eqn:Ep;
      (split; [intros [p H]; try discriminate; repeat split; auto
              | intros (_ & _ & [H|H]); try discriminate; try contradiction; eauto]).
  - rewrite (bool_decide_eq_false_2 _ Eb).
    destruct (provider (aiConfig st)); (split; [intros _; repeat split; auto | eauto]).
Qed.

Lemma analysis_request_is_made_iff_witness :
  exists p, handleAiAnalysis_request long_transcript = Some p.
Proof.
  apply (analysis_request_is_made_iff long_transcript).
  split; [discriminate|]. split; [discriminate|]. now left.
Defined.

Lemma count_LF_app (s t : jsstring) (c : N) :
  count_occ N.eq_dec (s ++ t) c = (count_occ N.eq_dec s c + count_occ N.eq_dec t c)%nat.
Proof. apply count_occ_app. Qed.

Lemma count_join (sep : jsstring) (parts : list jsstring) (c : N) :
  Forall (fun p => count_occ N.eq_dec p c = 0%nat) parts ->
  count_occ N.eq_dec (join sep parts) c
  = ((length parts - 1) * count_occ N.eq_dec sep c)%nat.
Proof.
  induction 1 as [|p parts Hp _ IH]; [reflexivity|].
  destruct parts as [|q parts].
  - cbn [join length]. now rewrite Hp.
  - rewrite join_cons2, !count_occ_app, Hp. unfold jsstring in *.
    rewrite IH. cbn [length]. lia.
Qed.

Lemma replace_all_free (c : N) (rep s : jsstring) (x : N) :
  count_occ N.eq_dec rep x = 0%nat -> (x = c \/ count_occ N.eq_dec s x = 0%nat) ->
  count_occ N.eq_dec (replace_all c rep s) x = 0%nat.
Proof.
  intros Hrep Hs. unfold replace_all. induction s as [|y s IH]; [reflexivity|].
  cbn [flat_map]. rewrite count_occ_app.
  destruct (N.eqb_spec y c) as [->|Hne].
  - rewrite Hrep. cbn [Nat.add]. apply IH.
    destruct Hs as [Hs|Hs]; [now left|]. right.
    cbn [count_occ] in Hs. destruct (N.eq_dec c x); [discriminate|exact Hs].
  - destruct Hs as [->|Hs].
    + cbn [count_occ]. destruct (N.eq_dec y c); [contradiction|]. cbn. apply IH. now left.
    + cbn [count_occ] in Hs |- *. destruct (N.eq_dec y x); [discriminate|].
      cbn. apply IH. now right.
Qed.

Lemma entry_line_text_one_line (l : LogEntry) (x : N) :
  x = CR \/ x = LF -> count_occ N.eq_dec (entry_line false l) x = 0%nat.
Proof.
  intros Hx. unfold entry_line. rewrite !count_occ_app.
  assert (H1 : count_occ N.eq_dec (toUpperCase (LogType_name (type l))) x = 0%nat).
  { destruct (type l), Hx as [->| ->]; reflexivity. }
  assert (H2 : count_occ N.eq_dec (lit ": ") x = 0%nat).
  { destruct Hx as [->| ->]; reflexivity. }
  rewrite H1, H2. cbn [Nat.add].
  destruct Hx as [->| ->].
  - apply replace_all_free; [reflexivity|]. right.
    apply replace_all_free; [reflexivity | now left].
  - apply replace_all_free; [reflexivity | now left].
Qed.

(** X23: in text mode the text handed to [analyzeLogs] has exactly one line
    per entry of the window: carriage returns and line feeds inside payloads
    are written as the two-character sequences backslash-r and backslash-n, so
    the text holds no carriage return and its only line feeds are the
    separators between the (at most 100) entries. *)
Theorem analysis_text_one_line_per_entry (st : SerialState) :
  isHexMode st = false ->
  count_occ N.eq_dec (combinedLogs st) LF = (Nat.min (length (logs st)) 100 - 1)%nat
  /\ count_occ N.eq_dec (combinedLogs st) CR = 0%nat.
Proof.
  intros Hm. unfold combinedLogs. rewrite Hm.
  assert (H : forall x, x = CR \/ x = LF ->
                Forall (fun p => count_occ N.eq_dec p x = 0%nat)
                       (map (entry_line false) (slice_last 100 (logs st)))).
  { intros x Hx. apply Forall_forall. intros p Hp. apply list_elem_of_In in Hp.
    apply in_map_iff in Hp as (l & <- & _). now apply entry_line_text_one_line. }
  rewrite !count_join by (apply H; auto).
  rewrite length_map, slice_last_length.
  change (count_occ N.eq_dec [LF] LF) with 1%nat.
  change (count_occ N.eq_dec [LF] CR) with 0%nat.
  split; lia.
Qed.

Lemma analysis_text_one_line_per_entry_witness :
  count_occ N.eq_dec (combinedLogs long_transcript) LF = 1%nat.
Proof.
  apply (analysis_text_one_line_per_entry long_transcript). reflexivity.
Defined.

Lemma error_report_nonempty (m : jsstring) : error_report m <> [].
Proof. unfold error_report. discriminate. Qed.

Lemma or_else_nonempty (v : option jsstring) (fallback : jsstring) :
  fallback <> [] -> or_else v fallback <> [].
Proof. intros H. destruct v as [[|c s]|]; cbn; [exact H | discriminate | exact H]. Qed.

Lemma analyzeLogs_nonempty (logs : jsstring) (cfg : AIConfig) (host : ServiceHost) :
  analyzeLogs logs cfg host <> [].
Proof.
  unfold analyzeLogs.
  destruct (provider cfg); destruct (bool_decide (apiKey cfg = []));
    try apply error_report_nonempty;
    try match goal with
        | |- context [bool_decide (baseUrl cfg = [])] =>
          destruct (bool_decide (baseUrl cfg = [])); try apply error_report_nonempty
        end.
  all: try (destruct (gemini_reply host);
            [apply error_report_nonempty | apply or_else_nonempty; discriminate]).
  all: destruct (fetch_reply host);
    [apply error_report_nonempty.. | apply or_else_nonempty; discriminate].
Qed.

Lemma analyzeLogs_config_error (logs : jsstring) (cfg : AIConfig) (host : ServiceHost) :
  analyzeLogs_request logs cfg = None ->
  (exists m, analyzeLogs logs cfg host = error_report m)
  /\ forall host', analyzeLogs logs cfg host' = analyzeLogs logs cfg host.
Proof.
  unfold analyzeLogs, analyzeLogs_request.
  destruct (provider cfg); destruct (bool_decide (apiKey cfg = []));
    try match goal with
        | |- context [bool_decide (baseUrl cfg = [])] =>
          destruct (bool_decide (baseUrl cfg = []))
        end;
    try discriminate; (intros _; split; [eexists; reflexivity | reflexivity]).
Qed.

Lemma occurs_error_report (m : jsstring) : occurs m (error_report m).
Proof.
  unfold occurs, error_report.
  exists (lit "**AI 分析错误**:" ++ [LF; LF]),
         ([LF; LF] ++ lit "请检查配置里的 API Key、模型名称和 Base URL 是否正确。").
  now rewrite <- !app_assoc.
Qed.

Lemma analyzeLogs_asks (logs : jsstring) (cfg : AIConfig) (host : ServiceHost) :
  analyzeLogs_request logs cfg <> None ->
  analyzeLogs logs cfg host
  = match provider cfg with
    | gemini =>
      match gemini_reply host with
      | GeminiThrows m => error_report m
      | GeminiText t => or_else t (lit "无法生成分析结果。")
      end
    | _ =>
      match fetch_reply host with
      | FetchThrows m => error_report m
      | FetchNotOk status errorText =>
        error_report (lit "请求失败 (" ++ toString status 10 ++ lit "): " ++ errorText)
      | FetchOk content => or_else content (lit "无内容生成")
      end
    end.
Proof.
  unfold analyzeLogs, analyzeLogs_request.
  destruct (provider cfg); destruct (bool_decide (apiKey cfg = []));
    try match goal with
        | |- context [bool_decide (baseUrl cfg = [])] =>
          destruct (bool_decide (baseUrl cfg = []))
        end;
    intros H; try (now contradiction H); reflexivity.
Qed.

(** X24: [analyzeLogs] always comes back with a text to display, never the
    empty string.  When it asks the service, the result is the answer of the
    service if that is a non-empty text, a fixed fallback if the answer is
    missing or empty, the error report around the message of whatever was
    thrown, and for a response that is not ok the error report around the
    status and the body.  The error report contains the message it is given.
    Without an API key, and for every provider other than Gemini without a
    base URL, the result is the report of the configuration error, whatever
    the service would answer. *)
Theorem analyzeLogs_always_reports (logs : jsstring) (cfg : AIConfig)
    (host : ServiceHost) :
  let result := analyzeLogs logs cfg host in
  let asked := analyzeLogs_request logs cfg <> None in
  result <> []
  /\ (forall m, occurs m (error_report m))
  /\ (analyzeLogs_request logs cfg = None ->
      forall host', analyzeLogs logs cfg host' = result)
  /\ (apiKey cfg = [] ->
      result = error_report
                 (lit "请配置 "
                  ++ match provider cfg with
                     | gemini => lit "Gemini"
                     | p => AIProvider_name p
                     end
                  ++ lit " API Key"))
  /\ (apiKey cfg <> [] -> provider cfg <> gemini -> baseUrl cfg = [] ->
      result = error_report (lit "API Base URL 不能为空"))
  /\ (asked -> provider cfg = gemini ->
      (forall m, gemini_reply host = GeminiThrows m -> result = error_report m)
      /\ (forall t, gemini_reply host = GeminiText (Some t) -> t <> [] -> result = t)
      /\ (gemini_reply host = GeminiText None \/ gemini_reply host = GeminiText (Some []) ->
          result = lit "无法生成分析结果。"))
  /\ (asked -> provider cfg <> gemini ->
      (forall m, fetch_reply host = FetchThrows m -> result = error_report m)
      /\ (forall status errorText,
            fetch_reply host = FetchNotOk status errorText -> status < 65536 ->
            result
            = error_report (lit "请求失败 (" ++ toString status 10 ++ lit "): " ++ errorText))
      /\ (forall t, fetch_reply host = FetchOk (Some t) -> t <> [] -> result = t)
      /\ (fetch_reply host = FetchOk None \/ fetch_reply host = FetchOk (Some []) ->
          result = lit "无内容生成")).
Proof.
  intros result asked. subst result asked.
  split; [apply analyzeLogs_nonempty|].
  split; [apply occurs_error_report|].
  split; [intros H; now apply analyzeLogs_config_error|].
  split; [|split; [|split]].
  - intros Hk. unfold analyzeLogs. rewrite (bool_decide_eq_true_2 _ Hk).
    now destruct (provider cfg).
  - intros Hk Hp Hu. unfold analyzeLogs.
    rewrite (bool_decide_eq_false_2 _ Hk), (bool_decide_eq_true_2 _ Hu).
    now destruct (provider cfg).
  - intros Hreq Hp. rewrite (analyzeLogs_asks logs cfg host Hreq), Hp.
    split; [|split].
    + now intros m ->.
    + intros t -> Ht. destruct t; [now contradiction Ht | reflexivity].
    + now intros [->| ->].
  - intros Hreq Hp. rewrite (analyzeLogs_asks logs cfg host Hreq).
    assert (E : forall r : jsstring,
               match provider cfg with gemini => r | _ =>
                 match fetch_reply host with
                 | FetchThrows m => error_report m
                 | FetchNotOk status errorText =>
                   error_report
                     (lit "请求失败 (" ++ toString status 10 ++ lit "): " ++ errorText)
                 | FetchOk content => or_else content (lit "无内容生成")
                 end end
               = match fetch_reply host with
                 | FetchThrows m => error_report m
                 | FetchNotOk status errorText =>
                   error_report
                     (lit "请求失败 (" ++ toString status 10 ++ lit "): " ++ errorText)
                 | FetchOk content => or_else content (lit "无内容生成")
                 end).
    { intros r. destruct (provider cfg); [now contradiction Hp | reflexivity..]. }
    rewrite E. split; [|split; [|split]].
    + now intros m ->.
    + now intros status errorText -> _.
    + intros t -> Ht. destruct t; [now contradiction Ht | reflexivity].
    + now intros [->| ->].
Qed.

Lemma analyzeLogs_always_reports_witness :
  analyzeLogs (lit "RX: OK") deepseek_config deepseek_answers = lit "Modbus RTU".
Proof.
  destruct (analyzeLogs_always_reports (lit "RX: OK") deepseek_config deepseek_answers)
    as (_ & _ & _ & _ & _ & _ & H).
  destruct H as (_ & _ & Hans & _); [discriminate | discriminate |].
  apply (Hans (lit "Modbus RTU")); [reflexivity | discriminate].
Defined.

Lemma preset_installed (p : AIProvider) (prev : AIConfig) :
  p = deepseek \/ p = grok \/ p = openai ->
  baseUrl (handleProviderChange p prev) <> []
  /\ model (handleProviderChange p prev) <> []
  /\ Some (baseUrl (handleProviderChange p prev)) = option_map defaultUrl (find_preset p).
Proof.
  intros [->|[->| ->]]; vm_compute; (split; [discriminate|]; split; [discriminate|]);
    reflexivity.
Qed.

(** X25: choosing a provider in the settings dialog keeps the API key; for
    DeepSeek, Grok and OpenAI it installs the preset's base URL and model,
    both non-empty, so that with an API key [analyzeLogs] gets as far as the
    request; for Gemini it installs the preset model and keeps the base URL;
    for the custom provider it keeps both. *)
Theorem provider_change_installs_preset (p : AIProvider) (prev : AIConfig) :
  let c := handleProviderChange p prev in
  provider c = p /\ apiKey c = apiKey prev
  /\ (p = deepseek \/ p = grok \/ p = openai ->
      baseUrl c <> [] /\ model c <> []
      /\ Some (baseUrl c) = option_map defaultUrl (find_preset p)
      /\ (apiKey prev <> [] -> forall logs, analyzeLogs_request logs c <> None))
  /\ (p = gemini -> baseUrl c = baseUrl prev /\ model c = lit "gemini-2.0-flash")
  /\ (p = custom -> baseUrl c = baseUrl prev /\ model c = model prev).
Proof.
  intros c. subst c. split; [reflexivity|]. split; [reflexivity|].
  split; [|split].
  - intros Hp.
    destruct (preset_installed p prev Hp) as (Hu & Hm & Hf).
    split; [exact Hu|]. split; [exact Hm|]. split; [exact Hf|].
    intros Hk logs. unfold analyzeLogs_request.
    change (apiKey (handleProviderChange p prev)) with (apiKey prev).
    change (provider (handleProviderChange p prev)) with p.
    rewrite (bool_decide_eq_false_2 _ Hk), (bool_decide_eq_false_2 _ Hu).
    destruct p; intros H; inversion H.
  - intros ->. split; reflexivity.
  - intros ->. split; vm_compute; reflexivity.
Qed.

Lemma provider_change_installs_preset_witness :
  baseUrl (handleProviderChange deepseek (aiConfig initialState))
  = lit "https://api.deepseek.com".
Proof.
  destruct (provider_change_installs_preset deepseek (aiConfig initialState))
    as (_ & _ & H & _).
  destruct H as (_ & _ & Hurl & _); [now left|].
  pose proof (f_equal (default []) Hurl) as E. vm_compute in E |- *. exact E.
Defined.

(** ** Read loop *)

Example decode_cjk : TextDecoder_decode [xe4; xb8; xb2; xe5; x8f; xa3] = lit "串口".
Proof. reflexivity. Qed.

Example decode_broken_sequence :
  TextDecoder_decode [x41; xe4; xb8; x42; xff; xe4] = [65; 65533; 66; 65533; 65533].
Proof. reflexivity. Qed.

Example decode_drops_bom : TextDecoder_decode [xef; xbb; xbf; x4f; x4b] = lit "OK".
Proof. reflexivity. Qed.

Example decode_astral : TextDecoder_decode [xf0; x9f; x98; x80] = [55357; 56832].
Proof. reflexivity. Qed.

Lemma utf8_decode_ascii (bs : list N) :
  Forall (fun b => b < 128) bs -> utf8_decode utf8_idle bs = bs.
Proof.
  induction 1 as [|b bs Hb _ IH]; [reflexivity|].
  cbn [utf8_decode utf8_idle u_needed Nat.eqb]. unfold utf8_lead.
  replace (b <=? 127) with true by (symmetry; apply N.leb_le; lia).
  cbn [app]. fold utf8_idle. now rewrite IH.
Qed.

Lemma TextDecoder_decode_ascii (value : Uint8Array) :
  Forall (fun b => Byte.to_N b < 128) value ->
  TextDecoder_decode value = map Byte.to_N value.
Proof.
  intros H. unfold TextDecoder_decode.
  rewrite utf8_decode_ascii by (apply Forall_map; exact H).
  assert (Hs : strip_bom (map Byte.to_N value) = map Byte.to_N value).
  { destruct H as [|b bs Hb _]; [reflexivity|]. cbn [map strip_bom].
    destruct (Byte.to_N b) as [|p] eqn:E; [reflexivity|].
    destruct (N.eq_dec (N.pos p) 65279) as [E'|E']; [lia|].
    destruct p as [p|p|]; try reflexivity;
      repeat (destruct p as [p|p|]; try reflexivity); lia. }
  rewrite Hs. clear Hs. induction H as [|b bs Hb _ IH]; [reflexivity|].
  cbn [map flat_map]. unfold utf16_units at 1.
  replace (Byte.to_N b <? 65536) with true by (symmetry; apply N.ltb_lt; lia).
  cbn [app]. now rewrite IH.
Qed.

Lemma read_chunks_cons (c : Stamp * Uint8Array) (chunks : list (Stamp * Uint8Array))
    (env : HeadEnv) (r : Reader) :
  read_chunks (c :: chunks) env r
  = read_chunks chunks env (rd_with_world (with_state (append (chunk_append c))) r).
Proof. reflexivity. Qed.

Lemma read_chunks_state (chunks : list (Stamp * Uint8Array)) (env : HeadEnv) (r : Reader) :
  let r' := read_chunks chunks env r in
  state (rd_world r') = appends (map chunk_append chunks) (state (rd_world r))
  /\ dev (rd_world r') = dev (rd_world r)
  /\ keepReadingRef (rd_world r') = keepReadingRef (rd_world r)
  /\ rd_lock r' = rd_lock r /\ readerRef r' = readerRef r
  /\ rd_readable r' = rd_readable r.
Proof.
  cbv zeta. revert r. induction chunks as [|c chunks IH]; intros r; [now repeat split|].
  rewrite read_chunks_cons.
  destruct (IH (rd_with_world (with_state (append (chunk_append c))) r))
    as (E1 & E2 & E3 & E4 & E5 & E6).
  rewrite E1, E2, E3, E4, E5, E6. now repeat split.
Qed.

Lemma counters_chunk_append (c : Stamp * Uint8Array) (s : SerialState) :
  rxCount (append (chunk_append c) s) = rxCount s + N.of_nat (length (snd c))
  /\ txCount (append (chunk_append c) s) = txCount s.
Proof. split; reflexivity. Qed.

Lemma rxCount_chunk_appends (chunks : list (Stamp * Uint8Array)) (s : SerialState) :
  rxCount (appends (map chunk_append chunks) s)
  = rxCount s + fold_right N.add 0 (map (fun c => N.of_nat (length (snd c))) chunks)
  /\ txCount (appends (map chunk_append chunks) s) = txCount s.
Proof.
  revert s. induction chunks as [|c chunks IH]; intros s.
  - change (appends (map chunk_append []) s) with s.
    change (fold_right N.add 0 (map (fun c => N.of_nat (length (snd c))) [])) with 0.
    split; [now rewrite N.add_0_r | reflexivity].
  - change (map chunk_append (c :: chunks))
      with (chunk_append c :: map chunk_append chunks).
    rewrite appends_cons. destruct (IH (append (chunk_append c) s)) as [-> ->].
    destruct (counters_chunk_append c s) as [-> ->].
    change (map (fun c0 => N.of_nat (length (snd c0))) (c :: chunks))
      with (N.of_nat (length (snd c))
            :: map (fun c0 => N.of_nat (length (snd c0))) chunks).
    change (fold_right N.add 0
              (N.of_nat (length (snd c))
               :: map (fun c0 => N.of_nat (length (snd c0))) chunks))
      with (N.of_nat (length (snd c))
            + fold_right N.add 0 (map (fun c0 => N.of_nat (length (snd c0))) chunks)).
    split; [lia | reflexivity].
Qed.

(** X26: while the loop awaits reads, every chunk that arrives, empty or
    not, becomes one received entry, in the order of arrival: its text is the
    UTF-8 decoding of the chunk (the bytes themselves as characters when they
    are all below 128), its hex view the rendering of the chunk, and the
    received total grows by the number of bytes.  Nothing else moves: the
    transmitted total, the port, the reader lock and the stop flag stay. *)
Theorem read_chunks_are_logged_in_order (chunks : list (Stamp * Uint8Array))
    (env : HeadEnv) (r : Reader) :
  let r' := read_chunks chunks env r in
  (forall c, readLoop_resume (ReadChunk (fst c) (snd c)) env r
             = (rd_with_world (with_state (append (chunk_append c))) r, Running))
  /\ state (rd_world r') = appends (map chunk_append chunks) (state (rd_world r))
  /\ ((length (logs (state (rd_world r))) <= 2001)%nat ->
      logs (state (rd_world r'))
      = slice_last 2001
          (logs (state (rd_world r))
           ++ map (fun c => newEntry (fst c) rx (TextDecoder_decode (snd c)) (Some (snd c)))
                  chunks))
  /\ rxCount (state (rd_world r'))
     = rxCount (state (rd_world r))
       + fold_right N.add 0 (map (fun c => N.of_nat (length (snd c))) chunks)
  /\ txCount (state (rd_world r')) = txCount (state (rd_world r))
  /\ dev (rd_world r') = dev (rd_world r)
  /\ rd_lock r' = rd_lock r
  /\ keepReadingRef (rd_world r') = keepReadingRef (rd_world r)
  /\ (forall value, Forall (fun b => Byte.to_N b < 128) value ->
                    TextDecoder_decode value = map Byte.to_N value
                    /\ hex (newEntry (head_stamp env) rx (TextDecoder_decode value)
                              (Some value)) = bufferToHex value).
Proof.
  intros r'. destruct (read_chunks_state chunks env r) as (E1 & E2 & E3 & E4 & _).
  fold r' in E1, E2, E3, E4.
  destruct (rxCount_chunk_appends chunks (state (rd_world r))) as [Hr Ht].
  split; [reflexivity|]. split; [exact E1|]. rewrite E1.
  split; [|repeat split; try assumption; now apply TextDecoder_decode_ascii].
  intros Hb. rewrite (logs_appends _ _ Hb), map_map. reflexivity.
Qed.

Lemma read_chunks_are_logged_in_order_witness :
  let r' := read_chunks [(stamp0, [x4f; x4b]); (stamp0, [])] head_env0 readingWorld in
  logs (state (rd_world r'))
  = slice_last 2001
      (logs (state (rd_world readingWorld))
       ++ [newEntry stamp0 rx (TextDecoder_decode [x4f; x4b]) (Some [x4f; x4b]);
           newEntry stamp0 rx (TextDecoder_decode []) (Some [])]).
Proof.
  intros r'.
  apply (read_chunks_are_logged_in_order [(stamp0, [x4f; x4b]); (stamp0, [])]
           head_env0 readingWorld).
  vm_compute. lia.
Defined.

Lemma release_own_reader (r : Reader) (k : nat) :
  readerRef r = Some k -> rd_lock r = Some k ->
  release_reader r
  = {| rd_world := rd_world r; rd_readable := rd_readable r; rd_lock := None;
       rd_next := rd_next r; readerRef := Some k |}.
Proof.
  intros Hr Hl. unfold release_reader. rewrite Hr, decide_True by exact Hl.
  reflexivity.
Qed.

(** X27: when the read of a loop that holds its reader ends (end of data) or
    fails, the reader lock is released before anything else; a failure is
    logged as "read error: <message>" only if the stop flag has not been
    raised.  Then the loop returns if the port has no readable stream left or
    the stop flag is raised; otherwise it takes a new reader and goes on
    reading, after an error just as after an end of data. *)
Theorem read_loop_exit_paths (res : ReadResult) (env : HeadEnv) (r : Reader) (k : nat) :
  readerRef r = Some k -> rd_lock r = Some k ->
  (forall st value, res <> ReadChunk st value) ->
  let r' := fst (readLoop_resume res env r) in
  let status := snd (readLoop_resume res env r) in
  state (rd_world r')
  = match res with
    | ReadThrows st m =>
      if keepReadingRef (rd_world r)
      then addLog st error (lit "读取错误: " ++ m) None (state (rd_world r))
      else state (rd_world r)
    | _ => state (rd_world r)
    end
  /\ dev (rd_world r') = dev (rd_world r)
  /\ (if rd_readable r && keepReadingRef (rd_world r)
      then status = Running /\ rd_lock r' = Some (rd_next r)
           /\ readerRef r' = Some (rd_next r)
      else status = Returned /\ rd_lock r' = None).
Proof.
  intros Hr Hl Hres r' status. subst r' status.
  destruct res as [st value| |st m]; [now contradiction (Hres st value)| |];
    cbn [readLoop_resume].
  - rewrite (release_own_reader r k Hr Hl). unfold loop_head.
    cbn [rd_readable rd_world rd_lock].
    destruct (rd_readable r && keepReadingRef (rd_world r)); now repeat split.
  - unfold catch_read. destruct (keepReadingRef (rd_world r)) eqn:Ek.
    + rewrite (release_own_reader _ k) by (cbn; assumption). unfold loop_head.
      cbn [rd_readable rd_world rd_lock rd_with_world]. world_simpl. rewrite Ek.
      destruct (rd_readable r); cbn [andb fst snd]; now repeat split.
    + rewrite (release_own_reader r k Hr Hl). unfold loop_head.
      cbn [rd_readable rd_world rd_lock]. rewrite Ek, andb_false_r.
      now repeat split.
Qed.

Lemma read_loop_exit_paths_witness :
  snd (readLoop_resume (ReadThrows stamp0 (lit "framing error")) head_env0 readingWorld)
  = Running
  /\ rd_lock (fst (readLoop_resume (ReadThrows stamp0 (lit "framing error")) head_env0
                     readingWorld)) = Some 1%nat.
Proof.
  destruct (read_loop_exit_paths (ReadThrows stamp0 (lit "framing error")) head_env0
              readingWorld 0%nat)
    as (_ & _ & H); [reflexivity | reflexivity | discriminate |].
  change (rd_readable readingWorld && keepReadingRef (rd_world readingWorld)) with true in H.
  destruct H as (H1 & H2 & _). split; [exact H1 | exact H2].
Defined.

(** X28: a disconnect while a read is pending ends the loop quietly: once
    [handleDisconnect] has run, the pending read may resolve as end of data
    or fail, in both cases the loop appends no entry, releases its reader and
    returns. *)
Theorem disconnect_ends_read_loop (cl : SerialState) (denv : DisconnectEnv)
    (res : ReadResult) (env : HeadEnv) (r : Reader) (k : nat) :
  readerRef r = Some k -> rd_lock r = Some k ->
  (forall st value, res <> ReadChunk st value) ->
  let r1 := rd_with_world (handleDisconnect cl denv) r in
  let r' := fst (readLoop_resume res env r1) in
  snd (readLoop_resume res env r1) = Returned
  /\ rd_world r' = rd_world r1
  /\ rd_lock r' = None
  /\ isConnected (state (rd_world r')) = false.
Proof.
  intros Hr Hl Hres r1 r'.
  assert (Hk : keepReadingRef (rd_world r1) = false) by apply handleDisconnect_log_wire.
  assert (Hc : isConnected (state (rd_world r1)) = false)
    by apply handleDisconnect_log_wire.
  subst r'. destruct res as [st value| |st m]; [now contradiction (Hres st value)| |];
    cbn [readLoop_resume].
  - rewrite (release_own_reader r1 k Hr Hl). unfold loop_head.
    cbn [rd_readable rd_world rd_lock]. rewrite Hk, andb_false_r. now repeat split.
  - unfold catch_read. rewrite Hk. rewrite (release_own_reader r1 k Hr Hl).
    unfold loop_head. cbn [rd_readable rd_world rd_lock]. rewrite Hk, andb_false_r.
    now repeat split.
Qed.

Lemma disconnect_ends_read_loop_witness :
  snd (readLoop_resume ReadDone head_env0
         (rd_with_world (handleDisconnect (state openWorld) disconnect_ok) readingWorld))
  = Returned.
Proof.
  apply (disconnect_ends_read_loop (state openWorld) disconnect_ok ReadDone head_env0
           readingWorld 0%nat); [reflexivity | reflexivity | discriminate].
Defined.

(** X29: in every world a session can reach, the connection flag is set
    exactly when the state holds the port. *)
Theorem flag_and_port_agree (saved : Saved) (es : list Event) :
  let w := run es (mount saved) in
  (isConnected (state w) = true <-> port (state w) = Some ThePort)
  /\ (isConnected (state w) = false <-> port (state w) = None).
Proof.
  intros w. destruct (reachable_inv saved es) as (_ & _ & Hc). fold w in Hc.
  unfold consistent in Hc. destruct (port (state w)) as [[]|] eqn:Ep.
  - assert (H : isConnected (state w) = true) by (apply Hc; discriminate).
    rewrite H. split; split; congruence.
  - destruct (isConnected (state w)) eqn:Ei.
    + destruct Hc as [Hc _]. specialize (Hc eq_refl). congruence.
    + split; split; congruence.
Qed.

Lemma flag_and_port_agree_witness : port (state openWorld) = Some ThePort.
Proof.
  apply (flag_and_port_agree nothing_saved [ClickConnect connect_ok]). reflexivity.
Defined.

(** X30: [handleAiAnalysis] never touches the transcript, the counters or the
    connection.  Without an API key it only opens the settings dialog and
    keeps the earlier result; on an empty transcript it does nothing; in all
    other cases the new result is a non-empty text, which is the
    configuration error report when a provider other than Gemini has no base
    URL.  After the dialog saved a configuration with a key, an analysis of a
    non-empty transcript always yields a result and the dialog is closed. *)
Theorem analysis_leaves_session_alone (host : ServiceHost) (st : SerialState)
    (result : option jsstring) :
  let st' := fst (handleAiAnalysis host st result) in
  let result' := snd (handleAiAnalysis host st result) in
  logs st' = logs st /\ rxCount st' = rxCount st /\ txCount st' = txCount st
  /\ isConnected st' = isConnected st /\ port st' = port st
  /\ aiConfig st' = aiConfig st
  /\ (apiKey (aiConfig st) = [] -> showAiSettings st' = true /\ result' = result)
  /\ (apiKey (aiConfig st) <> [] -> logs st = [] -> st' = st /\ result' = result)
  /\ (apiKey (aiConfig st) <> [] -> logs st <> [] ->
      st' = st
      /\ exists text, result' = Some text /\ text <> []
           /\ (handleAiAnalysis_request st = None -> exists m, text = error_report m))
  /\ (forall c, apiKey c <> [] -> logs st <> [] ->
      showAiSettings (saveAiConfig c st) = false
      /\ exists text, snd (handleAiAnalysis host (saveAiConfig c st) result) = Some text
                      /\ text <> []).
Proof.
  assert (Hrun : forall s, apiKey (aiConfig s) <> [] -> logs s <> [] ->
             handleAiAnalysis host s result
             = (s, Some (analyzeLogs (combinedLogs s) (aiConfig s) host))).
  { intros s Hk Hl. unfold handleAiAnalysis.
    now rewrite (bool_decide_eq_false_2 _ Hk), (bool_decide_eq_false_2 _ Hl). }
  assert (Hsaved : forall c, apiKey c <> [] -> logs st <> [] ->
             showAiSettings (saveAiConfig c st) = false
             /\ exists text, snd (handleAiAnalysis host (saveAiConfig c st) result)
                             = Some text /\ text <> []).
  { intros c Hk Hl. split; [reflexivity|].
    rewrite (Hrun (saveAiConfig c st)) by assumption. eexists.
    split; [reflexivity|]. apply analyzeLogs_nonempty. }
  intros st' result'. subst st' result'.
  destruct (decide (apiKey (aiConfig st) = [])) as [Ek|Ek].
  - assert (E : handleAiAnalysis host st result = (set_ai (aiConfig st) true st, result)).
    { unfold handleAiAnalysis. now rewrite (bool_decide_eq_true_2 _ Ek). }
    rewrite E. cbn [fst snd]. do 6 (split; [reflexivity|]).
    split; [intros _; now split|]. split; [congruence|]. split; [congruence|].
    exact Hsaved.
  - destruct (decide (logs st = [])) as [El|El].
    + assert (E : handleAiAnalysis host st result = (st, result)).
      { unfold handleAiAnalysis.
        now rewrite (bool_decide_eq_false_2 _ Ek), (bool_decide_eq_true_2 _ El). }
      rewrite E. cbn [fst snd]. do 6 (split; [reflexivity|]).
      split; [congruence|]. split; [intros _ _; now split|]. split; [congruence|].
      exact Hsaved.
    + rewrite (Hrun st Ek El). cbn [fst snd]. do 6 (split; [reflexivity|]).
      split; [congruence|]. split; [congruence|]. split; [|exact Hsaved].
      intros _ _. split; [reflexivity|]. eexists. split; [reflexivity|].
      split; [apply analyzeLogs_nonempty|].
      unfold handleAiAnalysis_request.
      rewrite (bool_decide_eq_false_2 _ Ek), (bool_decide_eq_false_2 _ El).
      intros H. now apply analyzeLogs_config_error.
Qed.

Lemma analysis_leaves_session_alone_witness :
  showAiSettings (fst (handleAiAnalysis deepseek_answers initialState None)) = true
  /\ snd (handleAiAnalysis deepseek_answers initialState None) = None.
Proof.
  apply (analysis_leaves_session_alone deepseek_answers initialState None).
  reflexivity.
Defined.
